(** * viz/image.go: frame preparation and playback of the terminal image viewer

    A shallow embedding of [Image.Init] and [Image.Draw] together with the
    collaborators they call (Go's [int] and [float64] arithmetic, the
    [math], [image], [image/draw] and [image/gif] packages, the file
    system and the terminal query), followed by the properties of the
    pipeline.

    Go packages are rendered as modules of the same name, so that
    [math.Floor], [image.Rect] or [draw.Draw] read as in the source. *)

From Stdlib Require Import ZArith Lia Bool.
From Stdlib Require Import Floats.SpecFloat.
From stdpp Require Import base option list strings gmap pretty.

Open Scope Z_scope.

(** ** Go's fixed-width integers *)

Module goint.

(** [int] is 64 bits wide, two's complement; every arithmetic result wraps. *)
Definition wrap (z : Z) : Z := (z + 2 ^ 63) mod 2 ^ 64 - 2 ^ 63.

Definition mul (a b : Z) : Z := wrap (a * b).
Definition sub (a b : Z) : Z := wrap (a - b).

(** Integer division truncates toward zero. *)
Definition div (a b : Z) : Z := wrap (Z.quot a b).

(** The conversions [uint(x)], [uint32(x)] and [uint8(x)]. *)
Definition to_uint (z : Z) : Z := z mod 2 ^ 64.
Definition to_uint32 (z : Z) : Z := z mod 2 ^ 32.
Definition to_uint8 (z : Z) : Z := z mod 2 ^ 8.

Definition min_int : Z := - 2 ^ 63.
Definition max_int : Z := 2 ^ 63 - 1.

End goint.

(** ** float64

    IEEE 754 binary64 as specified by the standard library's [SpecFloat]:
    53 bits of precision, infinities at exponent 1024, round to nearest
    even. *)

Module float64.

Definition t := spec_float.

Definition prec : Z := 53.
Definition emax : Z := 1024.

Definition mul : t -> t -> t := SFmul prec emax.
Definition quo : t -> t -> t := SFdiv prec emax.
Definition eqb : t -> t -> bool := SFeqb.
Definition ltb : t -> t -> bool := SFltb.

(** [float64(n)] for an [int] n: the nearest double, ties to even. *)
Definition of_int (n : Z) : t := binary_normalize prec emax n 0 false.

(** The constants [1.0] and [10.0]. *)
Definition one : t := S754_finite false 4503599627370496 (-52).
Definition ten : t := S754_finite false 5629499534213120 (-49).

Definition is_nan (x : t) : bool :=
  match x with S754_nan => true | _ => false end.

Definition is_inf (x : t) (sign : bool) : bool :=
  match x with S754_infinity s => Bool.eqb s sign | _ => false end.

Definition signbit (x : t) : bool :=
  match x with
  | S754_zero s | S754_infinity s | S754_finite s _ _ => s
  | S754_nan => false
  end.

Definition is_finite (x : t) : bool :=
  match x with S754_zero _ | S754_finite _ _ _ => true | _ => false end.

(** The mantissa m followed by k zero bits. *)
Definition shl (m : positive) (k : Z) : positive :=
  match k with Zpos k' => Pos.iter xO m k' | _ => m end.

(** The sign of x is s; a NaN carries none. *)
Definition has_sign (s : bool) (x : t) : Prop :=
  match x with
  | S754_zero s' | S754_infinity s' | S754_finite s' _ _ => s' = s
  | S754_nan => True
  end.

(** The signed integer mantissa of a finite double. *)
Definition signed (s : bool) (m : positive) : Z := cond_Zopp s (Zpos m).

(** [int(x)] for a [float64] x: the fraction is discarded (truncation toward
    zero).  When the value does not fit an [int] (or is an infinity or a
    NaN) the conversion still succeeds, and the language leaves the result
    to the implementation: [indefinite] stands for that choice. *)
Definition trunc (x : t) : option Z :=
  match x with
  | S754_zero _ => Some 0
  | S754_finite s m e =>
      Some (if 0 <=? e then signed s m * 2 ^ e
            else Z.quot (signed s m) (2 ^ (- e)))
  | _ => None
  end.

Definition fits_int (x : t) : bool :=
  match trunc x with
  | Some z => (goint.min_int <=? z) && (z <=? goint.max_int)
  | None => false
  end.

Definition to_int (indefinite : t -> Z) (x : t) : Z :=
  match trunc x with
  | Some z =>
      if (goint.min_int <=? z) && (z <=? goint.max_int) then z
      else goint.wrap (indefinite x)
  | None => goint.wrap (indefinite x)
  end.

End float64.

(** ** Package math *)

Module math.

(** [math.Floor]: the greatest integer value not above x; zeros, infinities
    and NaN are returned unchanged.  A double with a non-negative exponent
    is already an integer; otherwise the mantissa is shifted right, which
    on a signed integer rounds toward minus infinity.  The result has fewer
    than 53 bits, so converting it back is exact. *)
Definition Floor (x : float64.t) : float64.t :=
  match x with
  | S754_finite s m e =>
      if 0 <=? e then x
      else binary_normalize float64.prec float64.emax
             (Z.shiftr (float64.signed s m) (- e)) 0 s
  | _ => x
  end.

(** [math.Ceil(x)] is [-Floor(-x)]. *)
Definition Ceil (x : float64.t) : float64.t := SFopp (Floor (SFopp x)).

(** [math.Min], with its special cases: a negative infinity wins, then a
    NaN, and of two zeros the negative one. *)
Definition Min (x y : float64.t) : float64.t :=
  if float64.is_inf x true || float64.is_inf y true then S754_infinity true
  else if float64.is_nan x || float64.is_nan y then S754_nan
  else if float64.eqb x (S754_zero false) && float64.eqb x y then
    (if float64.signbit x then x else y)
  else if float64.ltb x y then x else y.

End math.

(** ** Package image/color *)

Module color.

(** A [color.Color], as seen through its only method [RGBA()]:
    alpha-premultiplied channels of 16 bits each. *)
Record Color := { r : Z; g : Z; b : Z; a : Z }.

(** [color.RGBA]: alpha-premultiplied channels of 8 bits each. *)
Record RGBA := { R : Z; G : Z; B : Z; A : Z }.

(** The zero value [color.RGBA{}] is fully transparent. *)
Definition zero : RGBA := {| R := 0; G := 0; B := 0; A := 0 |}.

(** [RGBA.RGBA()] widens every channel v to v | v<<8. *)
Definition of_RGBA (c : RGBA) : Color :=
  {| r := R c * 257; g := G c * 257; b := B c * 257; a := A c * 257 |}.

End color.

(** ** Package image *)

Module image.

Record Point := { X : Z; Y : Z }.
Record Rectangle := { Min : Point; Max : Point }.

Definition ZP : Point := {| X := 0; Y := 0 |}.

(** [image.Rect] orders its corners. *)
Definition Rect (x0 y0 x1 y1 : Z) : Rectangle :=
  let '(x0, x1) := if x1 <? x0 then (x1, x0) else (x0, x1) in
  let '(y0, y1) := if y1 <? y0 then (y1, y0) else (y0, y1) in
  {| Min := {| X := x0; Y := y0 |}; Max := {| X := x1; Y := y1 |} |}.

(** [Point.In]: the minimum is inclusive, the maximum exclusive. *)
Definition In (x y : Z) (rc : Rectangle) : bool :=
  (X (Min rc) <=? x) && (x <? X (Max rc)) &&
  (Y (Min rc) <=? y) && (y <? Y (Max rc)).

(** The interface [image.Image]. *)
Record Image := { Bounds : Rectangle; At : Z -> Z -> color.Color }.

Record Config := { Width : Z; Height : Z }.

(** [image.RGBA]: a rectangle of [color.RGBA] pixels.  Values of this type
    are the contents of a canvas; the canvas itself is a pointer to one. *)
Record RGBA := { Pix : Z -> Z -> color.RGBA; RGBA_Rect : Rectangle }.

(** The pixels of a fresh [image.NewRGBA(r)] are all zero. *)
Definition blank (rc : Rectangle) : RGBA :=
  {| Pix := fun _ _ => color.zero; RGBA_Rect := rc |}.

(** An [*image.RGBA] used as an [image.Image]: [At] outside the rectangle
    is the zero colour. *)
Definition RGBA_Image (c : RGBA) : Image :=
  {| Bounds := RGBA_Rect c;
     At := fun x y =>
       color.of_RGBA (if In x y (RGBA_Rect c) then Pix c x y else color.zero) |}.

End image.

(** ** Package image/draw *)

Module draw.

(** One channel of the [Over] operator without a mask, in the [uint32]
    arithmetic of the generic path into an [*image.RGBA]:
    [a := (m - sa*ma/m) * 0x101] and [uint8((d*a + s*ma) / m >> 8)] with
    [ma = m = 0xffff]. *)
Definition over_channel (d s sa : Z) : Z :=
  let m := 65535 in
  let a := goint.to_uint32
             (goint.to_uint32 (m - goint.to_uint32 (sa * m) / m) * 257) in
  goint.to_uint8
    (Z.shiftr
       (goint.to_uint32 (goint.to_uint32 (d * a) + goint.to_uint32 (s * m)) / m)
       8).

Definition over (d : color.RGBA) (s : color.Color) : color.RGBA :=
  {| color.R := over_channel (color.R d) (color.r s) (color.a s);
     color.G := over_channel (color.G d) (color.g s) (color.a s);
     color.B := over_channel (color.B d) (color.b s) (color.a s);
     color.A := over_channel (color.A d) (color.a s) (color.a s) |}.

(** [draw.Draw(dst, r, src, sp, draw.Over)]: r is clipped to the bounds of
    dst and to those of src moved so that sp lands on [r.Min]; every pixel
    left in r is composed with the source pixel that lands on it.  The
    result is the new content of dst. *)
Definition Draw (dst : image.RGBA) (rc : image.Rectangle) (src : image.Image)
    (sp : image.Point) : image.RGBA :=
  {| image.Pix := fun x y =>
       let sx := image.X sp + (x - image.X (image.Min rc)) in
       let sy := image.Y sp + (y - image.Y (image.Min rc)) in
       if image.In x y rc && image.In x y (image.RGBA_Rect dst)
          && image.In sx sy (image.Bounds src)
       then over (image.Pix dst x y) (image.At src sx sy)
       else image.Pix dst x y;
     image.RGBA_Rect := image.RGBA_Rect dst |}.

End draw.

(** ** Package image/gif *)

Module gif.

Definition DisposalNone : Z := 1.
Definition DisposalBackground : Z := 2.
Definition DisposalPrevious : Z := 3.

(** [gif.GIF], as far as [Init] reads it. *)
Record GIF := {
  Image : list image.Image;
  Delay : list Z;
  Disposal : list Z;
  Config : image.Config
}.

End gif.

(** ** Results, panics and the state monad *)

Definition error := string.

(** What a call yields: a value, an error returned to the caller, or a
    run-time panic. *)
Inductive outcome (A : Type) : Type :=
| Ok (x : A)
| Err (e : error)
| Panic (msg : string).

Arguments Ok {A} x.
Arguments Err {A} e.
Arguments Panic {A} msg.

Definition M (S A : Type) : Type := S -> S * outcome A.

Definition ret {S A} (x : A) : M S A := fun s => (s, Ok x).

Definition bind {S A B} (c : M S A) (k : A -> M S B) : M S B :=
  fun s =>
    match c s with
    | (s', Ok x) => k x s'
    | (s', Err e) => (s', Err e)
    | (s', Panic msg) => (s', Panic msg)
    end.

Definition lift {S A} (o : outcome A) : M S A := fun s => (s, o).
Definition get {S} : M S S := fun s => (s, Ok s).
Definition modify {S} (f : S -> S) : M S unit := fun s => (f s, Ok tt).

Declare Scope go_scope.
Delimit Scope go_scope with go.
Notation "x <- c ;; k" := (bind c (fun x => k))
  (at level 100, c at next level, right associativity) : go_scope.
Notation "c ;; k" := (bind c (fun _ => k))
  (at level 100, right associativity) : go_scope.
Open Scope go_scope.

(** A [for] loop over a slice or a range: an error or a panic leaves it. *)
Fixpoint for_each {S A} (l : list A) (body : A -> M S unit) : M S unit :=
  match l with
  | [] => ret tt
  | x :: rest => body x ;; for_each rest body
  end.

(** Indexing a slice panics out of range. *)
Definition index {A} (l : list A) (i : Z) : outcome A :=
  if i <? 0 then Panic "index out of range"
  else match l !! Z.to_nat i with
       | Some x => Ok x
       | None => Panic "index out of range"
       end.

(** ** The world outside the file

    Everything [Init] obtains from outside [viz/image.go]: the file system,
    the decoders, the terminal query run by [util.RunCommand], the
    [strconv], [resize] and palette collaborators, and the platform's
    choice for an out-of-range [int(float64)] conversion. *)

Record Env := {
  (** [os.Open(name)] at the n-th call: [None] when the file opens. *)
  open_error : string -> nat -> option error;
  (** [image.Decode] of the file's content: the first picture and the name
      of the format. *)
  image_Decode : string -> outcome (image.Image * string);
  (** [gif.DecodeAll] of the file's content. *)
  gif_DecodeAll : string -> outcome gif.GIF;
  (** [util.RunCommand(stdout, "tput", cmd)]: its error, and the lines
      collected in [stdout.Output]. *)
  RunCommand : string -> string -> option error * list string;
  (** [strconv.Atoi]. *)
  Atoi : string -> outcome Z;
  (** [resize.Resize(width, height, img, resize.Lanczos3)]. *)
  Resize : Z -> Z -> image.Image -> image.Image;
  (** [Colors.Index]: the palette index nearest to a colour. *)
  Colors_Index : color.Color -> Z;
  (** The result of [int(x)] when x does not fit. *)
  indefinite : float64.t -> Z
}.

(** ** Package os: open files *)

Module os.

Record File := { fd : nat; name : string }.

(** The handles that are open, and how many calls to [Open] were made. *)
Record World := { open_files : list nat; opens : nat }.

Definition Open (env : Env) (nm : string) : M World File :=
  fun wd =>
    match open_error env nm (opens wd) with
    | Some e => ({| open_files := open_files wd; opens := S (opens wd) |}, Err e)
    | None =>
        ({| open_files := opens wd :: open_files wd; opens := S (opens wd) |},
         Ok {| fd := opens wd; name := nm |})
    end.

(** [file.Close()]; its error is not looked at by the caller. *)
Definition Close (f : File) : M World unit :=
  modify (fun wd =>
    {| open_files := filter (fun d => d ≠ fd f) (open_files wd);
       opens := opens wd |}).

End os.

(** ** Package viz *)

Module viz.

Record frame := { picture : list (list Z); delay : Z }.

(** The struct [Image]. *)
Record Image := {
  Filename : string;
  ExportFilename : string;
  LoopCount : Z;
  DelayMultiplier : float64.t;
  UserWidth : Z;
  frames : list frame;
  h : Z;
  w : Z
}.

Definition set_LoopCount (n : Z) (im : Image) : Image :=
  {| Filename := Filename im; ExportFilename := ExportFilename im;
     LoopCount := n; DelayMultiplier := DelayMultiplier im;
     UserWidth := UserWidth im; frames := frames im; h := h im; w := w im |}.

Definition set_frames (fs : list frame) (im : Image) : Image :=
  {| Filename := Filename im; ExportFilename := ExportFilename im;
     LoopCount := LoopCount im; DelayMultiplier := DelayMultiplier im;
     UserWidth := UserWidth im; frames := fs; h := h im; w := w im |}.

Definition set_h (n : Z) (im : Image) : Image :=
  {| Filename := Filename im; ExportFilename := ExportFilename im;
     LoopCount := LoopCount im; DelayMultiplier := DelayMultiplier im;
     UserWidth := UserWidth im; frames := frames im; h := n; w := w im |}.

Definition set_w (n : Z) (im : Image) : Image :=
  {| Filename := Filename im; ExportFilename := ExportFilename im;
     LoopCount := LoopCount im; DelayMultiplier := DelayMultiplier im;
     UserWidth := UserWidth im; frames := frames im; h := h im; w := n |}.

(** The memory [Init] works on: the receiver [img], the open files, and the
    canvases allocated by [image.NewRGBA], each reached through a pointer.
    Two variables holding the same pointer share one canvas. *)
Record State := {
  img : Image;
  world : os.World;
  heap : gmap nat image.RGBA;
  next : nat
}.

Definition on_img (f : Image -> Image) : M State unit :=
  modify (fun st =>
    {| img := f (img st); world := world st; heap := heap st; next := next st |}).

Definition on_world {A} (c : M os.World A) : M State A :=
  fun st =>
    let '(wd, o) := c (world st) in
    ({| img := img st; world := wd; heap := heap st; next := next st |}, o).

(** [image.NewRGBA(r)] returns a pointer to a fresh blank canvas. *)
Definition NewRGBA (rc : image.Rectangle) : M State nat :=
  fun st =>
    ({| img := img st; world := world st;
        heap := <[next st := image.blank rc]> (heap st);
        next := S (next st) |}, Ok (next st)).

(** Reading through a pointer. *)
Definition load (p : nat) : M State image.RGBA :=
  fun st =>
    match heap st !! p with
    | Some c => (st, Ok c)
    | None => (st, Panic "invalid memory address or nil pointer dereference")
    end.

Definition store (p : nat) (c : image.RGBA) : M State unit :=
  modify (fun st =>
    {| img := img st; world := world st; heap := <[p := c]> (heap st);
       next := next st |}).

Section Init.

Context (env : Env).

(** The closure [tput] of [Init]. *)
Definition tput (cmd : string) : outcome Z :=
  let '(err, Output) := RunCommand env "tput" cmd in
  match err with
  | Some e => Err ("couldn't determine " +:+ cmd +:+ ": " +:+ e)
  | None =>
      match Output with
      | [line] =>
          match Atoi env line with
          | Ok op => Ok op
          | Err e => Err ("couldn't parse " +:+ cmd +:+ ": " +:+ e)
          | Panic msg => Panic msg
          end
      | _ => Err ("unexpected output when determining " +:+ cmd)
      end
  end.

(** Lines 54-63: open the file and decode the first picture.  The file is
    closed on the line after the error check of the decoder. *)
Definition open_image : M State (image.Image * string) :=
  im <- get ;;
  file <- on_world (os.Open env (Filename (img im))) ;;
  decoded <- lift (image_Decode env (os.name file)) ;;
  on_world (os.Close file) ;;
  ret decoded.

(** Lines 69-106: the scale. *)
Definition identify_scale (imgFmt : string) (LoopCount UserWidth iw ih : Z)
    : outcome float64.t :=
  if 0 <? UserWidth then
    Ok (float64.quo (float64.of_int UserWidth) (float64.of_int iw))
  else
    match
      (if negb (String.eqb imgFmt "gif") || (LoopCount =? 0)
       then tput "cols" else Ok 40)
    with
    | Ok tw =>
        match tput "lines" with
        | Ok th =>
            let th := goint.sub (goint.mul th 2) 1 in
            if (tw <? iw) || (th <? ih) then
              let scaleW := float64.quo (float64.of_int tw) (float64.of_int iw) in
              let scaleH := float64.quo (float64.of_int th) (float64.of_int ih) in
              Ok (math.Min scaleW scaleH)
            else Ok float64.one
        | Err e => Err e
        | Panic msg => Panic msg
        end
    | Err e => Err e
    | Panic msg => Panic msg
    end.

(** Lines 108-110: the size on the terminal. *)
Definition resolve_size (scale : float64.t) (iw ih : Z) : M State unit :=
  on_img (set_w (float64.to_int (indefinite env)
                   (math.Floor (float64.mul scale (float64.of_int iw))))) ;;
  on_img (set_h (float64.to_int (indefinite env)
                   (math.Floor (float64.mul scale (float64.of_int ih))))) ;;
  on_img (fun im => set_h (goint.div (h im) 2) im).

(** Lines 115-123: the index buffer, column by column.  [make] panics on a
    negative length. *)
Definition quantize (scaled : image.Image) (w h : Z) : outcome (list (list Z)) :=
  if w <? 0 then Panic "makeslice: len out of range"
  else if (0 <? w) && (h <? 0) then Panic "makeslice: len out of range"
  else
    Ok (map (fun x =>
               map (fun y =>
                      goint.to_uint8 (Colors_Index env (image.At scaled x y)))
                   (seqZ 0 h))
            (seqZ 0 w)).

(** Line 127: the delay kept with a frame, before and after [int(...)]. *)
Definition scaled_delay (delayMS : Z) (multiplier : float64.t) : float64.t :=
  math.Ceil
    (float64.mul (float64.quo (float64.of_int delayMS) float64.ten)
       multiplier).

Definition render_delay (delayMS : Z) (multiplier : float64.t) : Z :=
  float64.to_int (indefinite env) (scaled_delay delayMS multiplier).

(** The closure [appendImg] of [Init]. *)
Definition appendImg (f : image.Image) (delayMS : Z) : M State unit :=
  st <- get ;;
  let im := img st in
  let scaled := Resize env (goint.to_uint (w im)) (goint.to_uint (h im)) f in
  pic <- lift (quantize scaled (w im) (h im)) ;;
  on_img (fun im =>
    set_frames
      (frames im ++
       [ {| picture := pic;
            delay := render_delay delayMS (DelayMultiplier im) |} ])
      im).

(** Lines 148-158: the [switch] on the disposal of the frame just
    captured.  It yields the next values of the variables [canvas] and
    [prev].  [DisposalBackground] falls through into [DisposalNone], and
    [&( *canvas )] is the pointer [canvas] itself. *)
Definition dispose (disposal iw ih : Z) (canvas : nat) (prev : option nat)
    : M State (nat * option nat) :=
  if disposal =? gif.DisposalBackground then
    canvas' <- NewRGBA (image.Rect 0 0 iw ih) ;;
    ret (canvas', Some canvas')
  else if disposal =? gif.DisposalNone then
    ret (canvas, Some canvas)
  else if disposal =? gif.DisposalPrevious then
    match prev with
    | Some p => ret (p, prev)
    | None => ret (canvas, prev)
    end
  else ret (canvas, prev).

(** Lines 145-159: the loop over [g.Image], from frame i on. *)
Fixpoint composite (g : gif.GIF) (iw ih : Z) (rest : list image.Image)
    (i : Z) (canvas : nat) (prev : option nat) : M State unit :=
  match rest with
  | [] => ret tt
  | frame :: rest' =>
      c <- load canvas ;;
      store canvas (draw.Draw c (image.RGBA_Rect c) frame image.ZP) ;;
      d <- lift (index (gif.Delay g) i) ;;
      c <- load canvas ;;
      appendImg (image.RGBA_Image c) (goint.mul d 10) ;;
      disposal <- lift (index (gif.Disposal g) i) ;;
      cp <- dispose disposal iw ih canvas prev ;;
      composite g iw ih rest' (i + 1) (fst cp) (snd cp)
  end.

(** Lines 131-164: the frames. *)
Definition scale_frames (firstFrame : image.Image) (imgFmt : string)
    : M State unit :=
  st <- get ;;
  if String.eqb imgFmt "gif" && (0 <? LoopCount (img st)) then
    file <- on_world (os.Open env (Filename (img st))) ;;
    g <- lift (gif_DecodeAll env (os.name file)) ;;
    let iw := image.Width (gif.Config g) in
    let ih := image.Height (gif.Config g) in
    canvas <- NewRGBA (image.Rect 0 0 iw ih) ;;
    composite g iw ih (gif.Image g) 0 canvas None ;;
    on_world (os.Close file)
  else
    on_img (set_LoopCount 1) ;;
    appendImg firstFrame 0.

(** [func (img *Image) Init() (err error)]. *)
Definition Init : M State unit :=
  decoded <- open_image ;;
  let '(firstFrame, imgFmt) := decoded in
  let iw := image.X (image.Max (image.Bounds firstFrame)) in
  let ih := image.Y (image.Max (image.Bounds firstFrame)) in
  st <- get ;;
  scale <- lift (identify_scale imgFmt (LoopCount (img st))
                   (UserWidth (img st)) iw ih) ;;
  resolve_size scale iw ih ;;
  scale_frames firstFrame imgFmt.

End Init.

(** Modelled from the spec: the interface [Writer] is declared in another
    file of the package.  Draw uses four methods of it, the ones the spec
    lists for the output sink: raw text write, move the cursor up, sleep
    and close, each returning an error or nil.  S is the state of the
    sink. *)
Class Writer (S : Type) := {
  Write : string -> S -> S * option error;
  LineUp : Z -> S -> S * option error;
  Sleep : Z -> S -> S * option error;
  Close : S -> S * option error
}.

Section Draw.

Context {S : Type} `{Writer S}.

(** [if err := op; err != nil { return err }]. *)
Definition checked (op : S -> S * option error) : M S unit :=
  fun s =>
    match op s with
    | (s', Some e) => (s', Err e)
    | (s', None) => (s', Ok tt)
    end.

(** A call whose result is dropped. *)
Definition unchecked (op : S -> S * option error) : M S unit :=
  fun s => (fst (op s), Ok tt).

(** [fmt.Sprintf] of the cell: set the background colour to the palette
    index, print a space, reset. *)
Definition esc : string := String (Ascii.ascii_of_nat 27) "".

Definition cell (idx : Z) : string :=
  esc +:+ "[48;5;" +:+ pretty idx +:+ "m " +:+ esc +:+ "[0m".

Definition newline : string := String (Ascii.ascii_of_nat 10) "".

(** [frame.picture[x][y]]. *)
Definition pixel (fr : frame) (x y : Z) : outcome Z :=
  match index (picture fr) x with
  | Ok column => index column y
  | Err e => Err e
  | Panic msg => Panic msg
  end.

(** Lines 184-192: one frame, row by row. *)
Definition draw_rows (im : Image) (fr : frame) : M S unit :=
  for_each (seqZ 0 (h im)) (fun y =>
    for_each (seqZ 0 (w im)) (fun x =>
      idx <- lift (pixel fr x y) ;;
      unchecked (Write (cell idx))) ;;
    checked (Write newline)).

(** Lines 175-195: one pass over the frames.  The pair carried along is
    [(firstFrameDone, delay)]. *)
Fixpoint pass (im : Image) (fs : list frame) (vars : bool * Z)
    : M S (bool * Z) :=
  match fs with
  | [] => ret vars
  | fr :: rest =>
      (if fst vars then
         checked (LineUp (h im)) ;;
         checked (Sleep (snd vars))
       else ret tt) ;;
      draw_rows im fr ;;
      pass im rest (true, delay fr)
  end.

(** Line 174: [img.LoopCount] passes. *)
Fixpoint passes (im : Image) (n : nat) (vars : bool * Z) : M S (bool * Z) :=
  match n with
  | O => ret vars
  | Datatypes.S n' =>
      vars' <- pass im (frames im) vars ;;
      passes im n' vars'
  end.

(** [func (img *Image) Draw(writer Writer) error]. *)
Definition Draw (im : Image) : M S unit :=
  passes im (Z.to_nat (LoopCount im)) (false, 0) ;;
  checked Close.

End Draw.

(** A fresh [Image] as a caller outside the package builds it: only the
    exported fields are set; no file is open. *)
Definition new_state (im : Image) : State :=
  {| img := im; world := {| os.open_files := []; os.opens := 0 |};
     heap := ∅; next := 0 |}.

End viz.

(** ** A recording sink

    The sink used to observe [Draw]: it logs every call in order, and
    answers with an error exactly on the calls selected by [fails]. *)

Module sink.

Inductive event :=
| EvWrite (text : string)
| EvLineUp (rows : Z)
| EvSleep (units : Z)
| EvClose.

Record t := { fails : event -> bool; log : list event }.

Definition call (ev : event) (s : t) : t * option error :=
  ({| fails := fails s; log := log s ++ [ev] |},
   if fails s ev then Some "sink failure" else None).

#[global] Instance writer : viz.Writer t := {|
  viz.Write text := call (EvWrite text);
  viz.LineUp rows := call (EvLineUp rows);
  viz.Sleep units := call (EvSleep units);
  viz.Close := call EvClose
|}.

(** The sink with the failures [bad] that has logged l. *)
Definition logged (bad : event -> bool) (l : list event) : t :=
  {| fails := bad; log := l |}.

(** A sink on which nothing fails. *)
Definition never : event -> bool := fun _ => false.

Definition reliable : t := logged never [].

(** A sink that rejects every write of a cell and accepts all the rest. *)
Definition cell_writes : event -> bool :=
  fun ev =>
    match ev with
    | EvWrite text => negb (String.eqb text viz.newline)
    | _ => false
    end.

Definition rejects_cells : t := logged cell_writes [].

(** Failures that spare the calls whose error [Draw] looks at. *)
Definition spares_checked (bad : event -> bool) : Prop :=
  bad (EvWrite viz.newline) = false
  /\ (forall rows, bad (EvLineUp rows) = false)
  /\ (forall units, bad (EvSleep units) = false)
  /\ bad EvClose = false.

(** What drawing one frame looks like on the sink: for each row, one write
    per cell, left to right, then the line terminator. *)
Definition drawn (w h : Z) (fr : viz.frame) : list event :=
  flat_map (fun y =>
      map (fun x =>
             EvWrite (viz.cell (default 0 (default [] (viz.picture fr !! Z.to_nat x)
                                             !! Z.to_nat y))))
          (seqZ 0 w)
      ++ [EvWrite viz.newline])
    (seqZ 0 h).

End sink.

(** ** Index buffers of a given size *)

Definition has_size (w h : Z) (pic : list (list Z)) : Prop :=
  Z.of_nat (length pic) = w /\ Forall (fun column => Z.of_nat (length column) = h) pic.

(** ** Stand-ins for the collaborators, used to run the pipeline *)

Module fake.

(** Nearest-neighbour resampling instead of Lanczos. *)
Definition nearest (width height : Z) (src : image.Image) : image.Image :=
  let sw := image.X (image.Max (image.Bounds src)) in
  let sh := image.Y (image.Max (image.Bounds src)) in
  {| image.Bounds := image.Rect 0 0 width height;
     image.At := fun x y => image.At src (x * sw / width) (y * sh / height) |}.

(** The 6x6x6 colour cube of the 256-colour palette. *)
Definition cube (c : color.Color) : Z :=
  16 + 36 * (color.r c * 6 / 65536) + 6 * (color.g c * 6 / 65536)
  + color.b c * 6 / 65536.

(** Decimal digits only. *)
Fixpoint digits (s : string) (acc : Z) : outcome Z :=
  match s with
  | EmptyString => Ok acc
  | String ch rest =>
      let d := Z.of_nat (Ascii.nat_of_ascii ch) - 48 in
      if (0 <=? d) && (d <=? 9) then digits rest (10 * acc + d)
      else Err "invalid syntax"
  end.

Definition decimal (s : string) : outcome Z :=
  match s with
  | EmptyString => Err "invalid syntax"
  | _ => digits s 0
  end.

(** The x86-64 answer for a conversion that does not fit. *)
Definition amd64 (x : float64.t) : Z := goint.min_int.

(** A single-colour picture. *)
Definition solid (width height : Z) (c : color.Color) : image.Image :=
  {| image.Bounds := image.Rect 0 0 width height; image.At := fun _ _ => c |}.

Definition red : color.Color :=
  {| color.r := 65535; color.g := 0; color.b := 0; color.a := 65535 |}.
Definition green : color.Color :=
  {| color.r := 0; color.g := 65535; color.b := 0; color.a := 65535 |}.
Definition clear : color.Color :=
  {| color.r := 0; color.g := 0; color.b := 0; color.a := 0 |}.

(** A terminal of the given size, a file that opens, and the given decoder
    results. *)
Definition env (cols lines : string) (first : outcome (image.Image * string))
    (all : outcome gif.GIF) : Env :=
  {| open_error := fun _ _ => None;
     image_Decode := fun _ => first;
     gif_DecodeAll := fun _ => all;
     RunCommand := fun _ cmd =>
       (None, [if String.eqb cmd "cols" then cols else lines]);
     Atoi := decimal;
     Resize := nearest;
     Colors_Index := cube;
     indefinite := amd64 |}.

Definition image (file : string) (loops : Z) (multiplier : float64.t)
    (width : Z) : viz.Image :=
  {| viz.Filename := file; viz.ExportFilename := ""; viz.LoopCount := loops;
     viz.DelayMultiplier := multiplier; viz.UserWidth := width;
     viz.frames := []; viz.h := 0; viz.w := 0 |}.

Definition no_gif : outcome gif.GIF := Err "gif: can't recognize format".

(** An animation of frames one pixel wide and two high, each of a single
    colour. *)
Definition animation (pictures : list color.Color) (delays disposals : list Z)
    : gif.GIF :=
  {| gif.Image := map (solid 1 2) pictures;
     gif.Delay := delays;
     gif.Disposal := disposals;
     gif.Config := {| image.Width := 1; image.Height := 2 |} |}.

(** A prepared image of two frames, two cells wide and one row high. *)
Definition two_frames : viz.Image :=
  {| viz.Filename := "a.gif"; viz.ExportFilename := ""; viz.LoopCount := 2;
     viz.DelayMultiplier := float64.one; viz.UserWidth := 0;
     viz.frames := [ {| viz.picture := [[196]; [46]]; viz.delay := 7 |};
                     {| viz.picture := [[21]; [16]]; viz.delay := 9 |} ];
     viz.h := 1; viz.w := 2 |}.

(** A prepared image of a single cell. *)
Definition one_cell : viz.Image :=
  {| viz.Filename := "a.png"; viz.ExportFilename := ""; viz.LoopCount := 1;
     viz.DelayMultiplier := float64.one; viz.UserWidth := 0;
     viz.frames := [ {| viz.picture := [[196]]; viz.delay := 0 |} ];
     viz.h := 1; viz.w := 1 |}.

(** A still picture of 100x10 pixels, shown on a terminal of 200 columns
    and 50 lines. *)
Definition still : image.Image := solid 100 10 red.

Definition png_env : Env := env "200" "50" (Ok (still, "png")) no_gif.

Definition png_image : viz.Image := image "a.png" 3 float64.one 0.

(** The same picture as the first frame of a GIF that is played once. *)
Definition gif_env : Env :=
  env "200" "50" (Ok (still, "gif")) (Ok (animation [red] [5] [1])).

Definition gif_image : viz.Image := image "a.gif" 1 float64.one 0.

(** A red frame that is left as it is, a green frame to be undone, and
    an empty third frame; 5 hundredths of a second each. *)
Definition three_frames : gif.GIF :=
  animation [red; green; clear] [5; 5; 5]
    [gif.DisposalNone; gif.DisposalPrevious; gif.DisposalNone].

Definition anim_env : Env :=
  env "200" "50" (Ok (solid 1 2 red, "gif")) (Ok three_frames).

(** The multipliers 0.5 and -1.0. *)
Definition half : float64.t := S754_finite false 4503599627370496 (-53).
Definition minus_one : float64.t := S754_finite true 4503599627370496 (-52).

Definition anim_image (multiplier : float64.t) : viz.Image :=
  image "a.gif" 1 multiplier 0.

(** A red frame disposed of to the background, then an empty frame. *)
Definition two_steps : gif.GIF :=
  animation [red; clear] [5; 5] [gif.DisposalBackground; gif.DisposalNone].

Definition steps_env : Env :=
  env "200" "50" (Ok (solid 1 2 red, "gif")) (Ok two_steps).

(** A PNG of 480x360 pixels, to be shown 123 columns wide. *)
Definition wide_env : Env :=
  env "200" "50" (Ok (solid 480 360 red, "png")) no_gif.

Definition wide_image : viz.Image := image "a.png" 1 float64.one 123.

(** A file that opens and is not an image. *)
Definition broken_env : Env :=
  env "200" "50" (Err "image: unknown format") no_gif.

End fake.

(** ** The exact value of a double

    A finite double is a fraction whose denominator is a power of two.
    The ceilings below are taken in integer arithmetic, on that fraction;
    they do not go through [math.Ceil]. *)

Module exact.

Definition num (x : float64.t) : Z :=
  match x with
  | S754_finite s m e =>
      if 0 <=? e then float64.signed s m * 2 ^ e else float64.signed s m
  | _ => 0
  end.

Definition den (x : float64.t) : Z :=
  match x with
  | S754_finite s m e => if 0 <=? e then 1 else 2 ^ (- e)
  | _ => 1
  end.

(** The least integer not below a/b, for a positive b. *)
Definition ceil_frac (a b : Z) : Z := - ((- a) / b).

(** The least integer not below the finite double x. *)
Definition ceil (x : float64.t) : Z := ceil_frac (num x) (den x).

(** The least integer not below d times the value of m, the product
    taken exactly. *)
Definition ceil_times (d : Z) (m : float64.t) : Z :=
  ceil_frac (d * num m) (den m).

End exact.

(** ** What a sink sees of a playback *)

(** A computation that returns or fails with an error, whatever the state
    it starts in. *)
Definition never_panics {S A} (c : M S A) : Prop :=
  forall s msg, snd (c s) <> Panic msg.

(** A computation that panics with msg, whatever the state it starts
    in; one that returns or panics with msg. *)
Definition panics {S A} (msg : string) (c : M S A) : Prop :=
  forall s, snd (c s) = Panic msg.

Definition ok_or_panics {S} (msg : string) (c : M S unit) : Prop :=
  forall s, snd (c s) = Ok tt \/ snd (c s) = Panic msg.

Module playback.

(** The frames [Draw] goes through: the frame list, once per pass. *)
Definition shown (im : viz.Image) : list viz.frame :=
  concat (replicate (Z.to_nat (viz.LoopCount im)) (viz.frames im)).

(** The calls made for a run of frames: before each frame, once a frame
    was drawn, cursor-up by the height and sleep for the delay of the
    frame before; then the frame. *)
Fixpoint calls (w h : Z) (fs : list viz.frame) (done : bool) (d : Z)
    : list sink.event :=
  match fs with
  | [] => []
  | fr :: rest =>
      (if done then [sink.EvLineUp h; sink.EvSleep d] else [])
      ++ sink.drawn w h fr ++ calls w h rest true (viz.delay fr)
  end.

(** The variables [(firstFrameDone, delay)] after a run of frames. *)
Definition after (fs : list viz.frame) (vars : bool * Z) : bool * Z :=
  fold_left (fun _ fr => (true, viz.delay fr)) fs vars.

(** The calls of a whole [Draw] on which nothing fails. *)
Definition script (im : viz.Image) : list sink.event :=
  calls (viz.w im) (viz.h im) (shown im) false 0 ++ [sink.EvClose].

Definition is_write (ev : sink.event) : bool :=
  match ev with sink.EvWrite _ => true | _ => false end.

Definition is_line_up (ev : sink.event) : bool :=
  match ev with sink.EvLineUp _ => true | _ => false end.

Definition is_sleep (ev : sink.event) : bool :=
  match ev with sink.EvSleep _ => true | _ => false end.

Definition is_close (ev : sink.event) : bool :=
  match ev with sink.EvClose => true | _ => false end.

(** How many calls of a kind a log holds. *)
Definition count (p : sink.event -> bool) (l : list sink.event) : nat :=
  length (List.filter p l).

(** The calls whose error [Draw] looks at: all but the writes of cells. *)
Definition checked_call (ev : sink.event) : bool :=
  match ev with
  | sink.EvWrite text => String.eqb text viz.newline
  | _ => true
  end.

(** A list of calls up to and including the first checked call that
    fails, and whether there is one. *)
Fixpoint cut (bad : sink.event -> bool) (l : list sink.event)
    : list sink.event * bool :=
  match l with
  | [] => ([], false)
  | ev :: rest =>
      if checked_call ev && bad ev then ([ev], true)
      else (ev :: fst (cut bad rest), snd (cut bad rest))
  end.

(** The computation c makes the calls L and returns x, unless a checked
    call fails: then it stops there with the error of the sink. *)
Definition emits {A} (bad : sink.event -> bool) (c : M sink.t A)
    (L : list sink.event) (x : A) : Prop :=
  forall l,
    c (sink.logged bad l)
    = (sink.logged bad (l ++ fst (cut bad L)),
       if snd (cut bad L) then Err "sink failure" else Ok x).

(** A sink on which the sleeps of the given length fail. *)
Definition sleep_fails (units : Z) : sink.event -> bool :=
  fun ev =>
    match ev with
    | sink.EvSleep d => d =? units
    | _ => false
    end.

End playback.

(** ** The stages of [Init] *)

(** A computation that returns or panics, whatever the state it starts
    in. *)
Definition never_errs {S A} (c : M S A) : Prop :=
  forall s e, snd (c s) <> Err e.

Module init.

(** The open files after a call of [os.Open] that fails, after one that
    succeeds, and after the file it opened is closed again. *)
Definition tried (wd : os.World) : os.World :=
  {| os.open_files := os.open_files wd; os.opens := S (os.opens wd) |}.

Definition opened (wd : os.World) : os.World :=
  {| os.open_files := os.opens wd :: os.open_files wd;
     os.opens := S (os.opens wd) |}.

Definition closed (wd : os.World) : os.World :=
  {| os.open_files :=
       filter (fun d => d <> os.opens wd) (os.opens wd :: os.open_files wd);
     os.opens := S (os.opens wd) |}.

(** Every handle that is open was handed out by an earlier [os.Open]. *)
Definition fresh (wd : os.World) : Prop :=
  Forall (fun d => (d < os.opens wd)%nat) (os.open_files wd).

Definition with_world (wd : os.World) (st : viz.State) : viz.State :=
  {| viz.img := viz.img st; viz.world := wd; viz.heap := viz.heap st;
     viz.next := viz.next st |}.

Definition with_img (im : viz.Image) (st : viz.State) : viz.State :=
  {| viz.img := im; viz.world := viz.world st; viz.heap := viz.heap st;
     viz.next := viz.next st |}.

(** The receiver after lines 108-110. *)
Definition resized (env : Env) (scale : float64.t) (iw ih : Z)
    (im : viz.Image) : viz.Image :=
  viz.set_h
    (goint.div
       (float64.to_int (indefinite env)
          (math.Floor (float64.mul scale (float64.of_int ih)))) 2)
    (viz.set_w
       (float64.to_int (indefinite env)
          (math.Floor (float64.mul scale (float64.of_int iw))))
       im).

(** The fields of the receiver that the caller sets. *)
Definition same_settings (a b : viz.Image) : Prop :=
  viz.Filename a = viz.Filename b
  /\ viz.ExportFilename a = viz.ExportFilename b
  /\ viz.DelayMultiplier a = viz.DelayMultiplier b
  /\ viz.UserWidth a = viz.UserWidth b.

(** Another terminal: the same collaborators, but for the command runner
    and the parser of its output. *)
Definition with_terminal (env : Env)
    (run : string -> string -> option error * list string)
    (atoi : string -> outcome Z) : Env :=
  {| open_error := open_error env;
     image_Decode := image_Decode env;
     gif_DecodeAll := gif_DecodeAll env;
     RunCommand := run;
     Atoi := atoi;
     Resize := Resize env;
     Colors_Index := Colors_Index env;
     indefinite := indefinite env |}.

End init.

(** ** The canvas of an animation, without pointers *)

Module compositor.

(** The content of the canvas when each picture of an animation is
    captured, starting from the content c: every picture is drawn over
    what is there; after a picture with disposal [DisposalBackground] the
    canvas is a blank one of the rectangle rc, after any other it stays
    as it is. *)
Fixpoint rasters (rc : image.Rectangle) (c : image.RGBA)
    (pictures : list image.Image) (disposals : list Z) : list image.RGBA :=
  match pictures with
  | [] => []
  | picture :: rest =>
      let c' := draw.Draw c (image.RGBA_Rect c) picture image.ZP in
      c' :: rasters rc
              (if hd 0 disposals =? gif.DisposalBackground
               then image.blank rc else c')
              rest (tl disposals)
  end.

End compositor.

(** ** Palette indices *)

(** A frame whose indices all fit a byte. *)
Definition bytes (fr : viz.frame) : Prop :=
  Forall (Forall (fun idx => 0 <= idx < 256)) (viz.picture fr).

(** ** More stand-ins *)

Module scene.

(** A still picture prepared with the multiplier +Inf. *)
Definition infinite_multiplier : viz.Image :=
  fake.image "a.png" 3 (S754_infinity false) 0.

(** The multiplier 0.1: the double nearest to one tenth, which is just
    above it. *)
Definition tenth : float64.t := S754_finite false 7205759403792794 (-56).

(** An animation of one picture that lasts 10 hundredths of a second. *)
Definition ten_hundredths : gif.GIF :=
  fake.animation [fake.red] [10] [gif.DisposalNone].

Definition tenth_env : Env :=
  fake.env "200" "50" (Ok (fake.solid 1 2 fake.red, "gif")) (Ok ten_hundredths).

(** A terminal that answers the query for its width with a word. *)
Definition wordy_env : Env :=
  fake.env "wide" "50" (Ok (fake.still, "png")) fake.no_gif.

(** A GIF whose first picture decodes and whose animation does not. *)
Definition half_gif_env : Env :=
  fake.env "200" "50" (Ok (fake.still, "gif")) fake.no_gif.

(** No terminal at all. *)
Definition no_terminal : string -> string -> option error * list string :=
  fun _ _ => (Some "no terminal", []).

Definition no_columns (env : Env)
    : string -> string -> option error * list string :=
  fun prog cmd =>
    if String.eqb cmd "cols" then (Some "no terminal", [])
    else RunCommand env prog cmd.

(** The caller asks for another width between two calls of [Init]. *)
Definition widen (width : Z) (st : viz.State) : viz.State :=
  {| viz.img :=
       {| viz.Filename := viz.Filename (viz.img st);
          viz.ExportFilename := viz.ExportFilename (viz.img st);
          viz.LoopCount := viz.LoopCount (viz.img st);
          viz.DelayMultiplier := viz.DelayMultiplier (viz.img st);
          viz.UserWidth := width;
          viz.frames := viz.frames (viz.img st);
          viz.h := viz.h (viz.img st);
          viz.w := viz.w (viz.img st) |};
     viz.world := viz.world st; viz.heap := viz.heap st;
     viz.next := viz.next st |}.

(** The 480x360 picture prepared 40 columns wide and then 80. *)
Definition narrow_then_wide : viz.Image :=
  viz.img
    (fst (viz.Init fake.wide_env
            (widen 80
               (fst (viz.Init fake.wide_env
                       (viz.new_state (fake.image "a.png" 1 float64.one 40))))))).

End scene.

(** * Properties *)

(** ** Exact cases of the rounding of float64 *)

Module round.

(** The mantissa m shifted left by k bits. *)
Lemma digits_iter_xO (m : positive) (k : positive) :
  digits2_pos (Pos.iter xO m k) = (digits2_pos m + k)%positive.
Proof.
  induction k as [|k IH] using Pos.peano_ind.
  - simpl. lia.
  - rewrite Pos.iter_succ. simpl. rewrite IH. lia.
Qed.

Lemma Zpos_iter_xO (m k : positive) :
  Zpos (Pos.iter xO m k) = Zpos m * 2 ^ Zpos k.
Proof.
  induction k as [|k IH] using Pos.peano_ind.
  - simpl. lia.
  - rewrite Pos.iter_succ, Pos2Z.inj_xO, IH, Pos2Z.inj_succ, Z.pow_succ_r by lia.
    lia.
Qed.

Lemma iter_pos_iter {A} (f : A -> A) (k : positive) (x : A) :
  SpecFloat.iter_pos f k x = Pos.iter f x k.
Proof.
  revert x. induction k as [k IH|k IH|]; intros x; simpl.
  - rewrite !IH. now rewrite !Pos.iter_swap.
  - now rewrite !IH.
  - reflexivity.
Qed.

Lemma iter_pos_succ {A} (f : A -> A) (k : positive) (x : A) :
  SpecFloat.iter_pos f (Pos.succ k) x = SpecFloat.iter_pos f k (f x).
Proof. now rewrite !iter_pos_iter, Pos.iter_succ, Pos.iter_swap. Qed.

(** Shifting out k zero bits loses nothing. *)
Lemma shr_zero_bits (m k : positive) :
  SpecFloat.iter_pos shr_1 k
    {| shr_m := Zpos (Pos.iter xO m k); shr_r := false; shr_s := false |}
  = {| shr_m := Zpos m; shr_r := false; shr_s := false |}.
Proof.
  induction k as [|k IH] using Pos.peano_ind.
  - reflexivity.
  - rewrite iter_pos_succ, Pos.iter_succ. simpl. exact IH.
Qed.

(** A mantissa of 53 significant bits followed by k zero bits rounds to
    itself. *)
Lemma binary_round_aux_exact (s : bool) (m : positive) (k : Z) (e : Z) :
  Zpos (digits2_pos m) = 53 ->
  0 <= k ->
  -1074 <= e + k <= 971 ->
  binary_round_aux float64.prec float64.emax s
    (Zpos (float64.shl m k)) e loc_Exact
  = S754_finite s m (e + k).
Proof.
  intros Hd Hk He.
  assert (shr_fexp float64.prec float64.emax
            (Zpos (float64.shl m k)) e loc_Exact
          = ({| shr_m := Zpos m; shr_r := false; shr_s := false |}, e + k)) as H1.
  { unfold shr_fexp, fexp, emin, float64.prec, float64.emax, float64.shl.
    cbn [shr_record_of_loc Zdigits2].
    destruct k as [|k'|k']; [| |lia].
    - replace (Z.max _ _ - e) with 0 by lia. cbn [shr]. f_equal. lia.
    - rewrite digits_iter_xO.
      replace (Z.max _ _ - e) with (Zpos k') by lia.
      cbn [shr]. now rewrite shr_zero_bits. }
  assert (shr_fexp float64.prec float64.emax (Zpos m) (e + k) loc_Exact
          = ({| shr_m := Zpos m; shr_r := false; shr_s := false |}, e + k)) as H2.
  { unfold shr_fexp, fexp, emin, float64.prec, float64.emax. cbn [shr_record_of_loc Zdigits2].
    replace (Z.max _ _ - (e + k)) with 0 by lia. reflexivity. }
  unfold binary_round_aux. rewrite H1. cbn [shr_m loc_of_shr_record round_nearest_even].
  rewrite H2. cbn [shr_m].
  unfold float64.emax, float64.prec.
  destruct (Z.leb_spec (e + k) (1024 - 53)); [reflexivity | lia].
Qed.

Lemma Zpos_shl (m : positive) (k : Z) :
  0 <= k -> Zpos (float64.shl m k) = Zpos m * 2 ^ k.
Proof.
  intros Hk. destruct k as [|k'|k']; [simpl; lia| |lia].
  apply Zpos_iter_xO.
Qed.

Lemma digits_shl (m : positive) (k : Z) :
  0 <= k -> Zpos (digits2_pos (float64.shl m k)) = Zpos (digits2_pos m) + k.
Proof.
  intros Hk. destruct k as [|k'|k']; [simpl; lia| |lia].
  unfold float64.shl. rewrite digits_iter_xO. lia.
Qed.

(** A positive number of d digits lies in [2^(d-1), 2^d). *)
Lemma digits_bounds (p : positive) :
  2 ^ (Zpos (digits2_pos p) - 1) <= Zpos p < 2 ^ Zpos (digits2_pos p).
Proof.
  induction p as [p IH|p IH|]; cbn [digits2_pos].
  - rewrite Pos2Z.inj_succ, (Pos2Z.inj_xI p).
    replace (Z.succ (Zpos (digits2_pos p)) - 1) with (Z.succ (Zpos (digits2_pos p) - 1)) by lia.
    rewrite !Z.pow_succ_r by lia. lia.
  - rewrite Pos2Z.inj_succ, (Pos2Z.inj_xO p).
    replace (Z.succ (Zpos (digits2_pos p)) - 1) with (Z.succ (Zpos (digits2_pos p) - 1)) by lia.
    rewrite !Z.pow_succ_r by lia. lia.
  - simpl. lia.
Qed.

Lemma digits_unique (p : positive) (d : Z) :
  2 ^ (d - 1) <= Zpos p < 2 ^ d -> Zpos (digits2_pos p) = d.
Proof.
  intros [Hlo Hhi]. pose proof (digits_bounds p) as [Hlo' Hhi'].
  assert (0 < d) as Hd.
  { destruct (Z.ltb_spec 0 d) as [|Hle]; [assumption|].
    assert (2 ^ d <= 2 ^ 0) by (apply Z.pow_le_mono_r; lia). simpl in *. lia. }
  destruct (Z.lt_trichotomy (Zpos (digits2_pos p)) d) as [Hlt|[Heq|Hgt]];
    [exfalso|assumption|exfalso].
  - assert (2 ^ Zpos (digits2_pos p) <= 2 ^ (d - 1)) by (apply Z.pow_le_mono_r; lia).
    lia.
  - assert (2 ^ d <= 2 ^ (Zpos (digits2_pos p) - 1)) by (apply Z.pow_le_mono_r; lia).
    lia.
Qed.

Lemma digits_le_53 (p : positive) : Zpos p < 2 ^ 53 -> Zpos (digits2_pos p) <= 53.
Proof.
  intros Hp. pose proof (digits_bounds p) as [Hlo _].
  destruct (Z.leb_spec (Zpos (digits2_pos p)) 53) as [|Hgt]; [assumption|exfalso].
  assert (2 ^ 53 <= 2 ^ (Zpos (digits2_pos p) - 1)) by (apply Z.pow_le_mono_r; lia).
  lia.
Qed.

(** [float64(n)] is exact for a positive n below 2^53: the mantissa is n
    shifted up to 53 bits. *)
Lemma of_int_pos (p : positive) :
  Zpos p < 2 ^ 53 ->
  float64.of_int (Zpos p)
  = S754_finite false (float64.shl p (53 - Zpos (digits2_pos p)))
      (Zpos (digits2_pos p) - 53).
Proof.
  intros Hp. pose proof (digits_le_53 p Hp) as Hd.
  unfold float64.of_int, binary_normalize, binary_round.
  unfold shl_align, fexp, emin, float64.prec, float64.emax.
  replace (Z.max (Zpos (digits2_pos p) + 0 - 53) (3 - 1024 - 53))
    with (Zpos (digits2_pos p) - 53) by lia.
  destruct (Zpos (digits2_pos p) - 53 - 0) as [|q|q] eqn:Hq; [|lia|].
  - replace (53 - Zpos (digits2_pos p)) with 0 by lia.
    replace (Zpos (digits2_pos p) - 53) with 0 by lia.
    change (S754_finite false (float64.shl p 0) 0) with (S754_finite false p (0 + 0)).
    apply (binary_round_aux_exact false p 0 0); lia.
  - replace (53 - Zpos (digits2_pos p)) with (Zpos q) by lia.
    change (Pos.iter xO p q) with (float64.shl p (Zpos q)).
    replace (Zpos (digits2_pos p) - 53) with (Zpos (digits2_pos p) - 53 + 0) at 2 by lia.
    apply (binary_round_aux_exact false (float64.shl p (Zpos q)) 0); [|lia|lia].
    rewrite digits_shl; lia.
Qed.

(** Multiplying a normal double by 1.0 returns it. *)
Lemma mul_one_normal (s : bool) (m : positive) (e : Z) :
  Zpos (digits2_pos m) = 53 ->
  -1074 <= e <= 971 ->
  float64.mul float64.one (S754_finite s m e) = S754_finite s m e.
Proof.
  intros Hd He. unfold float64.mul, float64.one, SFmul.
  change (xorb false s) with s.
  change (Pos.mul 4503599627370496 m) with (float64.shl m 52).
  replace e with (-52 + e + 52) at 2 by lia.
  apply binary_round_aux_exact; lia.
Qed.

Lemma mul_one_of_int (n : Z) :
  0 <= n < 2 ^ 53 ->
  float64.mul float64.one (float64.of_int n) = float64.of_int n.
Proof.
  intros Hn. destruct n as [|p|p]; [reflexivity| |lia].
  rewrite of_int_pos by lia.
  pose proof (digits_le_53 p ltac:(lia)) as Hd.
  pose proof (Pos2Z.is_pos (digits2_pos p)) as Hd0.
  apply mul_one_normal; [|lia].
  rewrite digits_shl; lia.
Qed.

(** An integer below 2^53 survives [math.Floor] and the way back to int. *)
Lemma Floor_of_int (n : Z) :
  0 <= n < 2 ^ 53 -> math.Floor (float64.of_int n) = float64.of_int n.
Proof.
  intros Hn. destruct n as [|p|p]; [reflexivity| |lia].
  rewrite of_int_pos by lia.
  pose proof (digits_le_53 p ltac:(lia)) as Hd.
  unfold math.Floor.
  destruct (Z.leb_spec 0 (Zpos (digits2_pos p) - 53)) as [|Hneg]; [reflexivity|].
  unfold float64.signed, cond_Zopp.
  rewrite Zpos_shl, Z.shiftr_div_pow2 by lia.
  replace (- (Zpos (digits2_pos p) - 53)) with (53 - Zpos (digits2_pos p)) by lia.
  rewrite Z.div_mul by (apply Z.pow_nonzero; lia).
  fold (float64.of_int (Zpos p)). now rewrite of_int_pos by lia.
Qed.

Lemma to_int_of_int (indefinite : float64.t -> Z) (n : Z) :
  0 <= n < 2 ^ 53 -> float64.to_int indefinite (float64.of_int n) = n.
Proof.
  intros Hn. destruct n as [|p|p]; [reflexivity| |lia].
  rewrite of_int_pos by lia.
  pose proof (digits_le_53 p ltac:(lia)) as Hd.
  unfold float64.to_int, float64.trunc, float64.signed, cond_Zopp.
  assert ((if 0 <=? Zpos (digits2_pos p) - 53
           then Zpos (float64.shl p (53 - Zpos (digits2_pos p)))
                * 2 ^ (Zpos (digits2_pos p) - 53)
           else Z.quot (Zpos (float64.shl p (53 - Zpos (digits2_pos p))))
                  (2 ^ (- (Zpos (digits2_pos p) - 53)))) = Zpos p) as ->.
  { destruct (Z.leb_spec 0 (Zpos (digits2_pos p) - 53)) as [Hge|Hneg].
    - replace (Zpos (digits2_pos p) - 53) with 0 by lia.
      replace (53 - Zpos (digits2_pos p)) with 0 by lia. simpl. lia.
    - rewrite Zpos_shl by lia.
      replace (- (Zpos (digits2_pos p) - 53)) with (53 - Zpos (digits2_pos p)) by lia.
      apply Z.quot_mul. apply Z.pow_nonzero; lia. }
  unfold goint.min_int, goint.max_int.
  destruct (Z.leb_spec (- 2 ^ 63) (Zpos p)); [|lia].
  destruct (Z.leb_spec (Zpos p) (2 ^ 63 - 1)); [reflexivity|lia].
Qed.

Lemma shl_shl (m : positive) (j k : Z) :
  0 <= j -> 0 <= k -> float64.shl (float64.shl m j) k = float64.shl m (j + k).
Proof.
  intros Hj Hk. apply Pos2Z.inj.
  rewrite !Zpos_shl, Z.pow_add_r by lia. lia.
Qed.

(** Ten times p has three or four digits more than p. *)
Lemma digits_times_ten (p : positive) :
  Zpos (digits2_pos (10 * p)) = Zpos (digits2_pos p) + 3
  \/ Zpos (digits2_pos (10 * p)) = Zpos (digits2_pos p) + 4.
Proof.
  pose proof (digits_bounds p) as [Hlo Hhi].
  pose proof (Pos2Z.is_pos (digits2_pos p)) as Hd.
  set (d := Zpos (digits2_pos p)) in *.
  assert (2 ^ d = 2 * 2 ^ (d - 1)) as E1.
  { replace d with (Z.succ (d - 1)) at 1 by lia. apply Z.pow_succ_r. lia. }
  assert (2 ^ (d + 3) = 8 * 2 ^ d) as E3 by (rewrite Z.pow_add_r by lia; lia).
  assert (2 ^ (d + 4) = 16 * 2 ^ d) as E4 by (rewrite Z.pow_add_r by lia; lia).
  destruct (Z.ltb_spec (Zpos (10 * p)) (2 ^ (d + 3))) as [Hlt|Hge].
  - left. apply digits_unique.
    replace (d + 3 - 1) with (d + 2) by lia.
    assert (2 ^ (d + 2) = 4 * 2 ^ d) as E2 by (rewrite Z.pow_add_r by lia; lia).
    lia.
  - right. apply digits_unique.
    replace (d + 4 - 1) with (d + 3) by lia. lia.
Qed.

(** Dividing ten times n by 10.0 gives n back, exactly. *)
Lemma quo_ten (n : Z) :
  0 <= n -> 10 * n < 2 ^ 53 ->
  float64.quo (float64.of_int (10 * n)) float64.ten = float64.of_int n.
Proof.
  intros Hn Hbound. destruct n as [|p|p]; [reflexivity| |lia].
  change (10 * Zpos p) with (Zpos (10 * p)) in *.
  rewrite !of_int_pos by lia.
  pose proof (digits_le_53 (10 * p) Hbound) as Hdq.
  pose proof (digits_times_ten p) as Hten.
  pose proof (Pos2Z.is_pos (digits2_pos p)) as Hdp.
  set (dq := Zpos (digits2_pos (10 * p))) in *.
  set (dp := Zpos (digits2_pos p)) in *.
  unfold float64.quo, float64.ten, SFdiv.
  assert (SFdiv_core_binary float64.prec float64.emax
            (Zpos (float64.shl (10 * p) (53 - dq))) (dq - 53)
            5629499534213120 (-49)
          = (Zpos (float64.shl (float64.shl p (53 - dp)) (4 + dp - dq)),
             dq - 53 - 4, loc_Exact)) as ->.
  { unfold SFdiv_core_binary, fexp, emin, float64.prec, float64.emax.
    cbn [Zdigits2]. rewrite digits_shl by lia. fold dq.
    change (Zpos (digits2_pos 5629499534213120)) with 53.
    replace (Z.min _ _) with (dq - 53 - 4) by lia.
    replace (dq - 53 - -49 - (dq - 53 - 4)) with 53 by lia.
    rewrite Z.shiftl_mul_pow2 by lia.
    rewrite shl_shl, !Zpos_shl by lia.
    replace (53 - dp + (4 + dp - dq)) with (57 - dq) by lia.
    assert (Zpos (10 * p) * 2 ^ (53 - dq) * 2 ^ 53
            = Zpos p * 2 ^ (57 - dq) * 5629499534213120) as ->.
    { replace (2 ^ 53) with (2 ^ 50 * 8) by reflexivity.
      replace (57 - dq) with (53 - dq + 4) by lia.
      rewrite Z.pow_add_r by lia.
      change (Zpos (10 * p)) with (10 * Zpos p). lia. }
    rewrite (surjective_pairing (Z.div_eucl _ _)).
    change (fst (Z.div_eucl ?a ?b)) with (a / b).
    change (snd (Z.div_eucl ?a ?b)) with (a mod b).
    rewrite Z.div_mul, Z.mod_mul by lia. reflexivity. }
  change (xorb false false) with false.
  replace (dp - 53) with (dq - 53 - 4 + (4 + dp - dq)) by lia.
  apply binary_round_aux_exact; [|lia|lia].
  rewrite digits_shl by lia. fold dp. lia.
Qed.

End round.

(** ** Signs *)

Module sign.

Lemma binary_round_aux_sign (s : bool) (m e : Z) (l : location) :
  float64.has_sign s (binary_round_aux float64.prec float64.emax s m e l).
Proof.
  unfold binary_round_aux.
  destruct (shr_fexp _ _ m e l) as [mrs' e'].
  destruct (shr_fexp _ _ _ e' loc_Exact) as [mrs'' e''].
  destruct (shr_m mrs''); [reflexivity| |exact I].
  destruct (e'' <=? float64.emax - float64.prec); reflexivity.
Qed.

Lemma binary_round_sign (s : bool) (m : positive) (e : Z) :
  float64.has_sign s (binary_round float64.prec float64.emax s m e).
Proof.
  unfold binary_round. destruct (shl_align _ _ _) as [mz ez].
  apply binary_round_aux_sign.
Qed.

Lemma of_int_sign (n : Z) : 0 <= n -> float64.has_sign false (float64.of_int n).
Proof.
  intros Hn. destruct n as [|p|p]; [reflexivity| |lia].
  apply binary_round_sign.
Qed.

Lemma quo_sign (sx sy : bool) (x y : float64.t) :
  float64.has_sign sx x -> float64.has_sign sy y ->
  float64.has_sign (xorb sx sy) (float64.quo x y).
Proof.
  destruct x as [s1|s1| |s1 m1 e1], y as [s2|s2| |s2 m2 e2]; cbn;
    intros Hx Hy; subst; try reflexivity; try exact I.
  destruct (SFdiv_core_binary _ _ _ _ _ _) as [[mz ez] lz].
  apply binary_round_aux_sign.
Qed.

Lemma mul_sign (sx sy : bool) (x y : float64.t) :
  float64.has_sign sx x -> float64.has_sign sy y ->
  float64.has_sign (xorb sx sy) (float64.mul x y).
Proof.
  destruct x as [s1|s1| |s1 m1 e1], y as [s2|s2| |s2 m2 e2]; cbn;
    intros Hx Hy; subst; try reflexivity; try exact I.
  apply binary_round_aux_sign.
Qed.

Lemma opp_sign (s : bool) (x : float64.t) :
  float64.has_sign s x -> float64.has_sign (negb s) (SFopp x).
Proof. destruct x; cbn; intros Hx; subst; reflexivity || exact I. Qed.

(** [math.Floor] of a negative value is negative, and so [math.Ceil] of a
    value that is not negative is not negative. *)
Lemma Floor_negative (x : float64.t) :
  float64.has_sign true x -> float64.has_sign true (math.Floor x).
Proof.
  destruct x as [s|s| |s m e]; cbn; intros Hx; subst; try reflexivity.
  destruct (0 <=? e); [reflexivity|].
  unfold float64.signed, cond_Zopp.
  destruct (Z.shiftr (- Zpos m) (- e)) as [|q|q] eqn:Hq; cbn.
  - reflexivity.
  - exfalso. assert (Z.shiftr (- Zpos m) (- e) < 0) by (apply Z.shiftr_neg; lia).
    lia.
  - apply binary_round_sign.
Qed.

Lemma Ceil_sign (x : float64.t) :
  float64.has_sign false x -> float64.has_sign false (math.Ceil x).
Proof.
  intros Hx. unfold math.Ceil.
  apply (opp_sign true), Floor_negative. now apply (opp_sign false).
Qed.

Lemma to_int_nonneg (indefinite : float64.t -> Z) (x : float64.t) :
  float64.has_sign false x -> float64.fits_int x = true ->
  0 <= float64.to_int indefinite x.
Proof.
  unfold float64.fits_int, float64.to_int.
  destruct x as [s|s| |s m e]; cbn; intros Hx Hfits; subst;
    try discriminate; try reflexivity.
  rewrite Hfits. unfold float64.signed, cond_Zopp.
  destruct (Z.leb_spec 0 e).
  - assert (0 <= 2 ^ e) by (apply Z.pow_nonneg; lia). lia.
  - apply Z.quot_pos; [lia|]. apply Z.pow_pos_nonneg; lia.
Qed.

End sign.

(** ** Rounding up, checked against the exact value *)

Module rounding.

Lemma ceil_frac_spec (a b : Z) :
  0 < b ->
  b * (exact.ceil_frac a b - 1) < a <= b * exact.ceil_frac a b.
Proof.
  intros Hb. unfold exact.ceil_frac.
  pose proof (Z.div_mod (- a) b ltac:(lia)) as Hdiv.
  pose proof (Z.mod_pos_bound (- a) b Hb) as Hmod.
  nia.
Qed.

(** The least integer not below a/b is the only one within 1 above it. *)
Lemma ceil_frac_unique (a b n : Z) :
  0 < b -> b * (n - 1) < a <= b * n -> exact.ceil_frac a b = n.
Proof.
  intros Hb Hn. pose proof (ceil_frac_spec a b Hb) as Hc. nia.
Qed.

Lemma shr_1_quot (mrs : shr_record) :
  shr_m (shr_1 mrs) = Z.quot (shr_m mrs) 2.
Proof.
  destruct mrs as [m r s]. destruct m as [|[p|p|]|[p|p|]]; cbn [shr_1 shr_m].
  - reflexivity.
  - apply (Z.quot_unique _ _ _ 1); lia.
  - apply (Z.quot_unique _ _ _ 0); lia.
  - reflexivity.
  - change (Zneg p~1) with (- Zpos p~1). rewrite Z.quot_opp_l by lia.
    rewrite <- (Z.quot_unique (Zpos p~1) 2 (Zpos p) 1) by lia. reflexivity.
  - change (Zneg p~0) with (- Zpos p~0). rewrite Z.quot_opp_l by lia.
    rewrite <- (Z.quot_unique (Zpos p~0) 2 (Zpos p) 0) by lia. reflexivity.
  - reflexivity.
Qed.

Lemma iter_shr_quot (k : positive) (mrs : shr_record) :
  shr_m (SpecFloat.iter_pos shr_1 k mrs) = Z.quot (shr_m mrs) (2 ^ Zpos k).
Proof.
  revert mrs. induction k as [|k IH] using Pos.peano_ind; intros mrs.
  - apply shr_1_quot.
  - rewrite round.iter_pos_succ, IH, shr_1_quot.
    rewrite Z.quot_quot by (try apply Z.pow_nonzero; lia).
    now rewrite Pos2Z.inj_succ, Z.pow_succ_r by lia.
Qed.

(** The mantissa that the second shift of [binary_round_aux] leaves has
    at most 53 bits. *)
Lemma shr_fexp_bounded (m e : Z) (mrs : shr_record) (e' : Z) (q : positive) :
  shr_fexp float64.prec float64.emax m e loc_Exact = (mrs, e') ->
  shr_m mrs = Zpos q -> Zpos q < 2 ^ 53.
Proof.
  unfold shr_fexp, shr, fexp, emin, float64.prec, float64.emax.
  cbn [shr_record_of_loc].
  destruct (Z.max (Zdigits2 m + e - 53) (3 - 1024 - 53) - e) as [|k|k] eqn:Hk;
    intros Hshr Hq; inversion Hshr; subst mrs e'; clear Hshr.
  - cbn [shr_m] in Hq. subst m. cbn [Zdigits2] in Hk.
    pose proof (round.digits_bounds q) as [_ Hhi].
    assert (2 ^ Zpos (digits2_pos q) <= 2 ^ 53) by (apply Z.pow_le_mono_r; lia).
    lia.
  - rewrite iter_shr_quot in Hq. cbn [shr_m] in Hq.
    destruct m as [|p|p].
    + rewrite Z.quot_0_l in Hq by (apply Z.pow_nonzero; lia). discriminate.
    + cbn [Zdigits2] in Hk.
      pose proof (round.digits_bounds p) as [_ Hhi].
      rewrite Z.quot_div_nonneg in Hq by lia. rewrite <- Hq.
      destruct (Z.ltb_spec (Zpos (digits2_pos p)) (Zpos k)) as [Hfar|Hnear].
      * assert (2 ^ Zpos (digits2_pos p) <= 2 ^ Zpos k)
          by (apply Z.pow_le_mono_r; lia).
        rewrite Z.div_small by lia. lia.
      * apply Z.div_lt_upper_bound; [lia|].
        rewrite <- Z.pow_add_r by lia.
        assert (2 ^ Zpos (digits2_pos p) <= 2 ^ (Zpos k + 53))
          by (apply Z.pow_le_mono_r; lia).
        lia.
    + exfalso.
      assert (Z.quot (Zneg p) (2 ^ Zpos k) <= 0) as Hneg.
      { change (Zneg p) with (- Zpos p). rewrite Z.quot_opp_l by lia.
        assert (0 <= Z.quot (Zpos p) (2 ^ Zpos k)) by (apply Z.quot_pos; lia).
        lia. }
      lia.
  - cbn [shr_m] in Hq. subst m. cbn [Zdigits2] in Hk.
    pose proof (round.digits_bounds q) as [_ Hhi].
    assert (2 ^ Zpos (digits2_pos q) <= 2 ^ 53) by (apply Z.pow_le_mono_r; lia).
    lia.
Qed.

Lemma binary_round_aux_bounded (sx : bool) (mx ex : Z) (lx : location)
    (s : bool) (m : positive) (e : Z) :
  binary_round_aux float64.prec float64.emax sx mx ex lx = S754_finite s m e ->
  Zpos m < 2 ^ 53.
Proof.
  unfold binary_round_aux.
  destruct (shr_fexp _ _ mx ex lx) as [mrs' e'].
  destruct (shr_fexp _ _ _ e' loc_Exact) as [mrs'' e''] eqn:Hshr.
  destruct (shr_m mrs'') as [|q|q] eqn:Hq; try discriminate.
  destruct (e'' <=? float64.emax - float64.prec); [|discriminate].
  intros Hx. inversion Hx; subst. eapply shr_fexp_bounded; eassumption.
Qed.

(** A product that is finite has a mantissa of at most 53 bits. *)
Lemma mul_bounded (x y : float64.t) (s : bool) (m : positive) (e : Z) :
  float64.mul x y = S754_finite s m e -> Zpos m < 2 ^ 53.
Proof.
  unfold float64.mul.
  destruct x as [sx|sx| |sx mx ex], y as [sy|sy| |sy my ey]; cbn;
    try discriminate.
  apply binary_round_aux_bounded.
Qed.

(** An integer below 2^53 is a double, of either sign. *)
Lemma binary_round_small (s : bool) (p : positive) :
  Zpos p < 2 ^ 53 ->
  binary_round float64.prec float64.emax s p 0
  = S754_finite s (float64.shl p (53 - Zpos (digits2_pos p)))
      (Zpos (digits2_pos p) - 53).
Proof.
  intros Hp. pose proof (round.digits_le_53 p Hp) as Hd.
  unfold binary_round.
  unfold shl_align, fexp, emin, float64.prec, float64.emax.
  replace (Z.max (Zpos (digits2_pos p) + 0 - 53) (3 - 1024 - 53))
    with (Zpos (digits2_pos p) - 53) by lia.
  destruct (Zpos (digits2_pos p) - 53 - 0) as [|q|q] eqn:Hq; [|lia|].
  - replace (53 - Zpos (digits2_pos p)) with 0 by lia.
    replace (Zpos (digits2_pos p) - 53) with 0 by lia.
    change (S754_finite s (float64.shl p 0) 0) with (S754_finite s p (0 + 0)).
    apply (round.binary_round_aux_exact s p 0 0); lia.
  - replace (53 - Zpos (digits2_pos p)) with (Zpos q) by lia.
    change (Pos.iter xO p q) with (float64.shl p (Zpos q)).
    replace (Zpos (digits2_pos p) - 53) with (Zpos (digits2_pos p) - 53 + 0) at 2 by lia.
    apply (round.binary_round_aux_exact s (float64.shl p (Zpos q)) 0); [|lia|lia].
    rewrite round.digits_shl; lia.
Qed.

Lemma trunc_small (s : bool) (p : positive) :
  Zpos p < 2 ^ 53 ->
  float64.trunc
    (S754_finite s (float64.shl p (53 - Zpos (digits2_pos p)))
       (Zpos (digits2_pos p) - 53))
  = Some (float64.signed s p).
Proof.
  intros Hp. pose proof (round.digits_le_53 p Hp) as Hd.
  unfold float64.trunc, float64.signed. f_equal.
  destruct (Z.leb_spec 0 (Zpos (digits2_pos p) - 53)) as [Hge|Hneg].
  - replace (Zpos (digits2_pos p) - 53) with 0 by lia.
    replace (53 - Zpos (digits2_pos p)) with 0 by lia. cbn [float64.shl]. lia.
  - replace (- (Zpos (digits2_pos p) - 53)) with (53 - Zpos (digits2_pos p)) by lia.
    destruct s; cbn [cond_Zopp].
    + rewrite Z.quot_opp_l by (apply Z.pow_nonzero; lia).
      rewrite round.Zpos_shl by lia.
      rewrite Z.quot_mul by (apply Z.pow_nonzero; lia). reflexivity.
    + rewrite round.Zpos_shl by lia.
      apply Z.quot_mul. apply Z.pow_nonzero; lia.
Qed.

(** The double of the integer k, for |k| < 2^53, converts back to k. *)
Lemma trunc_normalize (k : Z) (szero : bool) :
  - 2 ^ 53 < k < 2 ^ 53 ->
  float64.trunc (SFopp (binary_normalize float64.prec float64.emax k 0 szero))
  = Some (- k).
Proof.
  intros Hk. destruct k as [|q|q]; cbn [binary_normalize].
  - reflexivity.
  - rewrite binary_round_small by lia. cbn [SFopp negb].
    now rewrite trunc_small by lia.
  - rewrite binary_round_small by lia. cbn [SFopp negb].
    now rewrite trunc_small by lia.
Qed.

(** [int(math.Ceil(x))] is the least integer not below x, for a finite
    double x whose ceiling fits an int. *)
Lemma to_int_Ceil (indefinite : float64.t -> Z) (x : float64.t) :
  float64.is_finite x = true ->
  (forall s m e, x = S754_finite s m e -> Zpos m < 2 ^ 53) ->
  goint.min_int <= exact.ceil x <= goint.max_int ->
  float64.to_int indefinite (math.Ceil x) = exact.ceil x.
Proof.
  intros Hfin Hbound Hrange.
  assert (float64.trunc (math.Ceil x) = Some (exact.ceil x)) as Htrunc.
  { destruct x as [s|s| |s m e]; try discriminate.
    - reflexivity.
    - specialize (Hbound s m e eq_refl).
      unfold math.Ceil, exact.ceil, exact.ceil_frac, exact.num, exact.den.
      cbn [SFopp math.Floor].
      destruct (Z.leb_spec 0 e) as [He|He].
      + cbn [SFopp float64.trunc]. rewrite negb_involutive.
        destruct (Z.leb_spec 0 e); [|lia].
        f_equal. rewrite Z.div_1_r. lia.
      + assert (0 < 2 ^ (- e)) as Hpow by (apply Z.pow_pos_nonneg; lia).
        assert (- float64.signed s m = float64.signed (negb s) m) as Hopp
          by (destruct s; reflexivity).
        rewrite Z.shiftr_div_pow2 by lia. rewrite Hopp.
        apply trunc_normalize.
        assert (- Zpos m <= float64.signed (negb s) m <= Zpos m) as Hs
          by (destruct s; cbn; lia).
        pose proof (Z.div_mod (float64.signed (negb s) m) (2 ^ (- e))
                      ltac:(lia)) as Hdiv.
        pose proof (Z.mod_pos_bound (float64.signed (negb s) m) (2 ^ (- e)) Hpow)
          as Hmod.
        assert (2 <= 2 ^ (- e)) as Htwo.
        { change 2 with (2 ^ 1) at 1. apply Z.pow_le_mono_r; lia. }
        nia. }
  unfold float64.to_int. rewrite Htrunc.
  destruct (Z.leb_spec goint.min_int (exact.ceil x)); [|lia].
  destruct (Z.leb_spec (exact.ceil x) goint.max_int); [reflexivity|lia].
Qed.

(** The ceiling of a double that is not negative is not negative. *)
Lemma ceil_nonneg (x : float64.t) :
  float64.has_sign false x -> 0 <= exact.ceil x.
Proof.
  unfold exact.ceil, exact.ceil_frac.
  destruct x as [s|s| |s m e]; intros Hs;
    [vm_compute; discriminate ..|].
  cbn in Hs. subst s. cbn [exact.num exact.den float64.signed cond_Zopp].
  destruct (Z.leb_spec 0 e) as [He|He].
  - rewrite Z.div_1_r. assert (0 <= 2 ^ e) by (apply Z.pow_nonneg; lia). lia.
  - assert (0 < 2 ^ (- e)) as Hpow by (apply Z.pow_pos_nonneg; lia).
    assert (- Zpos m / 2 ^ (- e) <= 0); [|lia].
    apply Z.div_le_upper_bound; lia.
Qed.

End rounding.

(** ** The monad *)

Lemma bind_Ok_inv {S A B} (c : M S A) (k : A -> M S B) s s' y :
  bind c k s = (s', Ok y) ->
  exists s1 x, c s = (s1, Ok x) /\ k x s1 = (s', Ok y).
Proof.
  unfold bind. destruct (c s) as [s1 [x|e|msg]]; intros Hrun; try discriminate.
  now exists s1, x.
Qed.

Lemma lift_Ok_inv {S A} (o : outcome A) (s s' : S) (x : A) :
  lift o s = (s', Ok x) -> o = Ok x /\ s' = s.
Proof. unfold lift. intros Hrun. now inversion Hrun. Qed.

Lemma get_inv {S} (s s' x : S) : get s = (s', Ok x) -> x = s /\ s' = s.
Proof. unfold get. intros Hrun. now inversion Hrun. Qed.

Lemma run_Ok {S A} (c : M S A) (s : S) (x : A) :
  snd (c s) = Ok x -> c s = (fst (c s), Ok x).
Proof. intros Hx. now apply injective_projections. Qed.

(** ** Drawing on a sink

    The sink fails as [bad] says; the calls whose error [Draw] looks at
    are spared. *)

Section Sink.

Variable im : viz.Image.
Variable bad : sink.event -> bool.
Hypothesis spared : sink.spares_checked bad.

Lemma index_Ok {A} (l : list A) (i : nat) (x : A) :
  l !! i = Some x -> index l (Z.of_nat i) = Ok x.
Proof.
  intros Hl. unfold index.
  destruct (Z.ltb_spec (Z.of_nat i) 0) as [Hneg|_]; [lia|].
  now rewrite Nat2Z.id, Hl.
Qed.

Lemma pixel_in_range (fr : viz.frame) (wd ht : Z) (x y : nat) :
  has_size wd ht (viz.picture fr) ->
  Z.of_nat x < wd -> Z.of_nat y < ht ->
  viz.pixel fr (Z.of_nat x) (Z.of_nat y)
  = Ok (default 0 (default [] (viz.picture fr !! x) !! y)).
Proof.
  intros [Hlen Hcols] Hx Hy. unfold viz.pixel.
  destruct (lookup_lt_is_Some_2 (viz.picture fr) x) as [column Hcol]; [lia|].
  rewrite (index_Ok _ _ _ Hcol), Hcol. simpl.
  assert (Z.of_nat (length column) = ht) as Hht.
  { exact (Forall_lookup_1 _ _ _ _ Hcols Hcol). }
  destruct (lookup_lt_is_Some_2 column y) as [idx Hidx]; [lia|].
  now rewrite (index_Ok _ _ _ Hidx), Hidx.
Qed.

(** A checked call that is spared goes through. *)
Lemma checked_spared (ev : sink.event) (l : list sink.event) :
  bad ev = false ->
  viz.checked (sink.call ev) (sink.logged bad l)
  = (sink.logged bad (l ++ [ev]), Ok tt).
Proof.
  intros Hev. unfold viz.checked, sink.call. cbn [sink.fails sink.log sink.logged].
  now rewrite Hev.
Qed.

(** The cells of a row: whatever the sink answers, the loop goes on. *)
Lemma cells_logged (fr : viz.frame) (y : nat) (xs : list nat) (l : list sink.event) :
  has_size (viz.w im) (viz.h im) (viz.picture fr) ->
  Z.of_nat y < viz.h im ->
  Forall (fun x => Z.of_nat x < viz.w im) xs ->
  for_each (map Z.of_nat xs)
    (fun x => idx <- lift (viz.pixel fr x (Z.of_nat y)) ;;
              viz.unchecked (viz.Write (viz.cell idx)))
    (sink.logged bad l)
  = (sink.logged bad
       (l ++ map (fun x => sink.EvWrite
                    (viz.cell (default 0 (default [] (viz.picture fr !! x) !! y))))
               xs),
     Ok tt).
Proof.
  intros Hsize Hy Hxs. revert l.
  induction Hxs as [|x xs Hx _ IH]; intros l; simpl.
  - now rewrite app_nil_r.
  - unfold bind at 1. unfold bind at 1. unfold lift at 1.
    rewrite (pixel_in_range fr _ _ x y Hsize Hx Hy).
    unfold viz.unchecked at 1. simpl fst.
    change (fst (sink.call ?ev (sink.logged bad ?l0)))
      with (sink.logged bad (l0 ++ [ev])).
    cbv beta iota. rewrite IH. now rewrite <- app_assoc.
Qed.

Lemma seqZ_of_nat (n : Z) : seqZ 0 n = map Z.of_nat (seq 0 (Z.to_nat n)).
Proof. unfold seqZ. apply map_ext. intros i. lia. Qed.

Lemma rows_logged (fr : viz.frame) (xs ys : list nat) (l : list sink.event) :
  has_size (viz.w im) (viz.h im) (viz.picture fr) ->
  Forall (fun x => Z.of_nat x < viz.w im) xs ->
  Forall (fun y => Z.of_nat y < viz.h im) ys ->
  for_each (map Z.of_nat ys)
    (fun y =>
       for_each (map Z.of_nat xs)
         (fun x => idx <- lift (viz.pixel fr x y) ;;
                   viz.unchecked (viz.Write (viz.cell idx))) ;;
       viz.checked (viz.Write viz.newline))
    (sink.logged bad l)
  = (sink.logged bad
       (l ++ flat_map (fun y =>
                map (fun x => sink.EvWrite
                       (viz.cell (default 0 (default [] (viz.picture fr !! Z.to_nat x)
                                               !! Z.to_nat y))))
                    (map Z.of_nat xs)
                ++ [sink.EvWrite viz.newline])
             (map Z.of_nat ys)),
     Ok tt).
Proof.
  intros Hsize Hxs Hys. revert l.
  induction Hys as [|y ys Hy _ IH]; intros l; cbn [for_each map flat_map].
  - now rewrite app_nil_r.
  - unfold bind at 1. unfold bind at 1.
    rewrite (cells_logged fr y xs l Hsize Hy Hxs).
    change (viz.Write viz.newline) with (sink.call (sink.EvWrite viz.newline)).
    rewrite checked_spared by apply spared.
    cbv beta iota. rewrite IH. f_equal. f_equal.
    rewrite <- !app_assoc. f_equal. rewrite map_map. f_equal.
    apply map_ext. intros x. now rewrite !Nat2Z.id.
Qed.

Lemma draw_rows_logged (fr : viz.frame) (l : list sink.event) :
  has_size (viz.w im) (viz.h im) (viz.picture fr) ->
  viz.draw_rows im fr (sink.logged bad l)
  = (sink.logged bad (l ++ sink.drawn (viz.w im) (viz.h im) fr), Ok tt).
Proof.
  intros Hsize. unfold viz.draw_rows, sink.drawn.
  rewrite !seqZ_of_nat.
  apply rows_logged; [exact Hsize| |];
    apply Forall_forall; intros n Hn; apply elem_of_seq in Hn;
    destruct Hsize as [Hlen _]; lia.
Qed.

Lemma pass_nil (vars : bool * Z) (s : sink.t) :
  viz.pass im [] vars s = (s, Ok vars).
Proof. reflexivity. Qed.

(** One frame of a pass: the cursor-up and the sleep when a frame was
    drawn before, then the frame. *)
Lemma pass_cons_logged (fr : viz.frame) (rest : list viz.frame)
    (done : bool) (d : Z) (l : list sink.event) :
  has_size (viz.w im) (viz.h im) (viz.picture fr) ->
  viz.pass im (fr :: rest) (done, d) (sink.logged bad l)
  = viz.pass im rest (true, viz.delay fr)
      (sink.logged bad
         (l ++ (if done then [sink.EvLineUp (viz.h im); sink.EvSleep d] else [])
            ++ sink.drawn (viz.w im) (viz.h im) fr)).
Proof.
  intros Hsize. cbn [viz.pass fst snd].
  destruct done; cbv iota.
  - unfold bind at 1. unfold bind at 1. unfold bind at 1.
    change (viz.LineUp ?n) with (sink.call (sink.EvLineUp n)).
    change (viz.Sleep ?n) with (sink.call (sink.EvSleep n)).
    rewrite checked_spared by apply spared. cbv beta iota.
    rewrite checked_spared by apply spared. cbv beta iota.
    rewrite draw_rows_logged by exact Hsize.
    cbv beta iota. now rewrite <- !app_assoc.
  - unfold bind at 1. unfold bind at 1. unfold ret at 1. cbv beta iota.
    rewrite draw_rows_logged by exact Hsize. reflexivity.
Qed.

Lemma close_logged (l : list sink.event) :
  viz.checked viz.Close (sink.logged bad l)
  = (sink.logged bad (l ++ [sink.EvClose]), Ok tt).
Proof.
  change viz.Close with (sink.call sink.EvClose).
  apply checked_spared, spared.
Qed.

End Sink.


Lemma cell_writes_spares : sink.spares_checked sink.cell_writes.
Proof. repeat split. Qed.



(** C5 (the code on the failing inputs). On a sink that answers every
    write of a cell with an error, [Draw] of a single frame, shown once,
    still writes every cell and every line terminator, closes the sink and
    returns nil: the errors of the cell writes are dropped. *)
Theorem Draw_drops_cell_write_error (im : viz.Image) (fr : viz.frame) :
  viz.frames im = [fr] ->
  viz.LoopCount im = 1 ->
  has_size (viz.w im) (viz.h im) (viz.picture fr) ->
  (forall idx l,
     snd (viz.Write (viz.cell idx) (sink.logged sink.cell_writes l))
     = Some "sink failure")
  /\ viz.Draw im sink.rejects_cells
     = (sink.logged sink.cell_writes
          (sink.drawn (viz.w im) (viz.h im) fr ++ [sink.EvClose]),
        Ok tt).
Proof.
  intros Hfs Hloops Hsize. split; [reflexivity|].
  unfold viz.Draw, sink.rejects_cells.
  rewrite Hloops. change (Z.to_nat 1) with 1%nat. cbn [viz.passes].
  rewrite Hfs.
  unfold bind at 1. unfold bind at 1.
  rewrite (pass_cons_logged im _ cell_writes_spares fr [] false 0 [] Hsize).
  rewrite pass_nil. cbv beta iota. unfold ret at 1. cbv beta iota.
  rewrite (close_logged _ cell_writes_spares). reflexivity.
Qed.

Lemma Draw_drops_cell_write_error_witness :
  snd (viz.Write (viz.cell 196) sink.rejects_cells) = Some "sink failure"
  /\ viz.Draw fake.one_cell sink.rejects_cells
     = (sink.logged sink.cell_writes
          [sink.EvWrite (viz.cell 196); sink.EvWrite viz.newline; sink.EvClose],
        Ok tt).
Proof.
  destruct (Draw_drops_cell_write_error fake.one_cell
              {| viz.picture := [[196]]; viz.delay := 0 |})
    as [Hfail Hdraw].
  - reflexivity.
  - reflexivity.
  - split; [reflexivity | repeat constructor].
  - split; [apply (Hfail 196 []) | exact Hdraw].
Defined.

(** ** Running [Init] *)

Section InitFacts.

Context (env : Env).

Lemma quantize_size (scaled : image.Image) (wd ht : Z) (pic : list (list Z)) :
  viz.quantize env scaled wd ht = Ok pic -> has_size wd ht pic.
Proof.
  unfold viz.quantize.
  destruct (Z.ltb_spec wd 0) as [|Hw]; [discriminate|].
  destruct (Z.ltb_spec 0 wd) as [Hpos|Hzero];
    destruct (Z.ltb_spec ht 0) as [Hneg|Hh]; cbn [andb];
    try discriminate; intros Hpic; inversion Hpic; subst pic; clear Hpic;
    (split; [rewrite length_map, length_seqZ; lia|]);
    apply Forall_forall; intros column Hcol;
    apply list_elem_of_fmap in Hcol; destruct Hcol as (x & -> & Hx).
  - rewrite length_map, length_seqZ. lia.
  - apply elem_of_seqZ in Hx. lia.
  - apply elem_of_seqZ in Hx. lia.
Qed.

Lemma appendImg_inv (f : image.Image) (delayMS : Z) (st st' : viz.State) :
  viz.appendImg env f delayMS st = (st', Ok tt) ->
  exists pic,
    viz.quantize env
      (Resize env (goint.to_uint (viz.w (viz.img st)))
         (goint.to_uint (viz.h (viz.img st))) f)
      (viz.w (viz.img st)) (viz.h (viz.img st)) = Ok pic
    /\ st' = {| viz.img :=
                 viz.set_frames
                   (viz.frames (viz.img st)
                    ++ [ {| viz.picture := pic;
                            viz.delay :=
                              viz.render_delay env delayMS
                                (viz.DelayMultiplier (viz.img st)) |} ])
                   (viz.img st);
               viz.world := viz.world st; viz.heap := viz.heap st;
               viz.next := viz.next st |}.
Proof.
  unfold viz.appendImg. intros Hrun.
  apply bind_Ok_inv in Hrun as (st1 & st0 & Hget & Hrun).
  apply get_inv in Hget as [-> ->].
  apply bind_Ok_inv in Hrun as (st1 & pic & Hpic & Hrun).
  apply lift_Ok_inv in Hpic as [Hpic ->].
  exists pic. split; [assumption|].
  unfold viz.on_img, modify in Hrun. now inversion Hrun.
Qed.

Lemma load_inv (p : nat) (st st' : viz.State) (c : image.RGBA) :
  viz.load p st = (st', Ok c) -> st' = st /\ viz.heap st !! p = Some c.
Proof.
  unfold viz.load. destruct (viz.heap st !! p) as [c0|]; intros Hrun;
    inversion Hrun; now subst.
Qed.

Lemma index_inv {A} (l : list A) (i : Z) (x : A) :
  index l i = Ok x -> 0 <= i /\ l !! Z.to_nat i = Some x.
Proof.
  unfold index. destruct (Z.ltb_spec i 0); [discriminate|].
  destruct (l !! Z.to_nat i) as [y|]; [|discriminate].
  intros Hx. inversion Hx. now subst.
Qed.

(** The [switch] on the disposal works on canvases only. *)
Lemma dispose_inv (disposal iw ih : Z) (canvas : nat) (prev : option nat)
    (st st' : viz.State) (cp : nat * option nat) :
  viz.dispose disposal iw ih canvas prev st = (st', Ok cp) ->
  viz.img st' = viz.img st /\ viz.world st' = viz.world st.
Proof.
  unfold viz.dispose.
  destruct (disposal =? gif.DisposalBackground).
  { unfold bind, viz.NewRGBA, ret. intros Hrun. inversion Hrun. now subst. }
  destruct (disposal =? gif.DisposalNone).
  { unfold ret. intros Hrun. inversion Hrun. now subst. }
  destruct (disposal =? gif.DisposalPrevious); [destruct prev|];
    unfold ret; intros Hrun; inversion Hrun; now subst.
Qed.

Lemma set_frames_id (im : viz.Image) :
  viz.set_frames (viz.frames im ++ []) im = im.
Proof. destruct im. unfold viz.set_frames. cbn. now rewrite app_nil_r. Qed.

(** The frames of an animation: one per picture, each of the resolved size
    and with the delay computed from the delay of its picture; nothing
    but [frames] changes in the receiver. *)
Lemma composite_inv (g : gif.GIF) (iw ih : Z) (rest : list image.Image) :
  forall (i : Z) (canvas : nat) (prev : option nat) (st st' : viz.State),
  0 <= i ->
  viz.composite env g iw ih rest i canvas prev st = (st', Ok tt) ->
  exists fs,
    viz.img st' = viz.set_frames (viz.frames (viz.img st) ++ fs) (viz.img st)
    /\ viz.world st' = viz.world st
    /\ Forall (fun fr =>
                has_size (viz.w (viz.img st)) (viz.h (viz.img st)) (viz.picture fr))
             fs
    /\ map viz.delay fs
       = map (fun d => viz.render_delay env (goint.mul d 10)
                         (viz.DelayMultiplier (viz.img st)))
           (take (length rest) (drop (Z.to_nat i) (gif.Delay g)))
    /\ length fs = length rest.
Proof.
  induction rest as [|frame rest IH]; intros i canvas prev st st' Hi Hrun.
  - cbn in Hrun. unfold ret in Hrun. inversion Hrun; subst st'.
    exists []. rewrite set_frames_id. repeat split; constructor.
  - cbn [viz.composite] in Hrun.
    apply bind_Ok_inv in Hrun as (st1 & c0 & Hload & Hrun).
    apply load_inv in Hload as [-> Hc0].
    apply bind_Ok_inv in Hrun as (st1 & [] & Hstore & Hrun).
    unfold viz.store, modify in Hstore. inversion Hstore; subst st1; clear Hstore.
    apply bind_Ok_inv in Hrun as (st1 & d & Hd & Hrun).
    apply lift_Ok_inv in Hd as [Hd ->].
    apply bind_Ok_inv in Hrun as (st1 & c1 & Hload & Hrun).
    apply load_inv in Hload as [-> Hc1].
    apply bind_Ok_inv in Hrun as (st2 & [] & Happ & Hrun).
    apply appendImg_inv in Happ as (pic & Hpic & ->).
    apply bind_Ok_inv in Hrun as (st3 & disposal & Hdisp & Hrun).
    apply lift_Ok_inv in Hdisp as [Hdisp ->].
    apply bind_Ok_inv in Hrun as (st3 & cp & Hcp & Hrun).
    apply dispose_inv in Hcp as [Himg Hworld].
    apply IH in Hrun as (fs & Hfs & Hw & Hsizes & Hdelays & Hlen); [|lia].
    cbn in Himg, Hworld, Hpic.
    rewrite Himg in Hfs, Hsizes, Hdelays. rewrite Hworld in Hw.
    cbn in Hfs, Hsizes, Hdelays.
    eexists (_ :: fs). split; [|split; [|split; [|split]]].
    + rewrite Hfs. unfold viz.set_frames. cbn.
      rewrite <- app_assoc. reflexivity.
    + exact Hw.
    + constructor; [|exact Hsizes]. cbn. eapply quantize_size, Hpic.
    + apply index_inv in Hd as [_ Hd].
      rewrite (drop_S _ _ _ Hd). cbn [length take map]. f_equal.
      rewrite Hdelays. f_equal. f_equal. f_equal. lia.
    + cbn. now rewrite Hlen.
Qed.

Lemma open_image_inv (st st' : viz.State) (decoded : image.Image * string) :
  viz.open_image env st = (st', Ok decoded) ->
  image_Decode env (viz.Filename (viz.img st)) = Ok decoded
  /\ viz.img st' = viz.img st.
Proof.
  unfold viz.open_image. intros Hrun.
  apply bind_Ok_inv in Hrun as (st1 & st0 & Hget & Hrun).
  apply get_inv in Hget as [-> ->].
  apply bind_Ok_inv in Hrun as (st1 & file & Hopen & Hrun).
  apply bind_Ok_inv in Hrun as (st2 & dec & Hdec & Hrun).
  apply lift_Ok_inv in Hdec as [Hdec ->].
  apply bind_Ok_inv in Hrun as (st2 & [] & Hclose & Hrun).
  unfold ret in Hrun. inversion Hrun; subst; clear Hrun.
  unfold viz.on_world in Hopen, Hclose.
  unfold os.Open in Hopen.
  destruct (open_error env _ _); inversion Hopen; subst; clear Hopen.
  cbn in *. inversion Hclose; subst; clear Hclose. now split.
Qed.

(** The two ways through [scale_frames]. *)
Lemma scale_frames_inv (firstFrame : image.Image) (imgFmt : string)
    (st st' : viz.State) :
  viz.scale_frames env firstFrame imgFmt st = (st', Ok tt) ->
  (String.eqb imgFmt "gif" && (0 <? viz.LoopCount (viz.img st)) = true
   /\ exists g fs,
        gif_DecodeAll env (viz.Filename (viz.img st)) = Ok g
        /\ viz.img st' = viz.set_frames (viz.frames (viz.img st) ++ fs) (viz.img st)
        /\ Forall (fun fr =>
                    has_size (viz.w (viz.img st)) (viz.h (viz.img st))
                      (viz.picture fr)) fs
        /\ map viz.delay fs
           = map (fun d => viz.render_delay env (goint.mul d 10)
                             (viz.DelayMultiplier (viz.img st)))
               (take (length (gif.Image g)) (gif.Delay g))
        /\ length fs = length (gif.Image g))
  \/
  (String.eqb imgFmt "gif" && (0 <? viz.LoopCount (viz.img st)) = false
   /\ exists pic,
        viz.quantize env
          (Resize env (goint.to_uint (viz.w (viz.img st)))
             (goint.to_uint (viz.h (viz.img st))) firstFrame)
          (viz.w (viz.img st)) (viz.h (viz.img st)) = Ok pic
        /\ viz.img st'
           = viz.set_frames
               (viz.frames (viz.img st)
                ++ [ {| viz.picture := pic;
                        viz.delay :=
                          viz.render_delay env 0
                            (viz.DelayMultiplier (viz.img st)) |} ])
               (viz.set_LoopCount 1 (viz.img st))).
Proof.
  unfold viz.scale_frames. intros Hrun.
  apply bind_Ok_inv in Hrun as (st1 & st0 & Hget & Hrun).
  apply get_inv in Hget as [-> ->].
  destruct (String.eqb imgFmt "gif" && (0 <? viz.LoopCount (viz.img st))) eqn:Hanim.
  - left. split; [reflexivity|].
    apply bind_Ok_inv in Hrun as (st1 & file & Hopen & Hrun).
    apply bind_Ok_inv in Hrun as (st2 & g & Hg & Hrun).
    apply lift_Ok_inv in Hg as [Hg ->].
    apply bind_Ok_inv in Hrun as (st2 & canvas & Hnew & Hrun).
    apply bind_Ok_inv in Hrun as (st3 & [] & Hloop & Hrun).
    unfold viz.on_world, os.Open in Hopen.
    destruct (open_error env _ _); inversion Hopen; subst; clear Hopen.
    unfold viz.NewRGBA in Hnew. inversion Hnew; subst; clear Hnew.
    apply composite_inv in Hloop as (fs & Hfs & Hw & Hsizes & Hdelays & Hlen); [|lia].
    cbn in Hg, Hfs, Hsizes, Hdelays.
    unfold viz.on_world in Hrun. cbn in Hrun. inversion Hrun; subst; clear Hrun.
    exists g, fs. cbn. rewrite drop_0 in Hdelays. now repeat split.
  - right. split; [reflexivity|].
    apply bind_Ok_inv in Hrun as (st1 & [] & Hset & Hrun).
    unfold viz.on_img, modify in Hset. inversion Hset; subst; clear Hset.
    apply appendImg_inv in Hrun as (pic & Hpic & ->).
    exists pic. now split.
Qed.

(** A successful [Init], stage by stage. *)
Lemma Init_inv (st st' : viz.State) :
  viz.Init env st = (st', Ok tt) ->
  exists firstFrame imgFmt scale st2,
    image_Decode env (viz.Filename (viz.img st)) = Ok (firstFrame, imgFmt)
    /\ viz.identify_scale env imgFmt (viz.LoopCount (viz.img st))
         (viz.UserWidth (viz.img st))
         (image.X (image.Max (image.Bounds firstFrame)))
         (image.Y (image.Max (image.Bounds firstFrame))) = Ok scale
    /\ viz.img st2
       = viz.set_h
           (goint.div
              (float64.to_int (indefinite env)
                 (math.Floor
                    (float64.mul scale
                       (float64.of_int
                          (image.Y (image.Max (image.Bounds firstFrame)))))))
              2)
           (viz.set_w
              (float64.to_int (indefinite env)
                 (math.Floor
                    (float64.mul scale
                       (float64.of_int
                          (image.X (image.Max (image.Bounds firstFrame)))))))
              (viz.img st))
    /\ viz.scale_frames env firstFrame imgFmt st2 = (st', Ok tt).
Proof.
  unfold viz.Init. intros Hrun.
  apply bind_Ok_inv in Hrun as (st1 & [firstFrame imgFmt] & Hopen & Hrun).
  apply open_image_inv in Hopen as [Hdec Himg].
  apply bind_Ok_inv in Hrun as (st2 & st0 & Hget & Hrun).
  apply get_inv in Hget as [-> ->].
  apply bind_Ok_inv in Hrun as (st2 & scale & Hscale & Hrun).
  apply lift_Ok_inv in Hscale as [Hscale ->].
  apply bind_Ok_inv in Hrun as (st2 & [] & Hsize & Hrun).
  rewrite Himg in Hscale.
  exists firstFrame, imgFmt, scale, st2. repeat split; try assumption.
  unfold viz.resolve_size, bind, viz.on_img, modify in Hsize.
  inversion Hsize; subst; clear Hsize. cbn. now rewrite Himg.
Qed.

(** One turn of the loop over [g.Image], on a canvas with the content c:
    the frame is drawn over c, the result is quantized and appended, and
    the [switch] on the disposal yields the variables of the next turn. *)
Lemma composite_cons_inv (g : gif.GIF) (iw ih : Z) (frame : image.Image)
    (rest : list image.Image) (i : Z) (canvas : nat) (prev : option nat)
    (st st' : viz.State) (c : image.RGBA) :
  viz.heap st !! canvas = Some c ->
  viz.composite env g iw ih (frame :: rest) i canvas prev st = (st', Ok tt) ->
  exists pic d disposal st1 cp,
    viz.quantize env
      (Resize env (goint.to_uint (viz.w (viz.img st)))
         (goint.to_uint (viz.h (viz.img st)))
         (image.RGBA_Image (draw.Draw c (image.RGBA_Rect c) frame image.ZP)))
      (viz.w (viz.img st)) (viz.h (viz.img st)) = Ok pic
    /\ index (gif.Disposal g) i = Ok disposal
    /\ viz.dispose disposal iw ih canvas prev
         {| viz.img :=
              viz.set_frames
                (viz.frames (viz.img st)
                 ++ [ {| viz.picture := pic;
                         viz.delay :=
                           viz.render_delay env (goint.mul d 10)
                             (viz.DelayMultiplier (viz.img st)) |} ])
                (viz.img st);
            viz.world := viz.world st;
            viz.heap :=
              <[canvas := draw.Draw c (image.RGBA_Rect c) frame image.ZP]>
                (viz.heap st);
            viz.next := viz.next st |}
       = (st1, Ok cp)
    /\ viz.composite env g iw ih rest (i + 1) (fst cp) (snd cp) st1
       = (st', Ok tt).
Proof.
  intros Hc Hrun. cbn [viz.composite] in Hrun.
  apply bind_Ok_inv in Hrun as (st1 & c0 & Hload & Hrun).
  apply load_inv in Hload as [-> Hc0].
  rewrite Hc in Hc0. inversion Hc0; subst c0; clear Hc0.
  apply bind_Ok_inv in Hrun as (st1 & [] & Hstore & Hrun).
  unfold viz.store, modify in Hstore. inversion Hstore; subst st1; clear Hstore.
  apply bind_Ok_inv in Hrun as (st1 & d & Hd & Hrun).
  apply lift_Ok_inv in Hd as [_ ->].
  apply bind_Ok_inv in Hrun as (st1 & c1 & Hload & Hrun).
  apply load_inv in Hload as [-> Hc1]. cbn [viz.heap] in Hc1.
  rewrite lookup_insert_eq in Hc1. inversion Hc1; subst c1; clear Hc1.
  apply bind_Ok_inv in Hrun as (st2 & [] & Happ & Hrun).
  apply appendImg_inv in Happ as (pic & Hpic & ->).
  apply bind_Ok_inv in Hrun as (st3 & disposal & Hdisp & Hrun).
  apply lift_Ok_inv in Hdisp as [Hdisp ->].
  apply bind_Ok_inv in Hrun as (st3 & cp & Hcp & Hrun).
  exists pic, d, disposal, st3, cp. cbn in Hpic, Hcp. now repeat split.
Qed.

(** The animated way through [scale_frames]: the loop starts on a fresh
    blank canvas of the size of the animation, with [prev] nil. *)
Lemma scale_frames_gif_inv (firstFrame : image.Image) (g : gif.GIF)
    (st st' : viz.State) :
  viz.scale_frames env firstFrame "gif" st = (st', Ok tt) ->
  0 < viz.LoopCount (viz.img st) ->
  gif_DecodeAll env (viz.Filename (viz.img st)) = Ok g ->
  exists wd st1,
    viz.composite env g (image.Width (gif.Config g)) (image.Height (gif.Config g))
      (gif.Image g) 0 (viz.next st) None
      {| viz.img := viz.img st; viz.world := wd;
         viz.heap :=
           <[viz.next st :=
               image.blank
                 (image.Rect 0 0 (image.Width (gif.Config g))
                    (image.Height (gif.Config g)))]> (viz.heap st);
         viz.next := S (viz.next st) |}
    = (st1, Ok tt)
    /\ viz.img st' = viz.img st1.
Proof.
  intros Hrun Hloops Hg. unfold viz.scale_frames in Hrun.
  apply bind_Ok_inv in Hrun as (st1 & st0 & Hget & Hrun).
  apply get_inv in Hget as [-> ->].
  apply Z.ltb_lt in Hloops. rewrite Hloops in Hrun.
  cbn [String.eqb Ascii.eqb Bool.eqb andb] in Hrun.
  apply bind_Ok_inv in Hrun as (st1 & file & Hopen & Hrun).
  apply bind_Ok_inv in Hrun as (st2 & g' & Hg' & Hrun).
  apply lift_Ok_inv in Hg' as [Hg' ->].
  unfold viz.on_world, os.Open in Hopen.
  destruct (open_error env _ _); inversion Hopen; subst; clear Hopen.
  cbn [os.name] in Hg'. rewrite Hg in Hg'. inversion Hg'; subst g'; clear Hg'.
  apply bind_Ok_inv in Hrun as (st2 & canvas & Hnew & Hrun).
  unfold viz.NewRGBA in Hnew. inversion Hnew; subst; clear Hnew.
  apply bind_Ok_inv in Hrun as (st3 & [] & Hloop & Hclose).
  unfold viz.on_world in Hclose. cbn in Hclose.
  inversion Hclose; subst st'; clear Hclose.
  cbn [viz.img viz.world viz.heap viz.next] in Hloop.
  eexists _, st3. split; [exact Hloop | reflexivity].
Qed.

End InitFacts.

(** ** The resolved size *)

Lemma wrap_small (z : Z) : - 2 ^ 63 <= z < 2 ^ 63 -> goint.wrap z = z.
Proof.
  intros Hz. unfold goint.wrap.
  rewrite Z.mod_small by lia. lia.
Qed.

(** [scale_frames] does not touch the resolved size. *)
Lemma scale_frames_size (env : Env) (firstFrame : image.Image) (imgFmt : string)
    (st st' : viz.State) :
  viz.scale_frames env firstFrame imgFmt st = (st', Ok tt) ->
  viz.w (viz.img st') = viz.w (viz.img st)
  /\ viz.h (viz.img st') = viz.h (viz.img st).
Proof.
  intros Hrun.
  apply scale_frames_inv in Hrun
    as [(_ & g & fs & _ & -> & _) | (_ & pic & _ & ->)]; now split.
Qed.

(** The size resolved with scale 1.0. *)
Lemma size_at_scale_one (indefinite : float64.t -> Z) (n : Z) :
  0 <= n < 2 ^ 53 ->
  float64.to_int indefinite
    (math.Floor (float64.mul float64.one (float64.of_int n))) = n.
Proof.
  intros Hn.
  now rewrite round.mul_one_of_int, round.Floor_of_int, round.to_int_of_int.
Qed.

(** C1 (amended). With no user width, when the picture is at most as high
    as [th = 2*tr - 1] and at most as wide as the column count in use, the
    size resolved by a successful [Init] is [(iw, floor(ih/2))].  The
    column count in use is the queried [tc] for a source that is not a
    GIF and for a GIF with loop count 0; for a GIF with another loop count
    no column query is made and the count is the constant 40. *)
Theorem Init_size_when_terminal_fits (env : Env) (st st' : viz.State)
    (firstFrame : image.Image) (imgFmt : string) (tc tr : Z) :
  let iw := image.X (image.Max (image.Bounds firstFrame)) in
  let ih := image.Y (image.Max (image.Bounds firstFrame)) in
  let th := goint.sub (goint.mul tr 2) 1 in
  viz.Init env st = (st', Ok tt) ->
  viz.UserWidth (viz.img st) = 0 ->
  image_Decode env (viz.Filename (viz.img st)) = Ok (firstFrame, imgFmt) ->
  0 <= iw < 2 ^ 53 -> 0 <= ih < 2 ^ 53 ->
  viz.tput env "lines" = Ok tr ->
  (negb (String.eqb imgFmt "gif") || (viz.LoopCount (viz.img st) =? 0) = true
   /\ viz.tput env "cols" = Ok tc /\ iw <= tc
   \/ negb (String.eqb imgFmt "gif") || (viz.LoopCount (viz.img st) =? 0) = false
      /\ iw <= 40) ->
  ih <= th ->
  viz.w (viz.img st') = iw /\ viz.h (viz.img st') = ih / 2.
Proof.
  intros iw ih th Hrun Huser Hdec Hiw Hih Hlines Hcols Hth.
  apply Init_inv in Hrun
    as (firstFrame' & imgFmt' & scale & st2 & Hdec' & Hscale & Himg & Hrun).
  rewrite Hdec in Hdec'. inversion Hdec'; subst firstFrame' imgFmt'; clear Hdec'.
  fold iw ih in Hscale, Himg.
  assert (scale = float64.one) as ->.
  { unfold viz.identify_scale in Hscale. rewrite Huser in Hscale.
    change (0 <? 0) with false in Hscale. cbv iota in Hscale.
    destruct Hcols as [(Hquery & Htc & Hfit) | (Hquery & Hfit)];
      rewrite Hquery in Hscale; cbv iota in Hscale;
      [rewrite Htc in Hscale|]; rewrite Hlines in Hscale; fold th in Hscale.
    - destruct (Z.ltb_spec tc iw); [lia|].
      destruct (Z.ltb_spec th ih); [lia|].
      cbn in Hscale. now inversion Hscale.
    - destruct (Z.ltb_spec 40 iw); [lia|].
      destruct (Z.ltb_spec th ih); [lia|].
      cbn in Hscale. now inversion Hscale. }
  rewrite !size_at_scale_one in Himg by assumption.
  apply scale_frames_size in Hrun as [-> ->]. rewrite Himg. cbn.
  split; [reflexivity|].
  unfold goint.div. rewrite Z.quot_div_nonneg by lia.
  apply wrap_small.
  assert (0 <= ih / 2) by (apply Z.div_pos; lia).
  assert (ih / 2 <= ih) by (apply Z.div_le_upper_bound; lia).
  lia.
Qed.

Lemma Init_size_when_terminal_fits_witness :
  viz.w (viz.img (fst (viz.Init fake.png_env (viz.new_state fake.png_image)))) = 100
  /\ viz.h (viz.img (fst (viz.Init fake.png_env (viz.new_state fake.png_image)))) = 10 / 2.
Proof.
  apply (Init_size_when_terminal_fits fake.png_env
           (viz.new_state fake.png_image) _ fake.still "png" 200 50).
  - apply run_Ok. vm_compute. reflexivity.
  - reflexivity.
  - reflexivity.
  - vm_compute. split; [discriminate | reflexivity].
  - vm_compute. split; [discriminate | reflexivity].
  - reflexivity.
  - left. split; [reflexivity|]. split; [reflexivity|]. vm_compute. discriminate.
  - vm_compute. discriminate.
Defined.

(** C1 as stated fails for a GIF that is played: the column query is
    skipped and 40 columns are assumed, so a 100x10 first frame on a
    terminal of 200 columns and 50 lines resolves to 40x2, not 100x5. *)
Lemma Init_size_looping_gif_counterexample :
  ~ (forall (env : Env) (st st' : viz.State) (firstFrame : image.Image)
       (imgFmt : string) (tc tr : Z),
       let iw := image.X (image.Max (image.Bounds firstFrame)) in
       let ih := image.Y (image.Max (image.Bounds firstFrame)) in
       viz.Init env st = (st', Ok tt) ->
       viz.UserWidth (viz.img st) = 0 ->
       image_Decode env (viz.Filename (viz.img st)) = Ok (firstFrame, imgFmt) ->
       viz.tput env "cols" = Ok tc ->
       viz.tput env "lines" = Ok tr ->
       iw <= tc -> ih <= 2 * tr - 1 ->
       viz.w (viz.img st') = iw /\ viz.h (viz.img st') = ih / 2).
Proof.
  intros Hall.
  destruct (Hall fake.gif_env (viz.new_state fake.gif_image)
              (fst (viz.Init fake.gif_env (viz.new_state fake.gif_image)))
              fake.still "gif" 200 50) as [Hw _].
  - apply run_Ok. vm_compute. reflexivity.
  - reflexivity.
  - reflexivity.
  - reflexivity.
  - reflexivity.
  - vm_compute. discriminate.
  - vm_compute. discriminate.
  - vm_compute in Hw. discriminate.
Qed.

(** C8 (the code on the failing inputs). A picture 480 pixels wide with
    the user width 123: the scale 123/480 is rounded, its product with 480
    falls just below 123, and the width resolved by a successful [Init]
    is 122. *)
Theorem Init_user_width_one_short (env : Env) (st st' : viz.State)
    (firstFrame : image.Image) (imgFmt : string) :
  viz.Init env st = (st', Ok tt) ->
  image_Decode env (viz.Filename (viz.img st)) = Ok (firstFrame, imgFmt) ->
  image.X (image.Max (image.Bounds firstFrame)) = 480 ->
  viz.UserWidth (viz.img st) = 123 ->
  viz.w (viz.img st') = 122.
Proof.
  intros Hrun Hdec Hiw Huser.
  apply Init_inv in Hrun
    as (firstFrame' & imgFmt' & scale & st2 & Hdec' & Hscale & Himg & Hrun).
  rewrite Hdec in Hdec'. inversion Hdec'; subst firstFrame' imgFmt'; clear Hdec'.
  rewrite Hiw, Huser in Hscale. rewrite Hiw in Himg.
  unfold viz.identify_scale in Hscale. change (0 <? 123) with true in Hscale.
  cbv iota in Hscale. inversion Hscale; subst scale; clear Hscale.
  apply scale_frames_size in Hrun as [-> _]. rewrite Himg. cbn [viz.w viz.set_h viz.set_w].
  vm_compute. reflexivity.
Qed.

Lemma Init_user_width_one_short_witness :
  viz.UserWidth fake.wide_image = 123
  /\ viz.w (viz.img (fst (viz.Init fake.wide_env (viz.new_state fake.wide_image))))
     = 122.
Proof.
  split; [reflexivity|].
  apply (Init_user_width_one_short fake.wide_env (viz.new_state fake.wide_image)
           _ (fake.solid 480 360 fake.red) "png").
  - apply run_Ok. vm_compute. reflexivity.
  - reflexivity.
  - reflexivity.
  - reflexivity.
Defined.

(** With a user width the terminal is not asked: the scale does not depend
    on what [tput] would answer. *)
Lemma identify_scale_user_width (env env' : Env) (imgFmt : string)
    (LoopCount UserWidth iw ih : Z) :
  0 < UserWidth ->
  viz.identify_scale env imgFmt LoopCount UserWidth iw ih
  = Ok (float64.quo (float64.of_int UserWidth) (float64.of_int iw))
  /\ viz.identify_scale env' imgFmt LoopCount UserWidth iw ih
     = viz.identify_scale env imgFmt LoopCount UserWidth iw ih.
Proof.
  intros Huser. unfold viz.identify_scale.
  apply Z.ltb_lt in Huser. now rewrite Huser.
Qed.

(** ** The delay kept with a frame *)

(** The delay of a still picture is 0 whatever the finite multiplier. *)
Lemma render_delay_zero (env : Env) (m : float64.t) :
  float64.is_finite m = true -> viz.render_delay env 0 m = 0.
Proof. destruct m as [s|s| |s mm e]; intros Hm; try discriminate; reflexivity. Qed.

(** Line 127 on a source delay of 10*d milliseconds multiplies d itself. *)
Lemma render_delay_hundredths (env : Env) (d : Z) (m : float64.t) :
  0 <= d -> 10 * d < 2 ^ 53 ->
  viz.render_delay env (goint.mul d 10) m
  = float64.to_int (indefinite env)
      (math.Ceil (float64.mul (float64.of_int d) m)).
Proof.
  intros Hd Hbound. unfold viz.render_delay, viz.scaled_delay, goint.mul.
  rewrite wrap_small by lia.
  replace (d * 10) with (10 * d) by lia.
  now rewrite round.quo_ten.
Qed.

(** With a multiplier that is not negative, the delay kept for a source
    delay that is not negative is not negative, as long as the scaled
    delay fits an int. *)
Lemma render_delay_nonneg (env : Env) (delayMS : Z) (m : float64.t) :
  0 <= delayMS -> float64.signbit m = false ->
  float64.fits_int (viz.scaled_delay delayMS m) = true ->
  0 <= viz.render_delay env delayMS m.
Proof.
  intros Hd Hm Hfits. apply sign.to_int_nonneg; [|exact Hfits].
  apply sign.Ceil_sign.
  apply (sign.mul_sign false false).
  - apply (sign.quo_sign false false); [now apply sign.of_int_sign | reflexivity].
  - destruct m; cbn in *; auto.
Qed.

(** The delay kept for a source delay of d hundredths of a second is the
    least integer not below the double [float64(d) * m], when that
    product is finite and its ceiling fits an int. *)
Lemma render_delay_exact (env : Env) (d : Z) (m : float64.t) :
  0 <= d -> 10 * d < 2 ^ 53 ->
  float64.is_finite (float64.mul (float64.of_int d) m) = true ->
  goint.min_int <= exact.ceil (float64.mul (float64.of_int d) m)
    <= goint.max_int ->
  viz.render_delay env (goint.mul d 10) m
  = exact.ceil (float64.mul (float64.of_int d) m).
Proof.
  intros Hd Hbound Hfin Hrange.
  rewrite render_delay_hundredths by assumption.
  apply rounding.to_int_Ceil; [exact Hfin | | exact Hrange].
  intros s mm e Hp. eapply rounding.mul_bounded, Hp.
Qed.

(** The delay kept for the source delay 0: 0 times an infinity or a NaN
    is a NaN, and what [int] makes of a NaN is left to the
    implementation. *)
Lemma render_delay_still (env : Env) (m : float64.t) :
  viz.render_delay env 0 m
  = if float64.is_finite m then 0 else goint.wrap (indefinite env S754_nan).
Proof. destruct m as [s|s| |s mm e]; reflexivity. Qed.

(** Delays given frame by frame, and as a list. *)
Lemma delays_Forall2 (f : Z -> Z) (R : viz.frame -> Z -> Prop)
    (fs : list viz.frame) (ds : list Z) :
  map viz.delay fs = map f ds ->
  Forall (fun d => forall fr, viz.delay fr = f d -> R fr d) ds ->
  Forall2 R fs ds.
Proof.
  revert ds. induction fs as [|fr fs IH]; intros [|d ds] Hmap Hall;
    try discriminate; constructor;
    inversion Hmap; inversion Hall; subst; auto.
Qed.

Lemma Forall2_delays (f : Z -> Z) (R : viz.frame -> Z -> Prop)
    (fs : list viz.frame) (ds : list Z) :
  Forall2 R fs ds ->
  Forall (fun d => forall fr, R fr d -> viz.delay fr = f d) ds ->
  map viz.delay fs = map f ds.
Proof.
  induction 1 as [|fr d fs ds Hfr _ IH]; intros Hall; [reflexivity|].
  inversion Hall as [|d0 ds0 Hd Hds]; subst. cbn [map].
  rewrite (Hd fr Hfr), (IH Hds). reflexivity.
Qed.

(** C6 (amended). For a source that is not a GIF, and for a GIF with loop
    count 0 (or below), a successful [Init] on a fresh [Image] leaves
    exactly one frame.  Its index buffer has, in column x and row y, the
    byte of the palette index of pixel (x, y) of the first decoded
    picture resized to the resolved size.  Its delay is 0 when the delay
    multiplier is finite; for an infinite or NaN multiplier it is
    [int(NaN)], which the implementation chooses.  The loop count is set
    to 1 whatever it was. *)
Theorem Init_single_picture (env : Env) (st st' : viz.State)
    (firstFrame : image.Image) (imgFmt : string) :
  viz.Init env st = (st', Ok tt) ->
  viz.frames (viz.img st) = [] ->
  image_Decode env (viz.Filename (viz.img st)) = Ok (firstFrame, imgFmt) ->
  imgFmt <> "gif" \/ viz.LoopCount (viz.img st) <= 0 ->
  viz.frames (viz.img st')
  = [ {| viz.picture :=
           map (fun x =>
                  map (fun y =>
                         goint.to_uint8
                           (Colors_Index env
                              (image.At
                                 (Resize env (goint.to_uint (viz.w (viz.img st')))
                                    (goint.to_uint (viz.h (viz.img st')))
                                    firstFrame)
                                 x y)))
                      (seqZ 0 (viz.h (viz.img st'))))
               (seqZ 0 (viz.w (viz.img st')));
         viz.delay :=
           if float64.is_finite (viz.DelayMultiplier (viz.img st)) then 0
           else goint.wrap (indefinite env S754_nan) |} ]
  /\ viz.LoopCount (viz.img st') = 1.
Proof.
  intros Hrun Hfresh Hdec Hstill.
  apply Init_inv in Hrun
    as (firstFrame' & imgFmt' & scale & st2 & Hdec' & _ & Himg & Hrun).
  rewrite Hdec in Hdec'. inversion Hdec'; subst firstFrame' imgFmt'; clear Hdec'.
  apply scale_frames_inv in Hrun
    as [(Hanim & _) | (_ & pic & Hpic & Hfinal)].
  { exfalso. rewrite Himg in Hanim. cbn in Hanim.
    apply andb_true_iff in Hanim as [Hgif Hloops].
    apply String.eqb_eq in Hgif. apply Z.ltb_lt in Hloops.
    destruct Hstill; [contradiction | lia]. }
  rewrite Hfinal, Himg. cbn. rewrite Himg in Hpic. cbn in Hpic.
  rewrite Hfresh. cbn. split; [|reflexivity].
  rewrite render_delay_still. do 2 f_equal.
  unfold viz.quantize in Hpic.
  destruct (_ <? 0) in Hpic; [discriminate|].
  destruct (_ && _) in Hpic; [discriminate|].
  now inversion Hpic.
Qed.

Lemma Init_single_picture_witness :
  viz.frames (viz.img (fst (viz.Init fake.png_env (viz.new_state fake.png_image))))
  = [ {| viz.picture := replicate 100 (replicate 5 196); viz.delay := 0 |} ]
  /\ viz.LoopCount
       (viz.img (fst (viz.Init fake.png_env (viz.new_state fake.png_image)))) = 1.
Proof.
  destruct (Init_single_picture fake.png_env (viz.new_state fake.png_image)
              (fst (viz.Init fake.png_env (viz.new_state fake.png_image)))
              fake.still "png")
    as [Hframes Hloops].
  - apply run_Ok. vm_compute. reflexivity.
  - reflexivity.
  - reflexivity.
  - left. discriminate.
  - split; [|exact Hloops]. rewrite Hframes. vm_compute. reflexivity.
Defined.

(** C6 as stated fails for a multiplier that is not finite: with the
    multiplier +Inf the delay of the one frame of a PNG is [int(NaN)],
    the least int on amd64, and not 0. *)
Lemma Init_single_picture_infinite_multiplier_counterexample :
  ~ (forall (env : Env) (st st' : viz.State) (firstFrame : image.Image)
            (imgFmt : string),
       viz.Init env st = (st', Ok tt) ->
       viz.frames (viz.img st) = [] ->
       image_Decode env (viz.Filename (viz.img st)) = Ok (firstFrame, imgFmt) ->
       imgFmt <> "gif" \/ viz.LoopCount (viz.img st) = 0 ->
       exists pic,
         viz.frames (viz.img st')
         = [ {| viz.picture := pic; viz.delay := 0 |} ]
         /\ viz.LoopCount (viz.img st') = 1).
Proof.
  intros Hall.
  destruct (Hall fake.png_env (viz.new_state scene.infinite_multiplier)
              (fst (viz.Init fake.png_env
                      (viz.new_state scene.infinite_multiplier)))
              fake.still "png")
    as (pic & Hframes & _).
  - apply run_Ok. vm_compute. reflexivity.
  - reflexivity.
  - reflexivity.
  - left. discriminate.
  - apply (f_equal (map viz.delay)) in Hframes.
    vm_compute in Hframes. discriminate.
Qed.

(** C7 (amended). For a GIF that is played there is one frame per picture,
    and the delay kept with the i-th frame comes from the i-th source
    delay d (hundredths of a second, passed on as 10*d milliseconds; the
    division by 10.0 gives d back exactly): with p the double
    [float64(d) * m], the product rounded to the nearest double, the
    delay is the least integer not below p, whenever p is finite and
    that integer fits an int. *)
Theorem Init_animation_delays (env : Env) (st st' : viz.State)
    (firstFrame : image.Image) (g : gif.GIF) :
  viz.Init env st = (st', Ok tt) ->
  viz.frames (viz.img st) = [] ->
  image_Decode env (viz.Filename (viz.img st)) = Ok (firstFrame, "gif") ->
  0 < viz.LoopCount (viz.img st) ->
  gif_DecodeAll env (viz.Filename (viz.img st)) = Ok g ->
  Forall (fun d => 0 <= d /\ 10 * d < 2 ^ 53) (gif.Delay g) ->
  length (viz.frames (viz.img st')) = length (gif.Image g)
  /\ Forall2
       (fun fr d =>
          float64.is_finite
            (float64.mul (float64.of_int d) (viz.DelayMultiplier (viz.img st)))
          = true ->
          goint.min_int
          <= exact.ceil
               (float64.mul (float64.of_int d) (viz.DelayMultiplier (viz.img st)))
          <= goint.max_int ->
          viz.delay fr
          = exact.ceil
              (float64.mul (float64.of_int d) (viz.DelayMultiplier (viz.img st))))
       (viz.frames (viz.img st'))
       (take (length (gif.Image g)) (gif.Delay g)).
Proof.
  intros Hrun Hfresh Hdec Hloops Hg Hdelays.
  apply Init_inv in Hrun
    as (firstFrame' & imgFmt' & scale & st2 & Hdec' & _ & Himg & Hrun).
  rewrite Hdec in Hdec'. inversion Hdec'; subst firstFrame' imgFmt'; clear Hdec'.
  apply scale_frames_inv in Hrun
    as [(_ & g' & fs & Hg' & Hfinal & _ & Hfs & Hlen) | (Hstill & _)].
  2:{ exfalso. rewrite Himg in Hstill. cbn in Hstill.
      apply Z.ltb_lt in Hloops. rewrite Hloops in Hstill. discriminate. }
  rewrite Himg in Hg', Hfs. cbn in Hg', Hfs.
  rewrite Hg in Hg'. inversion Hg'; subst g'; clear Hg'.
  rewrite Hfinal, Himg. cbn. rewrite Hfresh. cbn.
  split; [exact Hlen|].
  eapply delays_Forall2; [exact Hfs|].
  apply (Forall_take _ (length (gif.Image g))) in Hdelays.
  eapply Forall_impl; [exact Hdelays|]. cbn.
  intros d [Hd0 Hd1] fr -> Hfin Hrange.
  now apply render_delay_exact.
Qed.

Lemma Init_animation_delays_witness :
  map viz.delay
    (viz.frames
       (viz.img (fst (viz.Init fake.anim_env
                        (viz.new_state (fake.anim_image fake.half))))))
  = [3; 3; 3].
Proof.
  destruct (Init_animation_delays fake.anim_env
              (viz.new_state (fake.anim_image fake.half))
              (fst (viz.Init fake.anim_env
                      (viz.new_state (fake.anim_image fake.half))))
              (fake.solid 1 2 fake.red) fake.three_frames)
    as [_ Hall].
  - apply run_Ok. vm_compute. reflexivity.
  - reflexivity.
  - reflexivity.
  - reflexivity.
  - reflexivity.
  - repeat constructor; vm_compute; discriminate.
  - rewrite (Forall2_delays
               (fun d => exact.ceil (float64.mul (float64.of_int d) fake.half))
               _ _ _ Hall).
    + vm_compute. reflexivity.
    + cbn [take length gif.Image gif.Delay fake.three_frames fake.animation map].
      repeat (apply Forall_cons_2;
                [intros fr Hfr; apply Hfr;
                 [vm_compute; reflexivity | vm_compute; split; discriminate]|]).
      apply Forall_nil_2.
Defined.

(** C7 as stated fails when the product d * m is not a double: the
    multiplier 0.1 is the double just above one tenth, so 10 * m is just
    above 1 and its ceiling is 2; the product rounds to 1.0, and the
    delay kept for a source delay of 10 is 1. *)
Lemma Init_animation_delay_counterexample :
  ~ (forall (env : Env) (st st' : viz.State) (firstFrame : image.Image)
            (g : gif.GIF),
       viz.Init env st = (st', Ok tt) ->
       viz.frames (viz.img st) = [] ->
       image_Decode env (viz.Filename (viz.img st)) = Ok (firstFrame, "gif") ->
       0 < viz.LoopCount (viz.img st) ->
       gif_DecodeAll env (viz.Filename (viz.img st)) = Ok g ->
       Forall (fun d => 0 <= d <= 65535) (gif.Delay g) ->
       float64.is_finite (viz.DelayMultiplier (viz.img st)) = true ->
       map viz.delay (viz.frames (viz.img st'))
       = map (fun d => exact.ceil_times d (viz.DelayMultiplier (viz.img st)))
           (take (length (gif.Image g)) (gif.Delay g))).
Proof.
  intros Hall.
  specialize (Hall scene.tenth_env
                (viz.new_state (fake.anim_image scene.tenth))
                (fst (viz.Init scene.tenth_env
                        (viz.new_state (fake.anim_image scene.tenth))))
                (fake.solid 1 2 fake.red) scene.ten_hundredths).
  assert (map viz.delay
            (viz.frames
               (viz.img (fst (viz.Init scene.tenth_env
                                (viz.new_state (fake.anim_image scene.tenth))))))
          = [2]) as Hdelays.
  { rewrite Hall.
    - vm_compute. reflexivity.
    - apply run_Ok. vm_compute. reflexivity.
    - reflexivity.
    - reflexivity.
    - reflexivity.
    - reflexivity.
    - repeat constructor; vm_compute; discriminate.
    - reflexivity. }
  vm_compute in Hdelays. discriminate.
Qed.

(** ** Every frame of a prepared image *)

(** C9 (amended). After a successful [Init] on a fresh [Image] every frame
    has an index buffer of the resolved width and height.  A frame's
    delay is >= 0 when the sign bit of the multiplier is clear and, with
    d the source delay of that very frame (0 for a single picture, the
    frame's own 16-bit GIF delay for an animation), the double
    [float64(d) * m] is finite and the least integer not below it fits
    an int. *)
Theorem Init_frames_size_and_delay (env : Env) (st st' : viz.State)
    (firstFrame : image.Image) (imgFmt : string) :
  viz.Init env st = (st', Ok tt) ->
  viz.frames (viz.img st) = [] ->
  image_Decode env (viz.Filename (viz.img st)) = Ok (firstFrame, imgFmt) ->
  let never_negative (fr : viz.frame) (d : Z) :=
    0 <= d <= 65535 ->
    float64.signbit (viz.DelayMultiplier (viz.img st)) = false ->
    float64.is_finite
      (float64.mul (float64.of_int d) (viz.DelayMultiplier (viz.img st)))
    = true ->
    exact.ceil (float64.mul (float64.of_int d) (viz.DelayMultiplier (viz.img st)))
    <= goint.max_int ->
    0 <= viz.delay fr in
  Forall (fun fr =>
            has_size (viz.w (viz.img st')) (viz.h (viz.img st')) (viz.picture fr))
    (viz.frames (viz.img st'))
  /\ (imgFmt <> "gif" \/ viz.LoopCount (viz.img st) <= 0 ->
      Forall2 never_negative (viz.frames (viz.img st')) [0])
  /\ (forall g,
        imgFmt = "gif" -> 0 < viz.LoopCount (viz.img st) ->
        gif_DecodeAll env (viz.Filename (viz.img st)) = Ok g ->
        Forall2 never_negative (viz.frames (viz.img st'))
          (take (length (gif.Image g)) (gif.Delay g))).
Proof.
  intros Hrun Hfresh Hdec never_negative.
  apply Init_inv in Hrun
    as (firstFrame' & imgFmt' & scale & st2 & Hdec' & _ & Himg & Hrun).
  rewrite Hdec in Hdec'. inversion Hdec'; subst firstFrame' imgFmt'; clear Hdec'.
  assert (forall d fr,
            viz.delay fr
            = viz.render_delay env (goint.mul d 10)
                (viz.DelayMultiplier (viz.img st)) ->
            never_negative fr d) as Hdelay.
  { intros d fr Hfr Hd Hm Hfin Hfits.
    assert (0 <= exact.ceil
                   (float64.mul (float64.of_int d)
                      (viz.DelayMultiplier (viz.img st)))) as Hpos.
    { apply rounding.ceil_nonneg.
      apply (sign.mul_sign false false); [apply sign.of_int_sign; lia|].
      destruct (viz.DelayMultiplier (viz.img st)); cbn in *; auto. }
    rewrite Hfr, render_delay_exact; try assumption; try lia.
    unfold goint.min_int. lia. }
  apply scale_frames_inv in Hrun
    as [(Hplayed & g & fs & Hg & Hfinal & Hsizes & Hfs & _)
       | (Hstill & pic & Hpic & Hfinal)];
    rewrite Hfinal, Himg; rewrite Himg in *; cbn in *; rewrite Hfresh; cbn.
  - apply andb_true_iff in Hplayed as [Hgif Hloops].
    apply String.eqb_eq in Hgif. apply Z.ltb_lt in Hloops.
    split; [exact Hsizes|]. split.
    + intros [Hfmt|Hzero]; [contradiction|lia].
    + intros g' _ _ Hg'. rewrite Hg in Hg'. inversion Hg'; subst g'.
      eapply delays_Forall2; [exact Hfs|].
      apply Forall_forall. intros d _ fr Hfr. now apply Hdelay.
  - split; [|split].
    + constructor; [|constructor]. cbn. eapply quantize_size, Hpic.
    + intros _. constructor; [|constructor]. now apply Hdelay.
    + intros g -> Hloops _. exfalso. apply Z.ltb_lt in Hloops.
      rewrite Hloops in Hstill. discriminate.
Qed.

Lemma Init_frames_size_and_delay_witness :
  Forall (fun fr =>
            has_size
              (viz.w (viz.img (fst (viz.Init fake.anim_env
                                      (viz.new_state (fake.anim_image fake.half))))))
              (viz.h (viz.img (fst (viz.Init fake.anim_env
                                      (viz.new_state (fake.anim_image fake.half))))))
              (viz.picture fr)
            /\ 0 <= viz.delay fr)
    (viz.frames
       (viz.img (fst (viz.Init fake.anim_env
                        (viz.new_state (fake.anim_image fake.half)))))).
Proof.
  destruct (Init_frames_size_and_delay fake.anim_env
              (viz.new_state (fake.anim_image fake.half))
              (fst (viz.Init fake.anim_env
                      (viz.new_state (fake.anim_image fake.half))))
              (fake.solid 1 2 fake.red) "gif")
    as (Hsizes & _ & Hdelays).
  - apply run_Ok. vm_compute. reflexivity.
  - reflexivity.
  - reflexivity.
  - apply Forall_and. split; [exact Hsizes|].
    eapply Forall2_Forall_l;
      [exact (Hdelays fake.three_frames eq_refl eq_refl eq_refl)|].
    cbn [take length gif.Image gif.Delay fake.three_frames fake.animation map].
    repeat (apply Forall_cons_2;
              [intros fr Hfr; apply Hfr;
               [ split; discriminate | reflexivity
               | vm_compute; reflexivity | vm_compute; discriminate ]|]).
    apply Forall_nil_2.
Defined.

(** C9 as stated fails for a negative multiplier: with the multiplier -1.0
    a GIF whose frames last 5 hundredths of a second is prepared with the
    delay -5 for every frame. *)
Lemma Init_negative_delay_counterexample :
  ~ (forall (env : Env) (st st' : viz.State),
       viz.Init env st = (st', Ok tt) ->
       viz.frames (viz.img st) = [] ->
       (forall g, gif_DecodeAll env (viz.Filename (viz.img st)) = Ok g ->
                  Forall (fun d => 0 <= d <= 65535) (gif.Delay g)) ->
       Forall (fun fr =>
                 has_size (viz.w (viz.img st')) (viz.h (viz.img st'))
                   (viz.picture fr)
                 /\ 0 <= viz.delay fr)
         (viz.frames (viz.img st'))).
Proof.
  intros Hall.
  specialize (Hall fake.anim_env
                (viz.new_state (fake.anim_image fake.minus_one))
                (fst (viz.Init fake.anim_env
                        (viz.new_state (fake.anim_image fake.minus_one))))).
  assert (Forall (fun fr => 0 <= viz.delay fr)
            (viz.frames
               (viz.img (fst (viz.Init fake.anim_env
                                (viz.new_state (fake.anim_image fake.minus_one)))))))
    as Hdelays.
  { eapply Forall_impl; [apply Hall|].
    - apply run_Ok. vm_compute. reflexivity.
    - reflexivity.
    - intros g Hg. inversion Hg; subst g.
      repeat constructor; vm_compute; discriminate.
    - intros fr [_ Hfr]. exact Hfr. }
  vm_compute in Hdelays. inversion Hdelays as [|fr frs Hneg _]. now apply Hneg.
Qed.

(** ** Disposal *)

(** The variables [prev] and [canvas] never hold different canvases: what
    the [switch] yields is a canvas and either nil or that same canvas. *)
Lemma dispose_aliases (disposal iw ih : Z) (canvas : nat) (prev : option nat)
    (st st' : viz.State) (canvas' : nat) (prev' : option nat) :
  prev = None \/ prev = Some canvas ->
  viz.dispose disposal iw ih canvas prev st = (st', Ok (canvas', prev')) ->
  prev' = None \/ prev' = Some canvas'.
Proof.
  intros Halias. unfold viz.dispose.
  destruct (disposal =? gif.DisposalBackground).
  { unfold bind, viz.NewRGBA, ret. intros Hrun. inversion Hrun. now right. }
  destruct (disposal =? gif.DisposalNone).
  { unfold ret. intros Hrun. inversion Hrun. now right. }
  destruct (disposal =? gif.DisposalPrevious).
  - destruct Halias as [-> | ->]; unfold ret; intros Hrun; inversion Hrun; subst;
      [now left | now right].
  - unfold ret. intros Hrun. inversion Hrun; subst. exact Halias.
Qed.

(** Hence restore-to-previous changes nothing: the canvas stays the one
    that was drawn on, drawing included. *)
Lemma dispose_previous_restores_nothing (iw ih : Z) (canvas : nat)
    (prev : option nat) (st : viz.State) :
  prev = None \/ prev = Some canvas ->
  viz.dispose gif.DisposalPrevious iw ih canvas prev st
  = (st, Ok (canvas, prev)).
Proof. intros [-> | ->]; reflexivity. Qed.

(** A successful [Init] on a GIF that is played, up to the loop over the
    frames. *)
Lemma Init_gif_inv (env : Env) (st st' : viz.State) (firstFrame : image.Image)
    (g : gif.GIF) :
  viz.Init env st = (st', Ok tt) ->
  viz.frames (viz.img st) = [] ->
  image_Decode env (viz.Filename (viz.img st)) = Ok (firstFrame, "gif") ->
  0 < viz.LoopCount (viz.img st) ->
  gif_DecodeAll env (viz.Filename (viz.img st)) = Ok g ->
  exists st2 wd st3,
    viz.frames (viz.img st2) = []
    /\ viz.w (viz.img st2) = viz.w (viz.img st')
    /\ viz.h (viz.img st2) = viz.h (viz.img st')
    /\ viz.composite env g (image.Width (gif.Config g))
         (image.Height (gif.Config g)) (gif.Image g) 0 (viz.next st2) None
         {| viz.img := viz.img st2; viz.world := wd;
            viz.heap :=
              <[viz.next st2 :=
                  image.blank
                    (image.Rect 0 0 (image.Width (gif.Config g))
                       (image.Height (gif.Config g)))]> (viz.heap st2);
            viz.next := S (viz.next st2) |}
       = (st3, Ok tt)
    /\ viz.img st' = viz.img st3.
Proof.
  intros Hrun Hfresh Hdec Hloops Hg.
  apply Init_inv in Hrun
    as (firstFrame' & imgFmt' & scale & st2 & Hdec' & _ & Himg & Hrun).
  rewrite Hdec in Hdec'. inversion Hdec'; subst firstFrame' imgFmt'; clear Hdec'.
  pose proof (scale_frames_size _ _ _ _ _ Hrun) as [Hw Hh].
  apply (scale_frames_gif_inv env firstFrame g) in Hrun
    as (wd & st3 & Hloop & Hfinal);
    [| now rewrite Himg | now rewrite Himg].
  exists st2, wd, st3. repeat split; try assumption; try congruence.
  now rewrite Himg.
Qed.

(** Runs one turn of the loop in H, on a canvas whose content is found by
    looking up the last store. *)
Ltac turn H pic Hpic :=
  let Hdisp := fresh "Hdisp" in
  let Hcp := fresh "Hcp" in
  let d := fresh "d" in
  let disposal := fresh "disposal" in
  let st1 := fresh "st" in
  let cp := fresh "cp" in
  eapply composite_cons_inv in H
    as (pic & d & disposal & st1 & cp & Hpic & Hdisp & Hcp & H);
  [| cbn [viz.heap]; apply lookup_insert_eq ];
  match goal with
  | Hd : gif.Disposal _ = _ |- _ => rewrite Hd in Hdisp
  end;
  cbn in Hdisp; inversion Hdisp; subst disposal; clear Hdisp;
  cbn in Hcp; unfold bind, viz.NewRGBA, ret in Hcp;
  inversion Hcp; subst st1 cp; clear Hcp;
  cbn [fst snd viz.img viz.w viz.h viz.set_frames viz.frames] in H, Hpic.

(** C3. For a GIF of two frames that is played, frame 0 with disposal
    restore-to-background and frame 1 with disposal none, a successful
    [Init] on a fresh [Image] keeps two frames, and the second is the
    index buffer of frame 1 drawn over a blank canvas of the size of the
    animation: after frame 0 the variable [canvas] points to a fresh
    [image.NewRGBA], so nothing of frame 0 is under frame 1. *)
Theorem Init_background_then_none (env : Env) (st st' : viz.State)
    (firstFrame : image.Image) (g : gif.GIF) (f0 f1 : image.Image) :
  let rc := image.Rect 0 0 (image.Width (gif.Config g))
              (image.Height (gif.Config g)) in
  let over_blank f :=
    image.RGBA_Image (draw.Draw (image.blank rc) rc f image.ZP) in
  let resized f :=
    Resize env (goint.to_uint (viz.w (viz.img st')))
      (goint.to_uint (viz.h (viz.img st'))) (over_blank f) in
  viz.Init env st = (st', Ok tt) ->
  viz.frames (viz.img st) = [] ->
  image_Decode env (viz.Filename (viz.img st)) = Ok (firstFrame, "gif") ->
  0 < viz.LoopCount (viz.img st) ->
  gif_DecodeAll env (viz.Filename (viz.img st)) = Ok g ->
  gif.Image g = [f0; f1] ->
  gif.Disposal g = [gif.DisposalBackground; gif.DisposalNone] ->
  exists fr0 fr1,
    viz.frames (viz.img st') = [fr0; fr1]
    /\ viz.quantize env (resized f0) (viz.w (viz.img st')) (viz.h (viz.img st'))
       = Ok (viz.picture fr0)
    /\ viz.quantize env (resized f1) (viz.w (viz.img st')) (viz.h (viz.img st'))
       = Ok (viz.picture fr1).
Proof.
  intros rc over_blank resized Hrun Hfresh Hdec Hloops Hg Hpictures Hdisposal.
  apply (Init_gif_inv env st st' firstFrame g) in Hrun
    as (st2 & wd & st3 & Hnone & Hw & Hh & Hloop & Hfinal); try assumption.
  subst resized over_blank. cbv beta. rewrite <- Hw, <- Hh, Hfinal.
  rewrite Hpictures in Hloop. fold rc in Hloop.
  turn Hloop pic0 Hpic0.
  turn Hloop pic1 Hpic1.
  cbn [viz.composite] in Hloop. unfold ret in Hloop.
  inversion Hloop; subst st3; clear Hloop.
  cbn. rewrite Hnone. cbn.
  eexists _, _. split; [reflexivity|]. cbn. split; assumption.
Qed.

Lemma Init_background_then_none_witness :
  exists fr0 fr1,
    viz.frames
      (viz.img (fst (viz.Init fake.steps_env
                       (viz.new_state (fake.anim_image float64.one)))))
    = [fr0; fr1]
    /\ Ok (viz.picture fr0) = Ok [[196]] /\ Ok (viz.picture fr1) = Ok [[16]].
Proof.
  destruct (Init_background_then_none fake.steps_env
              (viz.new_state (fake.anim_image float64.one))
              (fst (viz.Init fake.steps_env
                      (viz.new_state (fake.anim_image float64.one))))
              (fake.solid 1 2 fake.red) fake.two_steps
              (fake.solid 1 2 fake.red) (fake.solid 1 2 fake.clear))
    as (fr0 & fr1 & Hframes & Hpic0 & Hpic1).
  - apply run_Ok. vm_compute. reflexivity.
  - reflexivity.
  - reflexivity.
  - reflexivity.
  - reflexivity.
  - reflexivity.
  - reflexivity.
  - exists fr0, fr1. split; [exact Hframes|].
    rewrite <- Hpic0, <- Hpic1. split; vm_compute; reflexivity.
Defined.

(** C4 (the code on the failing inputs). For a GIF of three frames that is
    played, frame 0 with disposal none and frame 1 with disposal
    restore-to-previous, the third frame kept by a successful [Init] is
    the index buffer of frame 2 drawn over frame 1 over frame 0: [prev]
    and [canvas] hold the same pointer, so what was drawn after the
    remembering is still there after the restoring.  Had the canvas been
    restored to what it was when remembered, frame 2 would lie over frame
    0 alone. *)
Theorem Init_restore_previous_keeps_drawing (env : Env) (st st' : viz.State)
    (firstFrame : image.Image) (g : gif.GIF) (f0 f1 f2 : image.Image)
    (disposal2 : Z) :
  let rc := image.Rect 0 0 (image.Width (gif.Config g))
              (image.Height (gif.Config g)) in
  let remembered := draw.Draw (image.blank rc) rc f0 image.ZP in
  let drawn_on := draw.Draw remembered rc f1 image.ZP in
  let resized c :=
    Resize env (goint.to_uint (viz.w (viz.img st')))
      (goint.to_uint (viz.h (viz.img st'))) (image.RGBA_Image c) in
  viz.Init env st = (st', Ok tt) ->
  viz.frames (viz.img st) = [] ->
  image_Decode env (viz.Filename (viz.img st)) = Ok (firstFrame, "gif") ->
  0 < viz.LoopCount (viz.img st) ->
  gif_DecodeAll env (viz.Filename (viz.img st)) = Ok g ->
  gif.Image g = [f0; f1; f2] ->
  gif.Disposal g = [gif.DisposalNone; gif.DisposalPrevious; disposal2] ->
  exists fr0 fr1 fr2,
    viz.frames (viz.img st') = [fr0; fr1; fr2]
    /\ viz.quantize env (resized (draw.Draw drawn_on rc f2 image.ZP))
         (viz.w (viz.img st')) (viz.h (viz.img st'))
       = Ok (viz.picture fr2).
Proof.
  intros rc remembered drawn_on resized
    Hrun Hfresh Hdec Hloops Hg Hpictures Hdisposal.
  apply (Init_gif_inv env st st' firstFrame g) in Hrun
    as (st2 & wd & st3 & Hnone & Hw & Hh & Hloop & Hfinal); try assumption.
  subst resized drawn_on remembered. cbv beta. rewrite <- Hw, <- Hh, Hfinal.
  rewrite Hpictures in Hloop. fold rc in Hloop.
  turn Hloop pic0 Hpic0.
  turn Hloop pic1 Hpic1.
  eapply composite_cons_inv in Hloop
    as (pic2 & d2 & disposal & st4 & cp & Hpic2 & _ & Hcp & Hloop);
    [| cbn [viz.heap]; apply lookup_insert_eq ].
  apply dispose_inv in Hcp as [Himg _].
  cbn [viz.composite] in Hloop. unfold ret in Hloop.
  inversion Hloop; subst st3; clear Hloop.
  rewrite Himg. cbn. rewrite Hnone. cbn.
  eexists _, _, _. split; [reflexivity|]. cbn. exact Hpic2.
Qed.

Lemma Init_restore_previous_keeps_drawing_witness :
  exists fr0 fr1 fr2,
    viz.frames
      (viz.img (fst (viz.Init fake.anim_env
                       (viz.new_state (fake.anim_image float64.one)))))
    = [fr0; fr1; fr2]
    /\ Ok (viz.picture fr0) = Ok [[196]]
    /\ Ok (viz.picture fr2) = Ok [[46]].
Proof.
  destruct (Init_restore_previous_keeps_drawing fake.anim_env
              (viz.new_state (fake.anim_image float64.one))
              (fst (viz.Init fake.anim_env
                      (viz.new_state (fake.anim_image float64.one))))
              (fake.solid 1 2 fake.red) fake.three_frames
              (fake.solid 1 2 fake.red) (fake.solid 1 2 fake.green)
              (fake.solid 1 2 fake.clear) gif.DisposalNone)
    as (fr0 & fr1 & fr2 & Hframes & Hpic2).
  - apply run_Ok. vm_compute. reflexivity.
  - reflexivity.
  - reflexivity.
  - reflexivity.
  - reflexivity.
  - reflexivity.
  - reflexivity.
  - exists fr0, fr1, fr2. split; [exact Hframes|].
    rewrite <- Hpic2. split; [|vm_compute; reflexivity].
    assert (Some fr0
            = viz.frames
                (viz.img (fst (viz.Init fake.anim_env
                                 (viz.new_state (fake.anim_image float64.one)))))
              !! 0%nat) as Hfr0 by now rewrite Hframes.
    vm_compute in Hfr0. inversion Hfr0. reflexivity.
Defined.

(** ** Open files *)

(** C10 (the code on the failing inputs). Whenever the file opens and the
    decoder rejects it, [Init] returns the error of the decoder, and the
    handle it opened is still among the open files. *)
Theorem Init_decode_error_leaves_file_open (env : Env) (st : viz.State)
    (e : error) :
  open_error env (viz.Filename (viz.img st)) (os.opens (viz.world st)) = None ->
  image_Decode env (viz.Filename (viz.img st)) = Err e ->
  snd (viz.Init env st) = Err e
  /\ os.opens (viz.world st) ∈ os.open_files (viz.world (fst (viz.Init env st))).
Proof.
  intros Hopen Hdec.
  unfold viz.Init, viz.open_image, bind, get, viz.on_world, os.Open, lift.
  rewrite Hopen. cbn. rewrite Hdec. cbn. split; [reflexivity|].
  apply list_elem_of_here.
Qed.

Lemma Init_decode_error_leaves_file_open_witness :
  snd (viz.Init fake.broken_env (viz.new_state fake.png_image))
  = Err "image: unknown format"
  /\ 0%nat ∈ os.open_files
              (viz.world (fst (viz.Init fake.broken_env
                                 (viz.new_state fake.png_image)))).
Proof.
  apply (Init_decode_error_leaves_file_open fake.broken_env
           (viz.new_state fake.png_image) "image: unknown format").
  - reflexivity.
  - reflexivity.
Defined.

(** ** [Draw] on any sink *)

Section AnyWriter.

Context {S : Type} `{viz.Writer S}.

Lemma passes_no_frames (im : viz.Image) (n : nat) (vars : bool * Z) (s : S) :
  viz.frames im = [] -> viz.passes im n vars s = (s, Ok vars).
Proof.
  intros Hfs. induction n as [|n IH]; cbn [viz.passes]; [reflexivity|].
  rewrite Hfs at 1. unfold bind at 1. cbn [viz.pass]. unfold ret at 1.
  exact IH.
Qed.

(** X1. With a loop count of zero or less, or with no frames, [Draw] calls
    nothing on the sink but Close, and returns what Close returns. *)
Theorem Draw_nothing_to_show (im : viz.Image) (s : S) :
  viz.LoopCount im <= 0 \/ viz.frames im = [] ->
  viz.Draw im s = viz.checked viz.Close s.
Proof.
  intros [Hloops|Hfs]; unfold viz.Draw, bind at 1.
  - replace (Z.to_nat (viz.LoopCount im)) with 0%nat by lia. reflexivity.
  - now rewrite passes_no_frames.
Qed.

Lemma never_panics_ret {A} (x : A) : never_panics (ret (S := S) x).
Proof. intros s msg. discriminate. Qed.

Lemma never_panics_bind {A B} (c : M S A) (k : A -> M S B) :
  never_panics c -> (forall x, never_panics (k x)) -> never_panics (bind c k).
Proof.
  intros Hc Hk s msg. unfold bind. specialize (Hc s).
  destruct (c s) as [s1 [x|e|m]]; cbn in *.
  - apply Hk.
  - discriminate.
  - now destruct (Hc m).
Qed.

Lemma never_panics_checked (op : S -> S * option error) :
  never_panics (viz.checked op).
Proof.
  intros s msg. unfold viz.checked. now destruct (op s) as [s1 [e|]].
Qed.

Lemma never_panics_unchecked (op : S -> S * option error) :
  never_panics (viz.unchecked op).
Proof. intros s msg. discriminate. Qed.

Lemma never_panics_for_each {A} (l : list A) (body : A -> M S unit) :
  Forall (fun x => never_panics (body x)) l -> never_panics (for_each l body).
Proof.
  induction 1 as [|x l Hx _ IH]; cbn [for_each].
  - apply never_panics_ret.
  - apply never_panics_bind; [exact Hx | intros _; exact IH].
Qed.

Lemma never_panics_draw_rows (im : viz.Image) (fr : viz.frame) :
  has_size (viz.w im) (viz.h im) (viz.picture fr) ->
  never_panics (viz.draw_rows im fr).
Proof.
  intros Hsize. unfold viz.draw_rows.
  apply never_panics_for_each, Forall_forall. intros y Hy.
  apply elem_of_seqZ in Hy.
  apply never_panics_bind; [|intros _; apply never_panics_checked].
  apply never_panics_for_each, Forall_forall. intros x Hx.
  apply elem_of_seqZ in Hx.
  rewrite <- (Z2Nat.id x), <- (Z2Nat.id y) by lia.
  rewrite (pixel_in_range fr _ _ _ _ Hsize) by lia.
  apply never_panics_bind; [|intros idx; apply never_panics_unchecked].
  intros s msg. discriminate.
Qed.

Lemma never_panics_pass (im : viz.Image) (fs : list viz.frame) :
  Forall (fun fr => has_size (viz.w im) (viz.h im) (viz.picture fr)) fs ->
  forall vars, never_panics (viz.pass im fs vars).
Proof.
  induction 1 as [|fr fs Hfr _ IH]; intros vars; cbn [viz.pass].
  - apply never_panics_ret.
  - apply never_panics_bind.
    + destruct (fst vars); [|apply never_panics_ret].
      apply never_panics_bind; [|intros _]; apply never_panics_checked.
    + intros _. apply never_panics_bind.
      * now apply never_panics_draw_rows.
      * intros _. apply IH.
Qed.

Lemma never_panics_passes (im : viz.Image) (n : nat) :
  Forall (fun fr => has_size (viz.w im) (viz.h im) (viz.picture fr))
    (viz.frames im) ->
  forall vars, never_panics (viz.passes im n vars).
Proof.
  intros Hsizes. induction n as [|n IH]; intros vars; cbn [viz.passes].
  - apply never_panics_ret.
  - apply never_panics_bind; [now apply never_panics_pass | intros vars'; apply IH].
Qed.

(** X2. When every frame has the size of the image, [Draw] never panics:
    on any sink, in any state, it returns nil or an error, no index is out
    of range. *)
Theorem Draw_never_panics (im : viz.Image) (s : S) (msg : string) :
  Forall (fun fr => has_size (viz.w im) (viz.h im) (viz.picture fr))
    (viz.frames im) ->
  snd (viz.Draw im s) <> Panic msg.
Proof.
  intros Hsizes. revert s msg. unfold viz.Draw.
  apply never_panics_bind; [|intros _; apply never_panics_checked].
  now apply never_panics_passes.
Qed.

End AnyWriter.

Lemma Draw_nothing_to_show_witness :
  viz.Draw (viz.set_LoopCount (-1) fake.two_frames) sink.reliable
  = viz.checked viz.Close sink.reliable.
Proof.
  apply (Draw_nothing_to_show (viz.set_LoopCount (-1) fake.two_frames)
           sink.reliable).
  left. cbn. lia.
Defined.

Lemma Draw_never_panics_witness :
  snd (viz.Draw fake.two_frames sink.rejects_cells)
  <> Panic "index out of range".
Proof.
  apply (Draw_never_panics fake.two_frames sink.rejects_cells).
  repeat constructor.
Defined.

(** ** A whole playback on a recording sink *)

Lemma calls_app (w h : Z) (fs1 fs2 : list viz.frame) (done : bool) (d : Z) :
  playback.calls w h (fs1 ++ fs2) done d
  = playback.calls w h fs1 done d
    ++ playback.calls w h fs2 (fst (playback.after fs1 (done, d)))
         (snd (playback.after fs1 (done, d))).
Proof.
  revert done d. induction fs1 as [|fr fs1 IH]; intros done d; cbn.
  - reflexivity.
  - rewrite IH. now rewrite <- !app_assoc.
Qed.

Lemma after_app (fs1 fs2 : list viz.frame) (vars : bool * Z) :
  playback.after (fs1 ++ fs2) vars = playback.after fs2 (playback.after fs1 vars).
Proof. unfold playback.after. apply fold_left_app. Qed.

Section Playback.

Variable im : viz.Image.
Variable bad : sink.event -> bool.
Hypothesis spared : sink.spares_checked bad.
Hypothesis sized :
  Forall (fun fr => has_size (viz.w im) (viz.h im) (viz.picture fr))
    (viz.frames im).

Lemma pass_logged (fs : list viz.frame) :
  Forall (fun fr => has_size (viz.w im) (viz.h im) (viz.picture fr)) fs ->
  forall (done : bool) (d : Z) (l : list sink.event),
  viz.pass im fs (done, d) (sink.logged bad l)
  = (sink.logged bad (l ++ playback.calls (viz.w im) (viz.h im) fs done d),
     Ok (playback.after fs (done, d))).
Proof.
  induction 1 as [|fr fs Hfr _ IH]; intros done d l.
  - rewrite pass_nil. cbn. now rewrite app_nil_r.
  - rewrite (pass_cons_logged im bad spared fr fs done d l Hfr).
    rewrite IH. cbn [playback.calls playback.after fold_left].
    now rewrite <- !app_assoc.
Qed.

Lemma passes_logged (n : nat) :
  forall (done : bool) (d : Z) (l : list sink.event),
  viz.passes im n (done, d) (sink.logged bad l)
  = (sink.logged bad
       (l ++ playback.calls (viz.w im) (viz.h im)
               (concat (replicate n (viz.frames im))) done d),
     Ok (playback.after (concat (replicate n (viz.frames im))) (done, d))).
Proof.
  induction n as [|n IH]; intros done d l; cbn [viz.passes replicate concat].
  - cbn. now rewrite app_nil_r.
  - unfold bind at 1. rewrite (pass_logged _ sized). cbv beta iota.
    destruct (playback.after (viz.frames im) (done, d)) as [done' d'] eqn:Hvars.
    rewrite IH. rewrite calls_app, after_app, Hvars. cbn [fst snd].
    now rewrite <- app_assoc.
Qed.

Lemma Draw_logged :
  viz.Draw im (sink.logged bad []) = (sink.logged bad (playback.script im), Ok tt).
Proof.
  unfold viz.Draw, playback.script, playback.shown.
  unfold bind at 1. rewrite passes_logged. cbv beta iota.
  now rewrite (close_logged bad spared).
Qed.

End Playback.

(** X3. The order of a playback, for any loop count and any frames of
    the size of the image: on a sink whose checked calls succeed, [Draw]
    goes through the frame list once per pass; before every frame but the very first it moves the
    cursor up by the height and sleeps for the delay of the frame drawn
    before, also across the end of a pass; it closes the sink last and
    returns nil. *)
Theorem Draw_playback (im : viz.Image) (bad : sink.event -> bool) :
  sink.spares_checked bad ->
  Forall (fun fr => has_size (viz.w im) (viz.h im) (viz.picture fr))
    (viz.frames im) ->
  viz.Draw im (sink.logged bad [])
  = (sink.logged bad
       (playback.calls (viz.w im) (viz.h im)
          (concat (replicate (Z.to_nat (viz.LoopCount im)) (viz.frames im)))
          false 0
        ++ [sink.EvClose]),
     Ok tt).
Proof. intros Hbad Hsizes. now apply Draw_logged. Qed.

Lemma Draw_playback_witness :
  sink.log (fst (viz.Draw fake.two_frames sink.rejects_cells))
  = playback.calls 2 1
      (viz.frames fake.two_frames ++ viz.frames fake.two_frames) false 0
    ++ [sink.EvClose].
Proof.
  unfold sink.rejects_cells.
  rewrite (Draw_playback fake.two_frames sink.cell_writes).
  - reflexivity.
  - repeat split.
  - repeat constructor.
Defined.

(** *** Counting the calls *)

Lemma count_app (p : sink.event -> bool) (l1 l2 : list sink.event) :
  playback.count p (l1 ++ l2) = (playback.count p l1 + playback.count p l2)%nat.
Proof. unfold playback.count. now rewrite List.filter_app, length_app. Qed.

Lemma count_all (p : sink.event -> bool) (l : list sink.event) :
  Forall (fun ev => p ev = true) l -> playback.count p l = length l.
Proof.
  unfold playback.count. induction 1 as [|ev l Hev _ IH]; cbn; [reflexivity|].
  rewrite Hev. cbn. now rewrite IH.
Qed.

Lemma count_none (p : sink.event -> bool) (l : list sink.event) :
  Forall (fun ev => p ev = false) l -> playback.count p l = 0%nat.
Proof.
  unfold playback.count. induction 1 as [|ev l Hev _ IH]; cbn; [reflexivity|].
  now rewrite Hev.
Qed.

Lemma drawn_writes (w h : Z) (fr : viz.frame) :
  Forall (fun ev => playback.is_write ev = true) (sink.drawn w h fr).
Proof.
  unfold sink.drawn. apply Forall_flat_map, Forall_forall. intros y _.
  apply Forall_app. split; [|repeat constructor].
  apply Forall_fmap, Forall_forall. now intros x _.
Qed.

Lemma length_flat_map_const {A B} (f : A -> list B) (k : nat) (l : list A) :
  (forall x, length (f x) = k) -> length (flat_map f l) = (length l * k)%nat.
Proof.
  intros Hf. induction l as [|x l IH]; cbn; [reflexivity|].
  now rewrite length_app, Hf, IH.
Qed.

Lemma length_drawn (w h : Z) (fr : viz.frame) :
  length (sink.drawn w h fr) = (Z.to_nat h * S (Z.to_nat w))%nat.
Proof.
  unfold sink.drawn. rewrite (length_flat_map_const _ (S (Z.to_nat w))).
  - now rewrite length_seqZ.
  - intros y. rewrite length_app, length_map, length_seqZ. cbn. lia.
Qed.

(** The calls of a run of frames, by kind. *)
Lemma count_calls (w h : Z) (fs : list viz.frame) :
  forall (done : bool) (d : Z),
  playback.count playback.is_write (playback.calls w h fs done d)
  = (length fs * (Z.to_nat h * S (Z.to_nat w)))%nat
  /\ playback.count playback.is_line_up (playback.calls w h fs done d)
     = (if done then length fs else Nat.pred (length fs))
  /\ playback.count playback.is_sleep (playback.calls w h fs done d)
     = (if done then length fs else Nat.pred (length fs))
  /\ playback.count playback.is_close (playback.calls w h fs done d) = 0%nat.
Proof.
  induction fs as [|fr fs IH]; intros done d; cbn [playback.calls length].
  - now destruct done.
  - destruct (IH true (viz.delay fr)) as (Hw & Hu & Hs & Hc).
    rewrite !count_app, Hw, Hu, Hs, Hc.
    rewrite (count_all playback.is_write (sink.drawn w h fr)),
      length_drawn by apply drawn_writes.
    rewrite (count_none playback.is_line_up (sink.drawn w h fr)),
      (count_none playback.is_sleep (sink.drawn w h fr)),
      (count_none playback.is_close (sink.drawn w h fr))
      by (eapply Forall_impl; [apply drawn_writes|]; now intros []).
    destruct done; cbn; repeat split; lia.
Qed.

(** X4. How often [Draw] calls the sink: with n frames shown in all (the
    loop count times the number of frames), on a sink whose checked calls
    succeed, it sleeps and moves the cursor up n - 1 times each (never for
    n = 0), writes one cell per column and one line terminator for each
    row of each frame shown, and closes the sink once. *)
Theorem Draw_call_counts (im : viz.Image) (bad : sink.event -> bool) :
  sink.spares_checked bad ->
  Forall (fun fr => has_size (viz.w im) (viz.h im) (viz.picture fr))
    (viz.frames im) ->
  let log := sink.log (fst (viz.Draw im (sink.logged bad []))) in
  let n := (Z.to_nat (viz.LoopCount im) * length (viz.frames im))%nat in
  playback.count playback.is_sleep log = Nat.pred n
  /\ playback.count playback.is_line_up log = Nat.pred n
  /\ playback.count playback.is_write log
     = (n * (Z.to_nat (viz.h im) * S (Z.to_nat (viz.w im))))%nat
  /\ playback.count playback.is_close log = 1%nat.
Proof.
  intros Hbad Hsizes log n. subst log.
  rewrite (Draw_logged im bad Hbad Hsizes). cbn [fst sink.log sink.logged].
  unfold playback.script.
  destruct (count_calls (viz.w im) (viz.h im) (playback.shown im) false 0)
    as (Hw & Hu & Hs & Hc).
  assert (length (playback.shown im) = n) as Hn.
  { unfold playback.shown. subst n.
    induction (Z.to_nat (viz.LoopCount im)) as [|k IH]; cbn; [reflexivity|].
    now rewrite length_app, IH. }
  rewrite !count_app, Hw, Hu, Hs, Hc, Hn. cbn. repeat split; lia.
Qed.

Lemma Draw_call_counts_witness :
  playback.count playback.is_sleep
    (sink.log (fst (viz.Draw fake.two_frames sink.reliable))) = 3%nat
  /\ playback.count playback.is_write
       (sink.log (fst (viz.Draw fake.two_frames sink.reliable))) = 12%nat.
Proof.
  destruct (Draw_call_counts fake.two_frames sink.never) as (Hs & _ & Hw & _).
  - repeat split.
  - repeat constructor.
  - split; [exact Hs | exact Hw].
Defined.

(** ** A sink that fails

    Whatever calls fail, [Draw] makes the calls of its script up to the
    first checked call that fails, and returns the error of that call. *)

Lemma cut_app (bad : sink.event -> bool) (l1 l2 : list sink.event) :
  playback.cut bad (l1 ++ l2)
  = if snd (playback.cut bad l1) then playback.cut bad l1
    else (fst (playback.cut bad l1) ++ fst (playback.cut bad l2),
          snd (playback.cut bad l2)).
Proof.
  induction l1 as [|ev l1 IH]; cbn [app playback.cut].
  - cbn [playback.cut fst snd app]. now destruct (playback.cut bad l2).
  - destruct (playback.checked_call ev && bad ev); [reflexivity|].
    rewrite IH. destruct (playback.cut bad l1) as [l1' [|]]; reflexivity.
Qed.

Lemma cut_unchecked (bad : sink.event -> bool) (l : list sink.event) :
  Forall (fun ev => playback.checked_call ev = false) l ->
  playback.cut bad l = (l, false).
Proof.
  induction 1 as [|ev l Hev _ IH]; cbn [playback.cut]; [reflexivity|].
  now rewrite Hev, IH.
Qed.

Section Failing.

Variable im : viz.Image.
Variable bad : sink.event -> bool.

Lemma emits_ret {A} (x : A) : playback.emits bad (ret x) [] x.
Proof. intros l. cbn. now rewrite app_nil_r. Qed.

Lemma emits_bind {A B} (c : M sink.t A) (k : A -> M sink.t B)
    (L1 L2 : list sink.event) (x : A) (y : B) :
  playback.emits bad c L1 x -> playback.emits bad (k x) L2 y ->
  playback.emits bad (bind c k) (L1 ++ L2) y.
Proof.
  intros Hc Hk l. unfold bind. rewrite Hc, cut_app.
  destruct (playback.cut bad L1) as [L1' [|]]; cbn [fst snd]; [reflexivity|].
  rewrite Hk. now rewrite app_assoc.
Qed.

Lemma emits_checked (ev : sink.event) :
  playback.checked_call ev = true ->
  playback.emits bad (viz.checked (sink.call ev)) [ev] tt.
Proof.
  intros Hev l. unfold viz.checked, sink.call.
  cbn [sink.fails sink.log sink.logged playback.cut]. rewrite Hev.
  now destruct (bad ev).
Qed.

Lemma emits_draw_rows (fr : viz.frame) :
  has_size (viz.w im) (viz.h im) (viz.picture fr) ->
  playback.emits bad (viz.draw_rows im fr)
    (sink.drawn (viz.w im) (viz.h im) fr) tt.
Proof.
  intros Hsize. unfold viz.draw_rows, sink.drawn.
  assert (Forall (fun y => 0 <= y < viz.h im) (seqZ 0 (viz.h im))) as Hys.
  { apply Forall_forall. intros y Hy. apply elem_of_seqZ in Hy. lia. }
  induction Hys as [|y ys Hy _ IH]; cbn [for_each flat_map].
  - apply emits_ret.
  - apply (emits_bind _ _ _ _ tt); [|exact IH].
    apply (emits_bind _ _ _ _ tt); [|now apply emits_checked].
    intros l. rewrite cut_unchecked
      by (apply Forall_fmap, Forall_forall; now intros x _).
    cbn [fst snd]. rewrite seqZ_of_nat, <- (Z2Nat.id y) by lia.
    rewrite (cells_logged im bad fr (Z.to_nat y) _ l Hsize) by
      (try lia; apply Forall_forall; intros n Hn; apply elem_of_seq in Hn;
       destruct Hsize as [Hlen _]; lia).
    rewrite map_map. do 3 f_equal. apply map_ext. intros x.
    now rewrite !Nat2Z.id.
Qed.

Lemma emits_pass (fs : list viz.frame) :
  Forall (fun fr => has_size (viz.w im) (viz.h im) (viz.picture fr)) fs ->
  forall (done : bool) (d : Z),
  playback.emits bad (viz.pass im fs (done, d))
    (playback.calls (viz.w im) (viz.h im) fs done d)
    (playback.after fs (done, d)).
Proof.
  induction 1 as [|fr fs Hfr _ IH]; intros done d;
    cbn [viz.pass playback.calls fst snd].
  - apply emits_ret.
  - apply (emits_bind _ _ _ _ tt).
    + destruct done; [|apply emits_ret].
      apply (emits_bind _ _ [_] [_] tt); now apply emits_checked.
    + apply (emits_bind _ _ _ _ tt); [now apply emits_draw_rows|].
      apply IH.
Qed.

Lemma emits_passes (n : nat) :
  Forall (fun fr => has_size (viz.w im) (viz.h im) (viz.picture fr))
    (viz.frames im) ->
  forall (done : bool) (d : Z),
  playback.emits bad (viz.passes im n (done, d))
    (playback.calls (viz.w im) (viz.h im)
       (concat (replicate n (viz.frames im))) done d)
    (playback.after (concat (replicate n (viz.frames im))) (done, d)).
Proof.
  intros Hsizes. induction n as [|n IH]; intros done d;
    cbn [viz.passes replicate concat].
  - apply emits_ret.
  - rewrite calls_app, after_app.
    apply (emits_bind _ _ _ _ (playback.after (viz.frames im) (done, d))).
    + now apply emits_pass.
    + destruct (playback.after (viz.frames im) (done, d)) as [done' d'].
      apply IH.
Qed.

End Failing.

(** X5. A sink on which any calls may fail.  When every frame has the size
    of the image, [Draw] makes the calls of the playback in order up to
    and including the first checked call that fails (a line terminator,
    a cursor-up, a sleep or the close), returns the error of that call,
    and calls nothing after it; it returns nil exactly when no checked
    call fails, and then also the close is made. *)
Theorem Draw_stops_at_first_failure (im : viz.Image) (bad : sink.event -> bool) :
  Forall (fun fr => has_size (viz.w im) (viz.h im) (viz.picture fr))
    (viz.frames im) ->
  viz.Draw im (sink.logged bad [])
  = (sink.logged bad (fst (playback.cut bad (playback.script im))),
     if snd (playback.cut bad (playback.script im))
     then Err "sink failure" else Ok tt).
Proof.
  intros Hsizes. unfold viz.Draw, playback.script, playback.shown.
  apply (emits_bind bad _ _ _ [sink.EvClose] _ tt
           (emits_passes im bad _ Hsizes false 0)
           (emits_checked bad sink.EvClose eq_refl) []).
Qed.

Lemma Draw_stops_at_first_failure_witness :
  viz.Draw fake.two_frames (sink.logged (playback.sleep_fails 9) [])
  = (sink.logged (playback.sleep_fails 9)
       (sink.drawn 2 1 {| viz.picture := [[196]; [46]]; viz.delay := 7 |}
        ++ [sink.EvLineUp 1; sink.EvSleep 7]
        ++ sink.drawn 2 1 {| viz.picture := [[21]; [16]]; viz.delay := 9 |}
        ++ [sink.EvLineUp 1; sink.EvSleep 9]),
     Err "sink failure").
Proof.
  rewrite (Draw_stops_at_first_failure fake.two_frames (playback.sleep_fails 9)).
  - reflexivity.
  - repeat constructor.
Defined.

(** ** [Init], forwards

    What [Init] does for each answer of its collaborators, as equations. *)

Section InitRuns.

Context (env : Env).

Lemma open_image_run (st : viz.State) :
  viz.open_image env st
  = match open_error env (viz.Filename (viz.img st)) (os.opens (viz.world st)) with
    | Some e => (init.with_world (init.tried (viz.world st)) st, Err e)
    | None =>
        match image_Decode env (viz.Filename (viz.img st)) with
        | Ok decoded =>
            (init.with_world (init.closed (viz.world st)) st, Ok decoded)
        | Err e => (init.with_world (init.opened (viz.world st)) st, Err e)
        | Panic msg =>
            (init.with_world (init.opened (viz.world st)) st, Panic msg)
        end
    end.
Proof.
  unfold viz.open_image, bind, get, viz.on_world, os.Open, lift.
  destruct (open_error env _ _); [reflexivity|]. cbn [os.name].
  destruct (image_Decode env _); reflexivity.
Qed.

Lemma resolve_size_run (scale : float64.t) (iw ih : Z) (st : viz.State) :
  viz.resolve_size env scale iw ih st
  = (init.with_img (init.resized env scale iw ih (viz.img st)) st, Ok tt).
Proof. reflexivity. Qed.

(** [Init] up to the frames. *)
Lemma Init_run (st : viz.State) :
  viz.Init env st
  = match open_error env (viz.Filename (viz.img st)) (os.opens (viz.world st)) with
    | Some e => (init.with_world (init.tried (viz.world st)) st, Err e)
    | None =>
        match image_Decode env (viz.Filename (viz.img st)) with
        | Ok (firstFrame, imgFmt) =>
            let iw := image.X (image.Max (image.Bounds firstFrame)) in
            let ih := image.Y (image.Max (image.Bounds firstFrame)) in
            let st1 := init.with_world (init.closed (viz.world st)) st in
            match
              viz.identify_scale env imgFmt (viz.LoopCount (viz.img st))
                (viz.UserWidth (viz.img st)) iw ih
            with
            | Ok scale =>
                viz.scale_frames env firstFrame imgFmt
                  (init.with_img (init.resized env scale iw ih (viz.img st)) st1)
            | Err e => (st1, Err e)
            | Panic msg => (st1, Panic msg)
            end
        | Err e => (init.with_world (init.opened (viz.world st)) st, Err e)
        | Panic msg =>
            (init.with_world (init.opened (viz.world st)) st, Panic msg)
        end
    end.
Proof.
  unfold viz.Init. unfold bind at 1. rewrite open_image_run.
  destruct (open_error env _ _); [reflexivity|].
  destruct (image_Decode env _) as [[firstFrame imgFmt]|e|msg];
    [|reflexivity|reflexivity].
  unfold bind at 1. unfold get at 1. unfold bind at 1. unfold lift at 1.
  cbn [viz.img init.with_world].
  destruct (viz.identify_scale env _ _ _ _ _); [|reflexivity|reflexivity].
  unfold bind at 1. rewrite resolve_size_run. reflexivity.
Qed.

(** The frames of a still picture, and of an animation up to the loop
    over its pictures. *)
Lemma scale_frames_still (firstFrame : image.Image) (imgFmt : string)
    (st : viz.State) :
  String.eqb imgFmt "gif" && (0 <? viz.LoopCount (viz.img st)) = false ->
  viz.scale_frames env firstFrame imgFmt st
  = viz.appendImg env firstFrame 0
      (init.with_img (viz.set_LoopCount 1 (viz.img st)) st).
Proof.
  intros Hstill. unfold viz.scale_frames. unfold bind at 1. unfold get at 1.
  now rewrite Hstill.
Qed.

Lemma scale_frames_played (firstFrame : image.Image) (imgFmt : string)
    (st : viz.State) :
  String.eqb imgFmt "gif" && (0 <? viz.LoopCount (viz.img st)) = true ->
  viz.scale_frames env firstFrame imgFmt st
  = match open_error env (viz.Filename (viz.img st)) (os.opens (viz.world st)) with
    | Some e => (init.with_world (init.tried (viz.world st)) st, Err e)
    | None =>
        let st1 := init.with_world (init.opened (viz.world st)) st in
        match gif_DecodeAll env (viz.Filename (viz.img st)) with
        | Ok g =>
            let iw := image.Width (gif.Config g) in
            let ih := image.Height (gif.Config g) in
            (viz.composite env g iw ih (gif.Image g) 0 (viz.next st) None ;;
             viz.on_world
               (os.Close {| os.fd := os.opens (viz.world st);
                            os.name := viz.Filename (viz.img st) |}))
              {| viz.img := viz.img st;
                 viz.world := init.opened (viz.world st);
                 viz.heap := <[viz.next st := image.blank (image.Rect 0 0 iw ih)]>
                               (viz.heap st);
                 viz.next := S (viz.next st) |}
        | Err e => (st1, Err e)
        | Panic msg => (st1, Panic msg)
        end
    end.
Proof.
  intros Hplayed. unfold viz.scale_frames. unfold bind at 1. unfold get at 1.
  rewrite Hplayed. unfold bind at 1. unfold viz.on_world at 1, os.Open.
  destruct (open_error env _ _); [reflexivity|].
  unfold bind at 1. unfold lift at 1. cbn [os.name].
  destruct (gif_DecodeAll env _); reflexivity.
Qed.

(** *** What cannot fail with an error *)

Lemma never_errs_bind {S A B} (c : M S A) (k : A -> M S B) :
  never_errs c -> (forall x, never_errs (k x)) -> never_errs (bind c k).
Proof.
  intros Hc Hk s e. unfold bind. specialize (Hc s).
  destruct (c s) as [s1 [x|e0|m]]; cbn in *.
  - apply Hk.
  - now destruct (Hc e0).
  - discriminate.
Qed.

Lemma never_errs_index {S A} (l : list A) (i : Z) :
  never_errs (lift (S := S) (index l i)).
Proof.
  intros s e. unfold lift, index. cbn.
  destruct (i <? 0); [discriminate|]. now destruct (l !! Z.to_nat i).
Qed.

Lemma never_errs_appendImg (f : image.Image) (delayMS : Z) :
  never_errs (viz.appendImg env f delayMS).
Proof.
  unfold viz.appendImg.
  apply never_errs_bind; [intros s e; discriminate|]. intros st.
  apply never_errs_bind; [|intros pic s e; discriminate].
  intros s e. unfold lift, viz.quantize. cbn.
  destruct (_ <? 0); [discriminate|]. now destruct (_ && _).
Qed.

Lemma never_errs_dispose (disposal iw ih : Z) (canvas : nat) (prev : option nat) :
  never_errs (viz.dispose disposal iw ih canvas prev).
Proof.
  intros s e. unfold viz.dispose.
  destruct (disposal =? gif.DisposalBackground); [discriminate|].
  destruct (disposal =? gif.DisposalNone); [discriminate|].
  destruct (disposal =? gif.DisposalPrevious); [destruct prev|]; discriminate.
Qed.

Lemma never_errs_load (p : nat) : never_errs (viz.load p).
Proof.
  intros s e. unfold viz.load. now destruct (viz.heap s !! p).
Qed.

(** The loop over the pictures of an animation returns or panics. *)
Lemma never_errs_composite (g : gif.GIF) (iw ih : Z) (rest : list image.Image) :
  forall i canvas prev, never_errs (viz.composite env g iw ih rest i canvas prev).
Proof.
  induction rest as [|frame rest IH]; intros i canvas prev; cbn [viz.composite].
  - intros s e. discriminate.
  - apply never_errs_bind; [apply never_errs_load | intros c].
    apply never_errs_bind; [intros s e; discriminate | intros _].
    apply never_errs_bind; [apply never_errs_index | intros d].
    apply never_errs_bind; [apply never_errs_load | intros c'].
    apply never_errs_bind; [apply never_errs_appendImg | intros _].
    apply never_errs_bind; [apply never_errs_index | intros disposal].
    apply never_errs_bind; [apply never_errs_dispose | intros cp].
    apply IH.
Qed.

(** An error of the animated way comes from the second [os.Open] or from
    [gif.DecodeAll]; the receiver is as before. *)
Lemma scale_frames_Err (firstFrame : image.Image) (imgFmt : string)
    (st st' : viz.State) (e : error) :
  viz.scale_frames env firstFrame imgFmt st = (st', Err e) ->
  imgFmt = "gif" /\ 0 < viz.LoopCount (viz.img st)
  /\ viz.img st' = viz.img st
  /\ (open_error env (viz.Filename (viz.img st)) (os.opens (viz.world st)) = Some e
      /\ viz.world st' = init.tried (viz.world st)
      \/ open_error env (viz.Filename (viz.img st)) (os.opens (viz.world st)) = None
         /\ gif_DecodeAll env (viz.Filename (viz.img st)) = Err e
         /\ viz.world st' = init.opened (viz.world st)).
Proof.
  intros Hrun.
  destruct (String.eqb imgFmt "gif" && (0 <? viz.LoopCount (viz.img st)))
    eqn:Hplayed.
  - apply andb_prop in Hplayed as Hboth. destruct Hboth as [Hfmt Hloops].
    apply String.eqb_eq in Hfmt. apply Z.ltb_lt in Hloops.
    split; [exact Hfmt|]. split; [exact Hloops|].
    rewrite (scale_frames_played _ _ _ Hplayed) in Hrun.
    destruct (open_error env _ _) as [e0|].
    { inversion Hrun; subst. split; [reflexivity|]. left. now split. }
    destruct (gif_DecodeAll env _) as [g|e0|msg].
    + exfalso. cbv zeta in Hrun.
      assert (never_errs
                (viz.composite env g (image.Width (gif.Config g))
                   (image.Height (gif.Config g)) (gif.Image g) 0
                   (viz.next st) None ;;
                 viz.on_world
                   (os.Close {| os.fd := os.opens (viz.world st);
                                os.name := viz.Filename (viz.img st) |})))
        as Hnever.
      { apply never_errs_bind; [apply never_errs_composite|].
        intros _ s e1. discriminate. }
      eapply Hnever. rewrite Hrun. reflexivity.
    + inversion Hrun; subst. split; [reflexivity|]. right. now repeat split.
    + discriminate.
  - exfalso. rewrite (scale_frames_still _ _ _ Hplayed) in Hrun.
    eapply never_errs_appendImg. rewrite Hrun. reflexivity.
Qed.

Lemma identify_scale_Err (imgFmt : string) (LoopCount UserWidth iw ih : Z)
    (e : error) :
  viz.identify_scale env imgFmt LoopCount UserWidth iw ih = Err e ->
  UserWidth <= 0
  /\ ((imgFmt <> "gif" \/ LoopCount = 0) /\ viz.tput env "cols" = Err e
      \/ viz.tput env "lines" = Err e).
Proof.
  unfold viz.identify_scale.
  destruct (Z.ltb_spec 0 UserWidth) as [|Hw]; [discriminate|].
  intros Hrun. split; [exact Hw|].
  destruct (negb (String.eqb imgFmt "gif") || (LoopCount =? 0)) eqn:Hasks.
  - destruct (viz.tput env "cols") as [tw|e0|msg] eqn:Hcols.
    + right. destruct (viz.tput env "lines") as [th|e1|msg];
        [destruct (_ || _) in Hrun|..]; congruence.
    + left. split; [|congruence].
      apply orb_prop in Hasks as [Hfmt|Hloops].
      * left. intros ->. discriminate.
      * right. now apply Z.eqb_eq.
    + discriminate.
  - right. destruct (viz.tput env "lines") as [th|e1|msg];
      [destruct (_ || _) in Hrun|..]; congruence.
Qed.

(** Where an error of [Init] comes from, and the state it leaves. *)
Lemma Init_Err_inv (st st' : viz.State) (e : error) :
  viz.Init env st = (st', Err e) ->
  let name := viz.Filename (viz.img st) in
  let wd := viz.world st in
  (open_error env name (os.opens wd) = Some e
   /\ viz.img st' = viz.img st /\ viz.world st' = init.tried wd)
  \/ (image_Decode env name = Err e
      /\ viz.img st' = viz.img st /\ viz.world st' = init.opened wd)
  \/ (exists firstFrame imgFmt,
        image_Decode env name = Ok (firstFrame, imgFmt)
        /\ viz.identify_scale env imgFmt (viz.LoopCount (viz.img st))
             (viz.UserWidth (viz.img st))
             (image.X (image.Max (image.Bounds firstFrame)))
             (image.Y (image.Max (image.Bounds firstFrame))) = Err e
        /\ viz.img st' = viz.img st /\ viz.world st' = init.closed wd)
  \/ (exists firstFrame scale,
        image_Decode env name = Ok (firstFrame, "gif")
        /\ 0 < viz.LoopCount (viz.img st)
        /\ viz.img st'
           = init.resized env scale
               (image.X (image.Max (image.Bounds firstFrame)))
               (image.Y (image.Max (image.Bounds firstFrame))) (viz.img st)
        /\ (open_error env name (os.opens (init.closed wd)) = Some e
            /\ viz.world st' = init.tried (init.closed wd)
            \/ gif_DecodeAll env name = Err e
               /\ viz.world st' = init.opened (init.closed wd))).
Proof.
  intros Hrun name wd. rewrite Init_run in Hrun. fold name wd in Hrun.
  destruct (open_error env name (os.opens wd)) as [e0|] eqn:Hopen.
  { inversion Hrun; subst. left. now repeat split. }
  destruct (image_Decode env name) as [[firstFrame imgFmt]|e0|msg] eqn:Hdec.
  - cbv zeta in Hrun.
    destruct (viz.identify_scale env _ _ _ _ _) as [scale|e0|msg] eqn:Hscale.
    + apply scale_frames_Err in Hrun
        as (-> & Hloops & Himg & [[Hopen2 Hw]|(_ & Hall & Hw)]);
        right; right; right; exists firstFrame, scale;
        (split; [reflexivity|]); (split; [exact Hloops|]);
        (split; [exact Himg|]); [left|right]; now split.
    + inversion Hrun; subst. right. right. left.
      exists firstFrame, imgFmt. now repeat split.
    + discriminate.
  - inversion Hrun; subst. right. left. now repeat split.
  - discriminate.
Qed.

End InitRuns.

Lemma run_outcome {S A} (c : M S A) (s : S) (o : outcome A) :
  snd (c s) = o -> c s = (fst (c s), o).
Proof. intros Ho. now apply injective_projections. Qed.

(** X6. Where an error returned by [Init] comes from: it is the error of
    the first [os.Open], of [image.Decode], of one of the two terminal
    queries (only without a user width), or, for a GIF with a positive
    loop count, of the second [os.Open] or of [gif.DecodeAll].  Resizing,
    quantizing and compositing return no error. *)
Theorem Init_error_sources (env : Env) (st st' : viz.State) (e : error) :
  viz.Init env st = (st', Err e) ->
  let name := viz.Filename (viz.img st) in
  let n := os.opens (viz.world st) in
  open_error env name n = Some e
  \/ image_Decode env name = Err e
  \/ (viz.UserWidth (viz.img st) <= 0
      /\ (viz.tput env "cols" = Err e \/ viz.tput env "lines" = Err e))
  \/ (0 < viz.LoopCount (viz.img st)
      /\ (exists firstFrame, image_Decode env name = Ok (firstFrame, "gif"))
      /\ (open_error env name (S n) = Some e \/ gif_DecodeAll env name = Err e)).
Proof.
  intros Hrun name n.
  apply Init_Err_inv in Hrun
    as [(Hopen & _)|[(Hdec & _)|[(f & fmt & _ & Hscale & _)
        |(f & scale & Hdec & Hloops & _ & Hsrc)]]].
  - now left.
  - right. now left.
  - right. right. left.
    apply identify_scale_Err in Hscale as [Hw [[_ Hcols]|Hlines]]; auto.
  - right. right. right. split; [exact Hloops|]. split; [now exists f|].
    destruct Hsrc as [[Hopen _]|[Hall _]]; auto.
Qed.

Lemma Init_error_sources_witness :
  viz.tput scene.wordy_env "cols"
  = Err "couldn't parse cols: invalid syntax"
  \/ viz.tput scene.wordy_env "lines"
     = Err "couldn't parse cols: invalid syntax".
Proof.
  destruct (Init_error_sources
              scene.wordy_env
              (viz.new_state fake.png_image)
              (fst (viz.Init
                      scene.wordy_env
                      (viz.new_state fake.png_image)))
              "couldn't parse cols: invalid syntax")
    as [Hopen|[Hdec|[[_ Hterm]|(_ & [f Hdec] & _)]]].
  - apply run_outcome. vm_compute. reflexivity.
  - discriminate Hopen.
  - discriminate Hdec.
  - exact Hterm.
  - discriminate Hdec.
Defined.

(** X7. An [Init] that returns an error has appended no frame: the
    receiver keeps its frames, its loop count and the fields the caller
    set; only w and h may have been assigned. *)
Theorem Init_error_appends_nothing (env : Env) (st st' : viz.State) (e : error) :
  viz.Init env st = (st', Err e) ->
  viz.frames (viz.img st') = viz.frames (viz.img st)
  /\ viz.LoopCount (viz.img st') = viz.LoopCount (viz.img st)
  /\ init.same_settings (viz.img st') (viz.img st).
Proof.
  intros Hrun.
  apply Init_Err_inv in Hrun
    as [(_ & -> & _)|[(_ & -> & _)|[(f & fmt & _ & _ & -> & _)
        |(f & scale & _ & _ & -> & _)]]];
    now repeat split.
Qed.

Lemma Init_error_appends_nothing_witness :
  viz.frames
    (viz.img (fst (viz.Init fake.broken_env (viz.new_state fake.png_image))))
  = [].
Proof.
  destruct (Init_error_appends_nothing fake.broken_env
              (viz.new_state fake.png_image)
              (fst (viz.Init fake.broken_env (viz.new_state fake.png_image)))
              "image: unknown format") as (Hfs & _).
  - apply run_outcome. vm_compute. reflexivity.
  - exact Hfs.
Defined.

(** *** Open files *)

Lemma closed_fresh (wd : os.World) :
  init.fresh wd ->
  os.open_files (init.closed wd) = os.open_files wd
  /\ init.fresh (init.closed wd).
Proof.
  unfold init.fresh, init.closed. cbn [os.open_files os.opens]. intros Hfresh.
  assert (filter (fun d => d <> os.opens wd) (os.opens wd :: os.open_files wd)
          = os.open_files wd) as ->.
  { rewrite filter_cons_False by (intros Hd; now apply Hd).
    induction Hfresh as [|d l Hd _ IH]; [reflexivity|].
    rewrite filter_cons_True by lia. now rewrite IH. }
  split; [reflexivity|].
  eapply Forall_impl; [exact Hfresh|]. cbn. intros d Hd. lia.
Qed.

Lemma never_errs_ok {S A} (c : M S A) (s s' : S) (e : error) :
  never_errs c -> c s <> (s', Err e).
Proof. intros Hc Hrun. apply (Hc s e). now rewrite Hrun. Qed.

(** The world after a successful [Init]: one file opened and closed, or
    two for an animation that is played. *)
Lemma Init_Ok_world (env : Env) (st st' : viz.State) :
  viz.Init env st = (st', Ok tt) ->
  viz.world st' = init.closed (viz.world st)
  \/ viz.world st' = init.closed (init.closed (viz.world st)).
Proof.
  intros Hrun. rewrite Init_run in Hrun.
  destruct (open_error env _ _); [discriminate|].
  destruct (image_Decode env _) as [[firstFrame imgFmt]|e|msg];
    [|discriminate|discriminate].
  cbv zeta in Hrun.
  destruct (viz.identify_scale env _ _ _ _ _) as [scale|e|msg];
    [|discriminate|discriminate].
  destruct (String.eqb imgFmt "gif" && (0 <? viz.LoopCount (viz.img st)))
    eqn:Hplayed.
  - right. rewrite scale_frames_played in Hrun by exact Hplayed.
    cbn [viz.img viz.world viz.next viz.heap init.with_img init.with_world]
      in Hrun.
    destruct (open_error env _ _); [discriminate|].
    destruct (gif_DecodeAll env _) as [g|e|msg]; [|discriminate|discriminate].
    cbv zeta in Hrun.
    apply bind_Ok_inv in Hrun as (st3 & [] & Hloop & Hclose).
    apply composite_inv in Hloop as (fs & _ & Hw & _); [|lia].
    unfold viz.on_world in Hclose. cbn in Hclose, Hw.
    inversion Hclose; subst st'; clear Hclose. cbn [viz.world].
    rewrite Hw. reflexivity.
  - left. rewrite scale_frames_still in Hrun by exact Hplayed.
    apply appendImg_inv in Hrun as (pic & _ & ->). reflexivity.
Qed.

(** X8. A successful [Init] leaves no file open: the open files are the
    ones that were open before, although one or two more were opened
    meanwhile. *)
Theorem Init_closes_its_files (env : Env) (st st' : viz.State) :
  init.fresh (viz.world st) ->
  viz.Init env st = (st', Ok tt) ->
  os.open_files (viz.world st') = os.open_files (viz.world st)
  /\ init.fresh (viz.world st')
  /\ (os.opens (viz.world st) < os.opens (viz.world st'))%nat.
Proof.
  intros Hfresh Hrun.
  destruct (closed_fresh _ Hfresh) as [Hfiles1 Hfresh1].
  destruct (closed_fresh _ Hfresh1) as [Hfiles2 Hfresh2].
  apply Init_Ok_world in Hrun as [-> | ->].
  - repeat split; [exact Hfiles1 | exact Hfresh1 | cbn; lia].
  - repeat split; [congruence | exact Hfresh2 | cbn; lia].
Qed.

Lemma Init_closes_its_files_witness :
  os.open_files
    (viz.world (fst (viz.Init fake.anim_env
                       (viz.new_state (fake.anim_image float64.one)))))
  = []
  /\ (0 < os.opens
            (viz.world (fst (viz.Init fake.anim_env
                               (viz.new_state (fake.anim_image float64.one))))))%nat.
Proof.
  destruct (Init_closes_its_files fake.anim_env
              (viz.new_state (fake.anim_image float64.one))
              (fst (viz.Init fake.anim_env
                      (viz.new_state (fake.anim_image float64.one)))))
    as (Hfiles & _ & Hopens).
  - constructor.
  - apply run_Ok. vm_compute. reflexivity.
  - split; [exact Hfiles | exact Hopens].
Defined.

(** X9. An [Init] that returns an error leaves a file open only when a
    decoder failed: after an error of [os.Open] or of a terminal query
    the open files are as before; after an error of [image.Decode] or of
    [gif.DecodeAll] the file just opened stays open. *)
Theorem Init_error_open_files (env : Env) (st st' : viz.State) (e : error) :
  init.fresh (viz.world st) ->
  viz.Init env st = (st', Err e) ->
  let name := viz.Filename (viz.img st) in
  let n := os.opens (viz.world st) in
  os.open_files (viz.world st') = os.open_files (viz.world st)
  \/ (image_Decode env name = Err e
      /\ os.open_files (viz.world st') = n :: os.open_files (viz.world st))
  \/ (gif_DecodeAll env name = Err e
      /\ os.open_files (viz.world st') = S n :: os.open_files (viz.world st)).
Proof.
  intros Hfresh Hrun name n.
  destruct (closed_fresh _ Hfresh) as [Hfiles1 _].
  apply Init_Err_inv in Hrun
    as [(_ & _ & ->)|[(Hdec & _ & ->)|[(f & fmt & _ & _ & _ & ->)
        |(f & scale & _ & _ & _ & [[_ ->]|[Hall ->]])]]].
  - now left.
  - right. left. now split.
  - left. exact Hfiles1.
  - left. exact Hfiles1.
  - right. right. split; [exact Hall|].
    cbn [init.opened os.open_files]. rewrite Hfiles1. reflexivity.
Qed.

Lemma Init_error_open_files_witness :
  os.open_files
    (viz.world
       (fst (viz.Init
               scene.half_gif_env
               (viz.new_state fake.gif_image))))
  = [1%nat].
Proof.
  destruct (Init_error_open_files
              scene.half_gif_env
              (viz.new_state fake.gif_image)
              (fst (viz.Init
                      scene.half_gif_env
                      (viz.new_state fake.gif_image)))
              "gif: can't recognize format")
    as [Hsame|[[Hdec _]|[_ Hleak]]].
  - constructor.
  - apply run_outcome. vm_compute. reflexivity.
  - exfalso. revert Hsame. vm_compute. discriminate.
  - discriminate Hdec.
  - exact Hleak.
Defined.

(** *** The terminal *)

Lemma identify_scale_with_terminal (env : Env)
    (run : string -> string -> option error * list string)
    (atoi : string -> outcome Z) (imgFmt : string) (LoopCount UserWidth iw ih : Z) :
  (0 < UserWidth
   \/ atoi = Atoi env
      /\ (imgFmt = "gif" /\ LoopCount <> 0
          \/ run "tput" "cols" = RunCommand env "tput" "cols")
      /\ run "tput" "lines" = RunCommand env "tput" "lines") ->
  viz.identify_scale (init.with_terminal env run atoi) imgFmt LoopCount UserWidth
    iw ih
  = viz.identify_scale env imgFmt LoopCount UserWidth iw ih.
Proof.
  unfold viz.identify_scale. intros [Hw|(-> & Hcols & Hlines)].
  - apply Z.ltb_lt in Hw. now rewrite Hw.
  - destruct (0 <? UserWidth); [reflexivity|].
    assert (viz.tput (init.with_terminal env run (Atoi env)) "lines"
            = viz.tput env "lines") as ->.
    { unfold viz.tput. cbn [RunCommand Atoi init.with_terminal].
      now rewrite Hlines. }
    destruct Hcols as [[-> Hloops]|Hcols].
    + apply Z.eqb_neq in Hloops. rewrite Hloops. reflexivity.
    + assert (viz.tput (init.with_terminal env run (Atoi env)) "cols"
              = viz.tput env "cols") as ->; [|reflexivity].
      unfold viz.tput. cbn [RunCommand Atoi init.with_terminal].
      now rewrite Hcols.
Qed.

Lemma Init_with_terminal (env : Env)
    (run : string -> string -> option error * list string)
    (atoi : string -> outcome Z) (st : viz.State) :
  (forall firstFrame imgFmt,
     image_Decode env (viz.Filename (viz.img st)) = Ok (firstFrame, imgFmt) ->
     viz.identify_scale (init.with_terminal env run atoi) imgFmt
       (viz.LoopCount (viz.img st)) (viz.UserWidth (viz.img st))
       (image.X (image.Max (image.Bounds firstFrame)))
       (image.Y (image.Max (image.Bounds firstFrame)))
     = viz.identify_scale env imgFmt
         (viz.LoopCount (viz.img st)) (viz.UserWidth (viz.img st))
         (image.X (image.Max (image.Bounds firstFrame)))
         (image.Y (image.Max (image.Bounds firstFrame)))) ->
  viz.Init (init.with_terminal env run atoi) st = viz.Init env st.
Proof.
  intros Hscale. rewrite !Init_run.
  cbn [open_error image_Decode init.with_terminal].
  destruct (open_error env _ _); [reflexivity|].
  destruct (image_Decode env _) as [[firstFrame imgFmt]|e|msg] eqn:Hdec;
    [|reflexivity|reflexivity].
  cbv zeta. rewrite (Hscale _ _ eq_refl).
  destruct (viz.identify_scale env _ _ _ _ _); reflexivity.
Qed.

(** X10. With a user width the terminal is not asked: whatever [tput]
    would answer, or fail with, [Init] does the same. *)
Theorem Init_user_width_skips_terminal (env : Env)
    (run : string -> string -> option error * list string)
    (atoi : string -> outcome Z) (st : viz.State) :
  0 < viz.UserWidth (viz.img st) ->
  viz.Init (init.with_terminal env run atoi) st = viz.Init env st.
Proof.
  intros Hw. apply Init_with_terminal. intros firstFrame imgFmt _.
  apply identify_scale_with_terminal. now left.
Qed.

Lemma Init_user_width_skips_terminal_witness :
  viz.Init
    (init.with_terminal fake.wide_env scene.no_terminal
       (fun _ => Err "invalid syntax"))
    (viz.new_state fake.wide_image)
  = viz.Init fake.wide_env (viz.new_state fake.wide_image).
Proof.
  apply (Init_user_width_skips_terminal fake.wide_env
           scene.no_terminal (fun _ => Err "invalid syntax")
           (viz.new_state fake.wide_image)).
  reflexivity.
Defined.

(** X11. For a GIF with a loop count other than zero the width of the
    terminal is not asked: [Init] does the same whatever [tput cols]
    would answer, or fail with; the width taken is the constant 40. *)
Theorem Init_played_gif_skips_columns (env : Env)
    (run : string -> string -> option error * list string)
    (st : viz.State) (firstFrame : image.Image) :
  image_Decode env (viz.Filename (viz.img st)) = Ok (firstFrame, "gif") ->
  viz.LoopCount (viz.img st) <> 0 ->
  (forall prog cmd, cmd <> "cols" -> run prog cmd = RunCommand env prog cmd) ->
  viz.Init (init.with_terminal env run (Atoi env)) st = viz.Init env st.
Proof.
  intros Hdec Hloops Hrun. apply Init_with_terminal.
  intros firstFrame' imgFmt Hdec'. rewrite Hdec in Hdec'.
  inversion Hdec'; subst. apply identify_scale_with_terminal. right.
  split; [reflexivity|]. split; [now left|].
  apply Hrun. discriminate.
Qed.

Lemma Init_played_gif_skips_columns_witness :
  viz.Init
    (init.with_terminal fake.gif_env (scene.no_columns fake.gif_env)
       (Atoi fake.gif_env))
    (viz.new_state fake.gif_image)
  = viz.Init fake.gif_env (viz.new_state fake.gif_image).
Proof.
  apply (Init_played_gif_skips_columns fake.gif_env _
           (viz.new_state fake.gif_image) fake.still).
  - reflexivity.
  - discriminate.
  - intros prog cmd Hcmd. unfold scene.no_columns.
    apply String.eqb_neq in Hcmd. now rewrite Hcmd.
Defined.

(** ** The receiver after [Init] *)

(** X12. A successful [Init] only appends: the frames that were there stay
    in front of the new ones, the fields set by the caller are kept, and
    the loop count is the one asked for or 1, and at least 1. *)
Theorem Init_appends_frames (env : Env) (st st' : viz.State) :
  viz.Init env st = (st', Ok tt) ->
  init.same_settings (viz.img st') (viz.img st)
  /\ (exists fs, viz.frames (viz.img st') = viz.frames (viz.img st) ++ fs)
  /\ 1 <= viz.LoopCount (viz.img st')
  /\ (viz.LoopCount (viz.img st') = viz.LoopCount (viz.img st)
      \/ viz.LoopCount (viz.img st') = 1).
Proof.
  intros Hrun.
  apply Init_inv in Hrun as (f & fmt & scale & st2 & _ & _ & Himg & Hrun).
  apply scale_frames_inv in Hrun
    as [(Hplayed & g & fs & _ & -> & _) | (_ & pic & _ & ->)];
    rewrite Himg; cbn.
  - apply andb_prop in Hplayed as [_ Hloops]. rewrite Himg in Hloops.
    cbn in Hloops. apply Z.ltb_lt in Hloops.
    repeat split; [now exists fs | lia | now left].
  - repeat split; [eexists; reflexivity | lia | now right].
Qed.

Lemma Init_appends_frames_witness :
  viz.LoopCount
    (viz.img (fst (viz.Init fake.png_env (viz.new_state fake.png_image))))
  = 3
  \/ viz.LoopCount
       (viz.img (fst (viz.Init fake.png_env (viz.new_state fake.png_image))))
     = 1.
Proof.
  destruct (Init_appends_frames fake.png_env (viz.new_state fake.png_image)
              (fst (viz.Init fake.png_env (viz.new_state fake.png_image))))
    as (_ & _ & _ & Hloops).
  - apply run_Ok. vm_compute. reflexivity.
  - exact Hloops.
Defined.

(** A still picture, stage by stage. *)
Lemma Init_still_inv (env : Env) (st st' : viz.State) (firstFrame : image.Image)
    (imgFmt : string) :
  viz.Init env st = (st', Ok tt) ->
  image_Decode env (viz.Filename (viz.img st)) = Ok (firstFrame, imgFmt) ->
  imgFmt <> "gif" \/ viz.LoopCount (viz.img st) <= 0 ->
  exists scale pic,
    let sized :=
      init.resized env scale (image.X (image.Max (image.Bounds firstFrame)))
        (image.Y (image.Max (image.Bounds firstFrame))) (viz.img st) in
    viz.identify_scale env imgFmt (viz.LoopCount (viz.img st))
      (viz.UserWidth (viz.img st))
      (image.X (image.Max (image.Bounds firstFrame)))
      (image.Y (image.Max (image.Bounds firstFrame))) = Ok scale
    /\ viz.quantize env
         (Resize env (goint.to_uint (viz.w sized)) (goint.to_uint (viz.h sized))
            firstFrame)
         (viz.w sized) (viz.h sized) = Ok pic
    /\ viz.img st'
       = viz.set_frames
           (viz.frames (viz.img st)
            ++ [ {| viz.picture := pic;
                    viz.delay :=
                      viz.render_delay env 0 (viz.DelayMultiplier (viz.img st)) |} ])
           (viz.set_LoopCount 1 sized).
Proof.
  intros Hrun Hdec Hstill.
  apply Init_inv in Hrun as (f & fmt & scale & st2 & Hdec' & Hscale & Himg & Hrun).
  rewrite Hdec in Hdec'. inversion Hdec'; subst f fmt; clear Hdec'.
  apply scale_frames_inv in Hrun
    as [(Hplayed & _) | (_ & pic & Hpic & Hfinal)].
  - exfalso. apply andb_prop in Hplayed as [Hfmt Hloops].
    apply String.eqb_eq in Hfmt. apply Z.ltb_lt in Hloops.
    rewrite Himg in Hloops. cbn in Hloops. destruct Hstill; [contradiction|lia].
  - exists scale, pic. cbv zeta. rewrite Himg in Hpic, Hfinal.
    repeat split; assumption.
Qed.

(** X13. [Init] and then [Draw], for a picture that is not an animation to
    play (not a GIF, or a loop count of zero or less): on a sink whose
    checked calls succeed the one frame is drawn once, with no cursor-up
    and no sleep, and the sink is closed, whatever loop count was asked
    for. *)
Theorem Init_then_Draw_still (env : Env) (st st' : viz.State)
    (firstFrame : image.Image) (imgFmt : string) (bad : sink.event -> bool) :
  viz.Init env st = (st', Ok tt) ->
  viz.frames (viz.img st) = [] ->
  image_Decode env (viz.Filename (viz.img st)) = Ok (firstFrame, imgFmt) ->
  imgFmt <> "gif" \/ viz.LoopCount (viz.img st) <= 0 ->
  sink.spares_checked bad ->
  exists fr,
    viz.frames (viz.img st') = [fr]
    /\ viz.Draw (viz.img st') (sink.logged bad [])
       = (sink.logged bad
            (sink.drawn (viz.w (viz.img st')) (viz.h (viz.img st')) fr
             ++ [sink.EvClose]),
          Ok tt).
Proof.
  intros Hrun Hnew Hdec Hstill Hbad.
  apply (Init_still_inv env st st' firstFrame imgFmt) in Hrun
    as (scale & pic & _ & Hpic & Himg); [|exact Hdec|exact Hstill].
  cbv zeta in Hpic, Himg. rewrite Hnew in Himg. cbn [app] in Himg.
  assert (viz.LoopCount (viz.img st') = 1) as Hloops by now rewrite Himg.
  assert (viz.frames (viz.img st')
          = [ {| viz.picture := pic;
                 viz.delay :=
                   viz.render_delay env 0 (viz.DelayMultiplier (viz.img st)) |} ])
    as Hfs by now rewrite Himg.
  eexists. split; [exact Hfs|].
  rewrite (Draw_logged _ bad Hbad).
  - unfold playback.script, playback.shown. rewrite Hfs, Hloops.
    change (Z.to_nat 1) with 1%nat.
    cbn [replicate concat app playback.calls]. now rewrite app_nil_r.
  - rewrite Hfs. constructor; [|constructor].
    rewrite Himg. cbn. eapply quantize_size, Hpic.
Qed.

Lemma Init_then_Draw_still_witness :
  exists fr,
    viz.frames
      (viz.img (fst (viz.Init fake.png_env (viz.new_state fake.png_image))))
    = [fr]
    /\ playback.count playback.is_sleep
         (sink.log
            (fst (viz.Draw
                    (viz.img (fst (viz.Init fake.png_env
                                     (viz.new_state fake.png_image))))
                    sink.reliable)))
       = 0%nat.
Proof.
  destruct (Init_then_Draw_still fake.png_env (viz.new_state fake.png_image)
              (fst (viz.Init fake.png_env (viz.new_state fake.png_image)))
              fake.still "png" sink.never)
    as (fr & Hfs & Hdraw).
  - apply run_Ok. vm_compute. reflexivity.
  - reflexivity.
  - reflexivity.
  - left. discriminate.
  - repeat split.
  - exists fr. split; [exact Hfs|].
    unfold sink.reliable. rewrite Hdraw. cbn [fst sink.log sink.logged].
    rewrite count_app.
    rewrite (count_none playback.is_sleep (sink.drawn _ _ _))
      by (eapply Forall_impl; [apply drawn_writes|]; now intros []).
    reflexivity.
Defined.

(** X14. [Init] is not idempotent.  A second successful [Init] on the same
    [Image], for a source that is not a GIF, appends the same frame once
    more behind the first: the frames are not reset. *)
Theorem Init_twice_appends_again (env : Env) (st st1 st2 : viz.State)
    (firstFrame : image.Image) (imgFmt : string) :
  viz.Init env st = (st1, Ok tt) ->
  viz.Init env st1 = (st2, Ok tt) ->
  image_Decode env (viz.Filename (viz.img st)) = Ok (firstFrame, imgFmt) ->
  imgFmt <> "gif" ->
  exists fr,
    viz.frames (viz.img st1) = viz.frames (viz.img st) ++ [fr]
    /\ viz.frames (viz.img st2) = viz.frames (viz.img st) ++ [fr; fr].
Proof.
  intros Hrun1 Hrun2 Hdec Hfmt.
  apply (Init_still_inv env st st1 firstFrame imgFmt) in Hrun1
    as (scale & pic & Hscale & Hpic & Himg); [|exact Hdec|now left].
  cbv zeta in Hpic, Himg.
  assert (viz.Filename (viz.img st1) = viz.Filename (viz.img st)) as Hname
    by now rewrite Himg.
  apply (Init_still_inv env st1 st2 firstFrame imgFmt) in Hrun2
    as (scale' & pic' & Hscale' & Hpic' & Himg');
    [|now rewrite Hname|now left].
  cbv zeta in Hpic', Himg'.
  assert (scale' = scale) as ->.
  { apply String.eqb_neq in Hfmt.
    unfold viz.identify_scale in Hscale, Hscale'. rewrite Hfmt in Hscale, Hscale'.
    rewrite Himg in Hscale'. cbn in Hscale, Hscale'. congruence. }
  rewrite Himg in Hpic'. cbn in Hpic, Hpic'.
  assert (pic' = pic) as -> by congruence.
  eexists. split; [rewrite Himg; reflexivity|].
  rewrite Himg', Himg. cbn. now rewrite <- app_assoc.
Qed.

Lemma Init_twice_appends_again_witness :
  exists fr,
    viz.frames
      (viz.img
         (fst (viz.Init fake.png_env
                 (fst (viz.Init fake.png_env (viz.new_state fake.png_image))))))
    = [fr; fr].
Proof.
  destruct (Init_twice_appends_again fake.png_env
              (viz.new_state fake.png_image)
              (fst (viz.Init fake.png_env (viz.new_state fake.png_image)))
              (fst (viz.Init fake.png_env
                      (fst (viz.Init fake.png_env
                              (viz.new_state fake.png_image)))))
              fake.still "png")
    as (fr & _ & Hfs).
  - apply run_Ok. vm_compute. reflexivity.
  - apply run_Ok. vm_compute. reflexivity.
  - reflexivity.
  - discriminate.
  - exists fr. exact Hfs.
Defined.

(** ** The canvas of an animation *)

(** What the [switch] on the disposal leaves in the canvas of the next
    turn: a blank canvas after [DisposalBackground], the canvas as it is
    after any other disposal. *)
Lemma dispose_canvas (disposal iw ih : Z) (canvas : nat) (prev : option nat)
    (st st' : viz.State) (cp : nat * option nat) (c : image.RGBA) :
  prev = None \/ prev = Some canvas ->
  viz.heap st !! canvas = Some c ->
  viz.dispose disposal iw ih canvas prev st = (st', Ok cp) ->
  viz.heap st' !! fst cp
  = Some (if disposal =? gif.DisposalBackground
          then image.blank (image.Rect 0 0 iw ih) else c)
  /\ viz.img st' = viz.img st
  /\ (snd cp = None \/ snd cp = Some (fst cp)).
Proof.
  intros Halias Hc. unfold viz.dispose.
  destruct (disposal =? gif.DisposalBackground).
  { unfold bind, viz.NewRGBA, ret. intros Hrun. inversion Hrun; subst. cbn.
    rewrite lookup_insert_eq. split; [reflexivity|]. split; [reflexivity|].
    now right. }
  destruct (disposal =? gif.DisposalNone).
  { unfold ret. intros Hrun. inversion Hrun; subst. cbn.
    split; [exact Hc|]. split; [reflexivity|]. now right. }
  destruct (disposal =? gif.DisposalPrevious).
  - destruct Halias as [-> | ->]; unfold ret; intros Hrun; inversion Hrun;
      subst; cbn; repeat split; auto.
  - unfold ret. intros Hrun. inversion Hrun; subst. cbn. now repeat split.
Qed.

Lemma index_drop {A} (l : list A) (i : Z) (x : A) :
  index l i = Ok x ->
  drop (Z.to_nat i) l = x :: drop (Z.to_nat (i + 1)) l.
Proof.
  intros Hx. apply index_inv in Hx as [Hi Hx].
  rewrite (drop_S _ _ _ Hx). do 2 f_equal. lia.
Qed.

(** The loop over the pictures keeps, for each picture, the index buffer
    of the canvas as [compositor.rasters] gives it. *)
Lemma composite_rasters (env : Env) (g : gif.GIF) (iw ih : Z)
    (rest : list image.Image) :
  forall (i : Z) (canvas : nat) (prev : option nat) (st st' : viz.State)
         (c : image.RGBA),
  0 <= i ->
  viz.heap st !! canvas = Some c ->
  prev = None \/ prev = Some canvas ->
  viz.composite env g iw ih rest i canvas prev st = (st', Ok tt) ->
  exists fs,
    viz.frames (viz.img st') = viz.frames (viz.img st) ++ fs
    /\ Forall2
         (fun fr content =>
            viz.quantize env
              (Resize env (goint.to_uint (viz.w (viz.img st)))
                 (goint.to_uint (viz.h (viz.img st)))
                 (image.RGBA_Image content))
              (viz.w (viz.img st)) (viz.h (viz.img st))
            = Ok (viz.picture fr))
         fs
         (compositor.rasters (image.Rect 0 0 iw ih) c rest
            (drop (Z.to_nat i) (gif.Disposal g))).
Proof.
  induction rest as [|frame rest IH];
    intros i canvas prev st st' c Hi Hc Halias Hrun.
  - cbn in Hrun. unfold ret in Hrun. inversion Hrun; subst st'.
    exists []. rewrite app_nil_r. split; [reflexivity|constructor].
  - apply (composite_cons_inv env g iw ih frame rest i canvas prev st st' c Hc)
      in Hrun as (pic & d & disposal & st1 & cp & Hpic & Hdisp & Hcp & Hrun).
    eapply dispose_canvas in Hcp as (Hc1 & Himg & Halias1);
      [|exact Halias|cbn [viz.heap]; apply lookup_insert_eq].
    eapply IH in Hrun as (fs & Hfs & Hall);
      [|lia|exact Hc1|exact Halias1].
    rewrite Himg in Hfs, Hall. cbn in Hfs, Hall.
    eexists (_ :: fs). split.
    + rewrite Hfs, <- app_assoc. reflexivity.
    + cbn [compositor.rasters]. rewrite (index_drop _ _ _ Hdisp). cbn [hd tl].
      constructor; [exact Hpic | exact Hall].
Qed.

(** X15. What the frames of a played GIF show.  Picture i is drawn over
    the canvas and the canvas is quantized; the canvas starts blank, and
    only a disposal [DisposalBackground] replaces it by a blank one: after
    [DisposalNone], [DisposalPrevious] and any other value the next
    picture is drawn over everything drawn so far.  The pointer [prev]
    has no effect on any frame. *)
Theorem Init_frames_by_disposal (env : Env) (st st' : viz.State)
    (firstFrame : image.Image) (g : gif.GIF) :
  viz.Init env st = (st', Ok tt) ->
  viz.frames (viz.img st) = [] ->
  image_Decode env (viz.Filename (viz.img st)) = Ok (firstFrame, "gif") ->
  0 < viz.LoopCount (viz.img st) ->
  gif_DecodeAll env (viz.Filename (viz.img st)) = Ok g ->
  let rc := image.Rect 0 0 (image.Width (gif.Config g))
              (image.Height (gif.Config g)) in
  Forall2
    (fun fr content =>
       viz.quantize env
         (Resize env (goint.to_uint (viz.w (viz.img st')))
            (goint.to_uint (viz.h (viz.img st')))
            (image.RGBA_Image content))
         (viz.w (viz.img st')) (viz.h (viz.img st'))
       = Ok (viz.picture fr))
    (viz.frames (viz.img st'))
    (compositor.rasters rc (image.blank rc) (gif.Image g) (gif.Disposal g)).
Proof.
  intros Hrun Hnew Hdec Hloops Hg rc.
  apply (Init_gif_inv env st st' firstFrame g) in Hrun
    as (st2 & wd & st3 & Hfs2 & Hw & Hh & Hloop & Himg); try assumption.
  apply (composite_rasters env g _ _ _ 0 _ None _ _ (image.blank rc)) in Hloop
    as (fs & Hfs & Hall);
    [|lia|cbn [viz.heap]; apply lookup_insert_eq|now left].
  cbn [viz.img viz.frames viz.w viz.h] in Hfs, Hall.
  rewrite Hfs2 in Hfs. cbn [app] in Hfs.
  rewrite Himg at 1. rewrite Hfs. rewrite <- Hw, <- Hh. exact Hall.
Qed.

Lemma Init_frames_by_disposal_witness :
  length
    (viz.frames
       (viz.img (fst (viz.Init fake.anim_env
                        (viz.new_state (fake.anim_image float64.one))))))
  = length
      (compositor.rasters (image.Rect 0 0 1 2)
         (image.blank (image.Rect 0 0 1 2))
         (gif.Image fake.three_frames) (gif.Disposal fake.three_frames)).
Proof.
  eapply Forall2_length.
  apply (Init_frames_by_disposal fake.anim_env
           (viz.new_state (fake.anim_image float64.one))
           (fst (viz.Init fake.anim_env
                   (viz.new_state (fake.anim_image float64.one))))
           (fake.solid 1 2 fake.red) fake.three_frames).
  - apply run_Ok. vm_compute. reflexivity.
  - reflexivity.
  - reflexivity.
  - reflexivity.
  - reflexivity.
Defined.

(** ** The text of a cell *)

Lemma string_length_app (s t : string) :
  String.length (s +:+ t) = (String.length s + String.length t)%nat.
Proof.
  induction s as [|a s IH]; [reflexivity|].
  change (String a s +:+ t) with (String a (s +:+ t)). cbn [String.length].
  now rewrite IH.
Qed.

Lemma string_app_inj_r (s1 s2 t : string) : s1 +:+ t = s2 +:+ t -> s1 = s2.
Proof.
  revert s2. induction s1 as [|a s1 IH]; intros [|b s2] Heq.
  - reflexivity.
  - apply (f_equal String.length) in Heq. rewrite !string_length_app in Heq.
    cbn in Heq. lia.
  - apply (f_equal String.length) in Heq. rewrite !string_length_app in Heq.
    cbn in Heq. lia.
  - change (String a (s1 +:+ t) = String b (s2 +:+ t)) in Heq.
    injection Heq as -> Heq. f_equal. now apply IH.
Qed.

(** X17. The text written for a cell determines the palette index:
    different indices are written as different texts, and no cell is
    written as the line terminator. *)
Theorem cell_text_determines_index (a b : Z) :
  viz.cell a = viz.cell b -> a = b /\ viz.cell a <> viz.newline.
Proof.
  intros Heq. split.
  - unfold viz.cell in Heq.
    apply (inj (String.append viz.esc)) in Heq.
    apply (inj (String.append "[48;5;")) in Heq.
    apply string_app_inj_r in Heq. now apply (inj pretty) in Heq.
  - unfold viz.cell, viz.esc, viz.newline.
    change (String ?c "" +:+ ?s) with (String c s).
    intros Hnl. injection Hnl as Hc _. vm_compute in Hc. discriminate.
Qed.

Lemma cell_text_determines_index_witness :
  196 = 196 /\ viz.cell 196 <> viz.newline.
Proof. apply (cell_text_determines_index 196 196). reflexivity. Defined.

(** ** Palette indices *)

Section Bytes.

Context (env : Env).

Lemma quantize_bytes (scaled : image.Image) (wd ht : Z) (pic : list (list Z)) :
  viz.quantize env scaled wd ht = Ok pic ->
  Forall (Forall (fun idx => 0 <= idx < 256)) pic.
Proof.
  unfold viz.quantize.
  destruct (wd <? 0); [discriminate|].
  destruct ((0 <? wd) && (ht <? 0)); [discriminate|].
  intros Hpic. inversion Hpic; subst pic; clear Hpic.
  apply Forall_fmap, Forall_forall. intros x _.
  apply Forall_fmap, Forall_forall. intros y _.
  unfold goint.to_uint8. cbn. apply Z.mod_pos_bound. lia.
Qed.

Lemma appendImg_bytes (f : image.Image) (delayMS : Z) (st st' : viz.State) :
  viz.appendImg env f delayMS st = (st', Ok tt) ->
  Forall bytes (viz.frames (viz.img st)) ->
  Forall bytes (viz.frames (viz.img st')).
Proof.
  intros Hrun Hold. apply appendImg_inv in Hrun as (pic & Hpic & ->). cbn.
  apply Forall_app. split; [exact Hold|].
  constructor; [|constructor]. unfold bytes. cbn.
  eapply quantize_bytes, Hpic.
Qed.

Lemma composite_bytes (g : gif.GIF) (iw ih : Z) (rest : list image.Image) :
  forall (i : Z) (canvas : nat) (prev : option nat) (st st' : viz.State),
  viz.composite env g iw ih rest i canvas prev st = (st', Ok tt) ->
  Forall bytes (viz.frames (viz.img st)) ->
  Forall bytes (viz.frames (viz.img st')).
Proof.
  induction rest as [|frame rest IH]; intros i canvas prev st st' Hrun Hold.
  - cbn in Hrun. unfold ret in Hrun. now inversion Hrun; subst.
  - cbn [viz.composite] in Hrun.
    apply bind_Ok_inv in Hrun as (st1 & c0 & Hload & Hrun).
    apply load_inv in Hload as [-> _].
    apply bind_Ok_inv in Hrun as (st1 & [] & Hstore & Hrun).
    unfold viz.store, modify in Hstore. inversion Hstore; subst st1; clear Hstore.
    apply bind_Ok_inv in Hrun as (st1 & d & Hd & Hrun).
    apply lift_Ok_inv in Hd as [_ ->].
    apply bind_Ok_inv in Hrun as (st1 & c1 & Hload & Hrun).
    apply load_inv in Hload as [-> _].
    apply bind_Ok_inv in Hrun as (st2 & [] & Happ & Hrun).
    apply appendImg_bytes in Happ; [|exact Hold].
    apply bind_Ok_inv in Hrun as (st3 & disposal & Hdisp & Hrun).
    apply lift_Ok_inv in Hdisp as [_ ->].
    apply bind_Ok_inv in Hrun as (st3 & cp & Hcp & Hrun).
    apply dispose_inv in Hcp as [Himg _].
    apply IH in Hrun; [exact Hrun|]. now rewrite Himg.
Qed.

End Bytes.

(** X18. Every palette index that [Init] stores fits a byte, whatever the
    palette answers: if the indices of the frames that were there are
    within 0..255, so are the indices of all frames after a successful
    [Init]. *)
Theorem Init_indices_are_bytes (env : Env) (st st' : viz.State) :
  viz.Init env st = (st', Ok tt) ->
  Forall bytes (viz.frames (viz.img st)) ->
  Forall bytes (viz.frames (viz.img st')).
Proof.
  intros Hrun Hold. rewrite Init_run in Hrun.
  destruct (open_error env _ _); [discriminate|].
  destruct (image_Decode env _) as [[firstFrame imgFmt]|e|msg];
    [|discriminate|discriminate].
  cbv zeta in Hrun.
  destruct (viz.identify_scale env _ _ _ _ _) as [scale|e|msg];
    [|discriminate|discriminate].
  destruct (String.eqb imgFmt "gif" && (0 <? viz.LoopCount (viz.img st)))
    eqn:Hplayed.
  - rewrite scale_frames_played in Hrun by exact Hplayed.
    cbn [viz.img viz.world viz.next viz.heap init.with_img init.with_world]
      in Hrun.
    destruct (open_error env _ _); [discriminate|].
    destruct (gif_DecodeAll env _) as [g|e|msg]; [|discriminate|discriminate].
    cbv zeta in Hrun.
    apply bind_Ok_inv in Hrun as (st3 & [] & Hloop & Hclose).
    apply composite_bytes in Hloop; [|exact Hold].
    unfold viz.on_world in Hclose. cbn in Hclose.
    now inversion Hclose; subst st'.
  - rewrite scale_frames_still in Hrun by exact Hplayed.
    apply appendImg_bytes in Hrun; [exact Hrun | exact Hold].
Qed.

Lemma Init_indices_are_bytes_witness :
  Forall bytes
    (viz.frames
       (viz.img (fst (viz.Init fake.anim_env
                        (viz.new_state (fake.anim_image float64.one)))))).
Proof.
  apply (Init_indices_are_bytes fake.anim_env
           (viz.new_state (fake.anim_image float64.one))).
  - apply run_Ok. vm_compute. reflexivity.
  - constructor.
Defined.

(** ** [Init] and then [Draw], for an animation *)

(** X19. [Init] and then [Draw], for a GIF that is played: on a sink whose
    checked calls succeed, every picture of the animation is shown once
    per pass, so [Draw] sleeps, and moves the cursor up, one time less
    than the loop count times the number of pictures. *)
Theorem Init_then_Draw_animation (env : Env) (st st' : viz.State)
    (firstFrame : image.Image) (g : gif.GIF) (bad : sink.event -> bool) :
  viz.Init env st = (st', Ok tt) ->
  viz.frames (viz.img st) = [] ->
  image_Decode env (viz.Filename (viz.img st)) = Ok (firstFrame, "gif") ->
  0 < viz.LoopCount (viz.img st) ->
  gif_DecodeAll env (viz.Filename (viz.img st)) = Ok g ->
  sink.spares_checked bad ->
  let log := sink.log (fst (viz.Draw (viz.img st') (sink.logged bad []))) in
  let n := (Z.to_nat (viz.LoopCount (viz.img st)) * length (gif.Image g))%nat in
  snd (viz.Draw (viz.img st') (sink.logged bad [])) = Ok tt
  /\ playback.count playback.is_sleep log = Nat.pred n
  /\ playback.count playback.is_line_up log = Nat.pred n
  /\ playback.count playback.is_close log = 1%nat.
Proof.
  intros Hrun Hnew Hdec Hloops Hg Hbad log n. subst log.
  apply Init_inv in Hrun
    as (f & fmt & scale & st2 & Hdec' & _ & Himg & Hrun).
  rewrite Hdec in Hdec'. inversion Hdec'; subst f fmt; clear Hdec'.
  pose proof (scale_frames_size _ _ _ _ _ Hrun) as [Hw Hh].
  apply scale_frames_inv in Hrun
    as [(_ & g' & fs & Hg' & Hfinal & Hsizes & _ & Hlen) | (Hstill & _)].
  - rewrite Himg in Hg', Hfinal. cbn in Hg', Hfinal.
    rewrite Hg in Hg'. inversion Hg'; subst g'; clear Hg'.
    rewrite Hnew in Hfinal. cbn [app] in Hfinal.
    assert (viz.frames (viz.img st') = fs) as Hfs by now rewrite Hfinal.
    assert (viz.LoopCount (viz.img st') = viz.LoopCount (viz.img st)) as Hlc
      by now rewrite Hfinal.
    rewrite (Draw_logged (viz.img st') bad Hbad)
      by (rewrite Hfs, Hw, Hh; exact Hsizes).
    cbn [fst snd sink.log sink.logged]. split; [reflexivity|].
    unfold playback.script.
    destruct (count_calls (viz.w (viz.img st')) (viz.h (viz.img st'))
                (playback.shown (viz.img st')) false 0)
      as (_ & Hu & Hs & Hc).
    assert (length (playback.shown (viz.img st')) = n) as Hn.
    { unfold playback.shown. subst n. rewrite Hfs, Hlc, <- Hlen.
      induction (Z.to_nat (viz.LoopCount (viz.img st))) as [|k IH]; cbn;
        [reflexivity|].
      now rewrite length_app, IH. }
    rewrite !count_app, Hu, Hs, Hc, Hn. cbn. repeat split; lia.
  - exfalso. rewrite Himg in Hstill. cbn in Hstill.
    apply Z.ltb_lt in Hloops. now rewrite Hloops in Hstill.
Qed.

Lemma Init_then_Draw_animation_witness :
  playback.count playback.is_sleep
    (sink.log
       (fst (viz.Draw
               (viz.img (fst (viz.Init fake.anim_env
                                (viz.new_state (fake.anim_image float64.one)))))
               sink.reliable)))
  = 2%nat.
Proof.
  destruct (Init_then_Draw_animation fake.anim_env
              (viz.new_state (fake.anim_image float64.one))
              (fst (viz.Init fake.anim_env
                      (viz.new_state (fake.anim_image float64.one))))
              (fake.solid 1 2 fake.red) fake.three_frames sink.never)
    as (_ & Hsleeps & _).
  - apply run_Ok. vm_compute. reflexivity.
  - reflexivity.
  - reflexivity.
  - reflexivity.
  - reflexivity.
  - repeat split.
  - exact Hsleeps.
Defined.

(** ** The resolved size, in general *)

(** X20. The size [Init] resolves, for every source and every scale: the
    width is the scaled width of the first decoded picture, rounded down;
    the height is half the scaled height rounded down, the quotient
    truncated.  Both come from the bounds of the first picture, also for
    an animation whose [Config] says otherwise, and the frames are made
    at that size. *)
Theorem Init_resolved_size (env : Env) (st st' : viz.State)
    (firstFrame : image.Image) (imgFmt : string) (scale : float64.t) :
  viz.Init env st = (st', Ok tt) ->
  image_Decode env (viz.Filename (viz.img st)) = Ok (firstFrame, imgFmt) ->
  viz.identify_scale env imgFmt (viz.LoopCount (viz.img st))
    (viz.UserWidth (viz.img st))
    (image.X (image.Max (image.Bounds firstFrame)))
    (image.Y (image.Max (image.Bounds firstFrame))) = Ok scale ->
  viz.w (viz.img st')
  = float64.to_int (indefinite env)
      (math.Floor
         (float64.mul scale
            (float64.of_int (image.X (image.Max (image.Bounds firstFrame))))))
  /\ viz.h (viz.img st')
     = goint.div
         (float64.to_int (indefinite env)
            (math.Floor
               (float64.mul scale
                  (float64.of_int
                     (image.Y (image.Max (image.Bounds firstFrame)))))))
         2.
Proof.
  intros Hrun Hdec Hscale.
  apply Init_inv in Hrun
    as (f & fmt & scale' & st2 & Hdec' & Hscale' & Himg & Hrun).
  rewrite Hdec in Hdec'. inversion Hdec'; subst f fmt; clear Hdec'.
  rewrite Hscale in Hscale'. inversion Hscale'; subst scale'; clear Hscale'.
  apply scale_frames_size in Hrun as [-> ->]. now rewrite Himg.
Qed.

Lemma Init_resolved_size_witness :
  viz.w (viz.img (fst (viz.Init fake.anim_env
                         (viz.new_state (fake.anim_image float64.one)))))
  = float64.to_int fake.amd64
      (math.Floor (float64.mul float64.one (float64.of_int 1)))
  /\ viz.h (viz.img (fst (viz.Init fake.anim_env
                            (viz.new_state (fake.anim_image float64.one)))))
     = goint.div
         (float64.to_int fake.amd64
            (math.Floor (float64.mul float64.one (float64.of_int 2))))
         2.
Proof.
  apply (Init_resolved_size fake.anim_env
           (viz.new_state (fake.anim_image float64.one))
           (fst (viz.Init fake.anim_env
                   (viz.new_state (fake.anim_image float64.one))))
           (fake.solid 1 2 fake.red) "gif" float64.one).
  - apply run_Ok. vm_compute. reflexivity.
  - reflexivity.
  - vm_compute. reflexivity.
Defined.

(** ** Frames that are too narrow *)

Section Narrow.

Context {S : Type} `{viz.Writer S}.

Lemma panics_bind_l {A B} (msg : string) (c : M S A) (k : A -> M S B) :
  panics msg c -> panics msg (bind c k).
Proof.
  intros Hc s. unfold bind. specialize (Hc s).
  destruct (c s) as [s1 [x|e|m]]; cbn in *;
    [discriminate | discriminate | now inversion Hc].
Qed.

Lemma panics_bind_r (msg : string) (c : M S unit) {B} (k : unit -> M S B) :
  ok_or_panics msg c -> panics msg (k tt) -> panics msg (bind c k).
Proof.
  intros Hc Hk s. unfold bind. destruct (Hc s) as [Hok|Hp];
    destruct (c s) as [s1 [[]|e|m]]; cbn in *; try discriminate.
  - apply Hk.
  - now inversion Hp.
Qed.

Lemma for_each_panics {A} (msg : string) (l : list A) (body : A -> M S unit) :
  Forall (fun x => ok_or_panics msg (body x)) l ->
  Exists (fun x => panics msg (body x)) l ->
  panics msg (for_each l body).
Proof.
  intros Hall Hex. induction Hex as [x l Hx|x l _ IH]; cbn [for_each];
    inversion Hall as [|x0 l0 Hx0 Hl]; subst.
  - now apply panics_bind_l.
  - apply panics_bind_r; [exact Hx0 | now apply IH].
Qed.

(** A cell is written, or its index is out of range. *)
Lemma cell_ok_or_panics (fr : viz.frame) (x y : Z) :
  ok_or_panics "index out of range"
    (idx <- lift (viz.pixel fr x y) ;; viz.unchecked (viz.Write (viz.cell idx))).
Proof.
  intros s. unfold bind, lift, viz.pixel, index.
  destruct (x <? 0); [now right|].
  destruct (viz.picture fr !! Z.to_nat x) as [column|]; [|now right].
  destruct (y <? 0); [now right|].
  destruct (column !! Z.to_nat y); [now left | now right].
Qed.

Lemma cell_panics (fr : viz.frame) (x y : Z) :
  Z.of_nat (length (viz.picture fr)) <= x ->
  panics "index out of range"
    (idx <- lift (viz.pixel fr x y) ;; viz.unchecked (viz.Write (viz.cell idx))).
Proof.
  intros Hx s. unfold bind, lift, viz.pixel, index.
  destruct (x <? 0); [reflexivity|].
  rewrite lookup_ge_None_2 by lia. reflexivity.
Qed.

(** X21. A frame with fewer columns than the width of the image: when it
    is the first frame, the loop count is positive and the height is
    positive, [Draw] panics in the first row with an index out of range,
    on any sink, whatever the sink answers.  Frames kept from an [Init]
    at a smaller size are such frames. *)
Theorem Draw_narrow_frame_panics (im : viz.Image) (fr : viz.frame)
    (rest : list viz.frame) (s : S) :
  viz.frames im = fr :: rest ->
  0 < viz.LoopCount im ->
  0 < viz.h im ->
  Z.of_nat (length (viz.picture fr)) < viz.w im ->
  snd (viz.Draw im s) = Panic "index out of range".
Proof.
  intros Hfs Hloops Hh Hw. revert s. unfold viz.Draw.
  apply panics_bind_l.
  destruct (Z.to_nat (viz.LoopCount im)) as [|n] eqn:Hn; [lia|].
  cbn [viz.passes]. apply panics_bind_l. rewrite Hfs. cbn [viz.pass fst].
  apply panics_bind_r; [intros s; now left|].
  apply panics_bind_l. unfold viz.draw_rows.
  apply for_each_panics.
  - apply Forall_forall. intros y _ s.
    assert (panics "index out of range"
              (for_each (seqZ 0 (viz.w im))
                 (fun x => idx <- lift (viz.pixel fr x y) ;;
                           viz.unchecked (viz.Write (viz.cell idx))) ;;
               viz.checked (viz.Write viz.newline))) as Hrow; [|right; apply Hrow].
    apply panics_bind_l, for_each_panics.
    + apply Forall_forall. intros x _. apply cell_ok_or_panics.
    + apply Exists_exists. exists (Z.of_nat (length (viz.picture fr))).
      split; [apply elem_of_seqZ; lia | apply cell_panics; lia].
  - apply Exists_exists. exists 0. split; [apply elem_of_seqZ; lia|].
    apply panics_bind_l, for_each_panics.
    + apply Forall_forall. intros x _. apply cell_ok_or_panics.
    + apply Exists_exists. exists (Z.of_nat (length (viz.picture fr))).
      split; [apply elem_of_seqZ; lia | apply cell_panics; lia].
Qed.

End Narrow.

Lemma Draw_narrow_frame_panics_witness :
  snd (viz.Draw scene.narrow_then_wide sink.reliable)
  = Panic "index out of range".
Proof.
  apply (Draw_narrow_frame_panics scene.narrow_then_wide
           (hd {| viz.picture := []; viz.delay := 0 |}
              (viz.frames scene.narrow_then_wide))
           (tl (viz.frames scene.narrow_then_wide))).
  - vm_compute. reflexivity.
  - vm_compute. reflexivity.
  - vm_compute. reflexivity.
  - vm_compute. reflexivity.
Defined.
